(** * FORD [utils.py]: scanners, macro registry, link resolver, external import

    A shallow embedding of [ford/utils.py] and the properties of it that the
    design document states.

    Conventions of the embedding.
    - A Python [str] is a [list ascii] ([str]); the characters are ASCII code
      points, and [isalpha], [\w], [lower] and [strip] are the ASCII
      restrictions of the Python ones.
    - A Python [int] is a [Z].
    - A call that can raise returns a [result]: [Ok v], [Raise e], or
      [OutOfFuel] for the loops and recursions that are run on fuel (each of
      those is proved never to reach it).
    - [print] appends a line to a log that the function returns or threads. *)

From Stdlib Require Import ZArith Ascii String List Lia Bool Sorted.
From stdpp Require Import base option list sorting gmap strings.

Set Warnings "-register-all".

Local Open Scope Z_scope.
Local Open Scope list_scope.

(** ** Strings *)

Abbreviation str := (list ascii).

Definition lit (s : string) : str := list_ascii_of_string s.
Arguments lit s%_string.

(** The double quote character, code point 34. *)
Definition DQ : ascii := ascii_of_nat 34.
(** The single quote character, code point 39. *)
Definition SQ : ascii := ascii_of_nat 39.

Definition chr_eqb (a b : ascii) : bool := Ascii.eqb a b.

Definition str_eqb (a b : str) : bool := bool_decide (a = b).

Definition code (c : ascii) : nat := nat_of_ascii c.

Definition in_range (lo hi : nat) (c : ascii) : bool :=
  (Nat.leb lo (code c)) && (Nat.leb (code c) hi).

Definition is_upper (c : ascii) : bool := in_range 65 90 c.
Definition is_lower (c : ascii) : bool := in_range 97 122 c.
Definition is_digit (c : ascii) : bool := in_range 48 57 c.

(** [str.isalpha] on one character. *)
Definition isalpha (c : ascii) : bool := is_upper c || is_lower c.

(** The class [\w] of [re]. *)
Definition is_word (c : ascii) : bool :=
  isalpha c || is_digit c || chr_eqb c "_".

(** [str.lower]. *)
Definition lower_chr (c : ascii) : ascii :=
  if is_upper c then ascii_of_nat (code c + 32) else c.

Definition lower (s : str) : str := map lower_chr s.

(** The characters [str.strip] removes: tab, line feed, vertical tab, form
    feed, carriage return, the four separators 28 to 31, and space. *)
Definition is_space (c : ascii) : bool :=
  in_range 9 13 c || in_range 28 32 c.

Fixpoint lstrip (s : str) : str :=
  match s with
  | c :: s' => if is_space c then lstrip s' else s
  | [] => []
  end.

Definition rstrip (s : str) : str := rev (lstrip (rev s)).

(** [str.strip()]. *)
Definition strip (s : str) : str := rstrip (lstrip s).

(** [s[a:b]] for [0 <= a] and [0 <= b]. *)
Definition slice (a b : nat) (s : str) : str := drop a (take b s).

(** [sep.join(l)]. *)
Fixpoint join (sep : str) (l : list str) : str :=
  match l with
  | [] => []
  | [x] => x
  | x :: l' => x ++ sep ++ join sep l'
  end.

(** A table in insertion order; a key is looked up from the front. *)
Fixpoint assoc {A : Type} (k : str) (l : list (str * A)) : option A :=
  match l with
  | [] => None
  | (k', v) :: l' => if str_eqb k k' then Some v else assoc k l'
  end.

(** ** Exceptions and results *)

Inductive exn : Type :=
  | RuntimeError (msg : str)
  | ValueError (msg : str)
  | KeyError (key : str)
  | TypeError
  | AttributeError
  | URLError (reason : str)
  | JSONDecodeError (msg : str)
  | FileNotFoundError (path : str)
  | UnicodeDecodeError.

Inductive result (A : Type) : Type :=
  | Ok (a : A)
  | Raise (e : exn)
  | OutOfFuel.
Arguments Ok {A} a.
Arguments Raise {A} e.
Arguments OutOfFuel {A}.

(** A [while] loop run on fuel: [None] when the fuel runs out first. *)
Fixpoint while_loop {S : Type} (fuel : nat) (cond : S -> bool)
    (body : S -> S) (st : S) : option S :=
  if cond st then
    match fuel with
    | O => None
    | S n => while_loop n cond body (body st)
    end
  else Some st.

(** ** The lexical scanner *)

Module Scanner.

(** The characters at which [get_parens] may stop. *)
Definition is_stop (c : ascii) : bool :=
  isalpha c || chr_eqb c "_" || chr_eqb c ":" || chr_eqb c "," || chr_eqb c " ".

(** The [for char in line] loop of [get_parens]; [rest] is what is left of
    [line]. *)
Fixpoint get_parens_loop (line rest parenstr : str) (level blevel : Z)
    (retlevel retblevel : Z) : result str :=
  match rest with
  | [] =>
      if (level =? retlevel) && (blevel =? retblevel) then Ok parenstr
      else Raise (RuntimeError (lit "Couldn't parse parentheses: " ++ line))
  | char :: rest' =>
      if chr_eqb char "(" then
        get_parens_loop line rest' (parenstr ++ [char]) (level + 1) blevel
          retlevel retblevel
      else if chr_eqb char ")" then
        get_parens_loop line rest' (parenstr ++ [char]) (level - 1) blevel
          retlevel retblevel
      else if chr_eqb char "[" then
        get_parens_loop line rest' (parenstr ++ [char]) level (blevel + 1)
          retlevel retblevel
      else if chr_eqb char "]" then
        get_parens_loop line rest' (parenstr ++ [char]) level (blevel - 1)
          retlevel retblevel
      else if is_stop char && (level =? retlevel) && (blevel =? retblevel)
      then Ok parenstr
      else
        get_parens_loop line rest' (parenstr ++ [char]) level blevel
          retlevel retblevel
  end.

Definition get_parens (line : str) (retlevel retblevel : Z) : result str :=
  match line with
  | [] => Ok line
  | _ => get_parens_loop line line [] 0 0 retlevel retblevel
  end.

(** The state of the loop of [paren_split]. *)
Record ps_state : Type := PS {
  ps_level : Z;
  ps_blevel : Z;
  ps_left : nat;
  ps_retlist : list str
}.

(** One turn of [for i in range(len(string))]. *)
Definition paren_split_step (sep : ascii) (string : str) (st : ps_state)
    (i : nat) : ps_state :=
  match string !! i with
  | None => st
  | Some c =>
      if chr_eqb c "(" then
        PS (ps_level st + 1) (ps_blevel st) (ps_left st) (ps_retlist st)
      else if chr_eqb c ")" then
        PS (ps_level st - 1) (ps_blevel st) (ps_left st) (ps_retlist st)
      else if chr_eqb c "[" then
        PS (ps_level st) (ps_blevel st + 1) (ps_left st) (ps_retlist st)
      else if chr_eqb c "]" then
        PS (ps_level st) (ps_blevel st - 1) (ps_left st) (ps_retlist st)
      else if chr_eqb c sep && (ps_level st =? 0) && (ps_blevel st =? 0) then
        PS (ps_level st) (ps_blevel st) (i + 1)%nat
           (ps_retlist st ++ [slice (ps_left st) i string])
      else st
  end.

Definition one_char_error : exn :=
  ValueError (lit "Separation string must be one character long").

Definition paren_split (sep string : str) : result (list str) :=
  match sep with
  | [c] =>
      let st := fold_left (paren_split_step c string)
                  (seq 0 (length string)) (PS 0 0 0%nat []) in
      Ok (ps_retlist st ++ [drop (ps_left st) string])
  | _ => Raise one_char_error
  end.

(** The state of the loop of [quote_split]. *)
Record qs_state : Type := QS {
  qs_squote : bool;
  qs_dquote : bool;
  qs_left : nat;
  qs_i : nat;
  qs_retlist : list str
}.

Definition char_at (string : str) (i : nat) (c : ascii) : bool :=
  match string !! i with
  | Some c' => chr_eqb c' c
  | None => false
  end.

(** The body of [while i < len(string)], the final [i += 1] included. *)
Definition quote_split_body (sep : ascii) (string : str) (st : qs_state)
    : qs_state :=
  let i := qs_i st in
  if char_at string i DQ && negb (qs_dquote st) then
    if negb (qs_squote st) then
      QS true (qs_dquote st) (qs_left st) (i + 1)%nat (qs_retlist st)
    else if Nat.ltb (i + 1) (length string) && char_at string (i + 1) DQ then
      QS (qs_squote st) (qs_dquote st) (qs_left st) (i + 1 + 1)%nat
         (qs_retlist st)
    else
      QS false (qs_dquote st) (qs_left st) (i + 1)%nat (qs_retlist st)
  else if char_at string i SQ && negb (qs_squote st) then
    if negb (qs_dquote st) then
      QS (qs_squote st) true (qs_left st) (i + 1)%nat (qs_retlist st)
    else if Nat.ltb (i + 1) (length string) && char_at string (i + 1) SQ then
      QS (qs_squote st) (qs_dquote st) (qs_left st) (i + 1 + 1)%nat
         (qs_retlist st)
    else
      QS (qs_squote st) false (qs_left st) (i + 1)%nat (qs_retlist st)
  else if char_at string i sep && negb (qs_dquote st) && negb (qs_squote st)
  then
    QS (qs_squote st) (qs_dquote st) (i + 1)%nat (i + 1)%nat
       (qs_retlist st ++ [slice (qs_left st) i string])
  else
    QS (qs_squote st) (qs_dquote st) (qs_left st) (i + 1)%nat (qs_retlist st).

Definition quote_split_cond (string : str) (st : qs_state) : bool :=
  Nat.ltb (qs_i st) (length string).

Definition quote_split (sep string : str) : result (list str) :=
  match sep with
  | [c] =>
      match while_loop (length string) (quote_split_cond string)
              (quote_split_body c string) (QS false false 0%nat 0%nat [])
      with
      | Some st => Ok (qs_retlist st ++ [drop (qs_left st) string])
      | None => OutOfFuel
      end
  | _ => Raise one_char_error
  end.

(** The net depths of a string: opening minus closing delimiters. *)
Definition count_chr (c : ascii) (s : str) : Z :=
  Z.of_nat (length (filter (fun x => x = c) s)).

Definition paren_depth (s : str) : Z := count_chr "(" s - count_chr ")" s.
Definition bracket_depth (s : str) : Z := count_chr "[" s - count_chr "]" s.

(** What the loops of both splitters keep true: the segments cut so far,
    followed by the text from [left] on, join back to [string]. *)
Definition joins_back (c : ascii) (string : str) (left : nat)
    (retlist : list str) : Prop :=
  join [c] (retlist ++ [drop left string]) = string.

(** What a turn of the loop of [quote_split] keeps true. *)
Definition qs_inv (c : ascii) (string : str) (st : qs_state) : Prop :=
  (qs_left st <= qs_i st)%nat /\ (qs_i st <= length string)%nat /\
  joins_back c string (qs_left st) (qs_retlist st).

(** The scan of [get_parens] returns at the character [c] that follows
    [a]: [c] is one of the characters it may stop at and the depths of [a]
    are the requested ones. *)
Definition stops_at (retlevel retblevel : Z) (a : str) (c : ascii) : Prop :=
  is_stop c = true /\ paren_depth a = retlevel /\ bracket_depth a = retblevel.

(** The scan reads all of [s]: it returns at none of its characters. *)
Definition reads_all (retlevel retblevel : Z) (s : str) : Prop :=
  forall a c b, s = a ++ c :: b -> ~ stops_at retlevel retblevel a c.

Definition parse_error (line : str) : exn :=
  RuntimeError (lit "Couldn't parse parentheses: " ++ line).

(** The state of the loop of [strip_paren]: the strings split off, the
    text of [curstr], and the level. *)
Record sp_state : Type := SP {
  sp_retstrs : list str;
  sp_curstr : str;
  sp_level : Z
}.

(** One turn of [for char in line] in [strip_paren]. *)
Definition strip_paren_step (retlevel : Z) (st : sp_state) (char : ascii)
    : sp_state :=
  let level := sp_level st in
  if chr_eqb char "(" then
    SP (sp_retstrs st)
       (if (level =? retlevel) || (level + 1 =? retlevel)
        then sp_curstr st ++ [char] else sp_curstr st)
       (level + 1)
  else if chr_eqb char ")" then
    let curstr := if (level =? retlevel) || (level - 1 =? retlevel)
                  then sp_curstr st ++ [char] else sp_curstr st in
    if level =? retlevel
    then SP (sp_retstrs st ++ [curstr]) [] (level - 1)
    else SP (sp_retstrs st) curstr (level - 1)
  else if level =? retlevel then
    SP (sp_retstrs st) (sp_curstr st ++ [char]) level
  else st.

Definition strip_paren (line : str) (retlevel : Z) : list str :=
  let st := fold_left (strip_paren_step retlevel) line (SP [] [] 0) in
  if bool_decide (sp_curstr st <> []) then sp_retstrs st ++ [sp_curstr st]
  else sp_retstrs st.

(** [s.split(c)] for a separator of one character. *)
Fixpoint split_plain (c : ascii) (s : str) : list str :=
  match s with
  | [] => [[]]
  | x :: s' =>
      if chr_eqb x c then [] :: split_plain c s'
      else match split_plain c s' with
           | h :: t => (x :: h) :: t
           | [] => [[x]]
           end
  end.

(** One of the four characters that the scanners count. *)
Definition is_bracket (c : ascii) : bool :=
  chr_eqb c "(" || chr_eqb c ")" || chr_eqb c "[" || chr_eqb c "]".

(** One of the two quote characters. *)
Definition is_quote (c : ascii) : bool := chr_eqb c DQ || chr_eqb c SQ.

(** What the loop of [strip_paren] keeps true, with [pre] the text read:
    no string split off is empty, and the strings split off followed by
    [curstr] are characters of [pre] in their order. *)
Definition sp_inv (pre : str) (st : sp_state) : Prop :=
  Forall (fun seg => seg <> []) (sp_retstrs st) /\
  sublist (concat (sp_retstrs st) ++ sp_curstr st) pre.

(** What the loop of [paren_split] keeps true on a text without brackets,
    before the turn [i]: both levels are 0, no separator lies between [left]
    and [i], and the segments cut so far followed by the plain split of the
    text from [left] on are the plain split of the text. *)
Definition plain_inv (c : ascii) (string : str) (i left : nat)
    (retlist : list str) : Prop :=
  (left <= i)%nat /\ (c ∉ slice left i string) /\
  retlist ++ split_plain c (drop left string) = split_plain c string.

End Scanner.


(** ** The macro registry *)

Module Macros.

(** [string.split(c, 1)] when [c] occurs in [string]: the text before and
    after the first [c]; [None] when it does not occur. *)
Fixpoint split_first (c : ascii) (string : str) : option (str * str) :=
  match string with
  | [] => None
  | x :: s' =>
      if chr_eqb x c then Some ([], s')
      else match split_first c s' with
           | Some (a, b) => Some (x :: a, b)
           | None => None
           end
  end.

Definition no_alias_msg (string : str) : str :=
  lit "Error, no alias name provided for " ++ string.

Definition conflict_msg (key val old : str) : str :=
  lit "Could not register macro " ++ [DQ] ++ key ++ [DQ] ++ lit " as "
  ++ [DQ] ++ val ++ [DQ] ++ lit "because it is already defined as "
  ++ [DQ] ++ old ++ [DQ].

(** [register_macro]; the dictionary [_MACRO_DICT] is passed in and
    returned. *)
Definition register_macro (string : str) (macro_dict : gmap str str)
    : gmap str str * result (str * str) :=
  match split_first "=" string with
  | None => (macro_dict, Raise (RuntimeError (no_alias_msg string)))
  | Some (chunk0, chunk1) =>
      let key := lit "|" ++ strip chunk0 ++ lit "|" in
      let val := strip chunk1 in
      match macro_dict !! key with
      | Some old =>
          if negb (str_eqb val old)
          then (macro_dict, Raise (RuntimeError (conflict_msg key val old)))
          else (<[key := val]> macro_dict, Ok (val, key))
      | None => (<[key := val]> macro_dict, Ok (val, key))
      end
  end.

(** [s.startswith(p)]. *)
Fixpoint starts_with (p s : str) : bool :=
  match p, s with
  | [], _ => true
  | a :: p', b :: s' => chr_eqb a b && starts_with p' s'
  | _ :: _, [] => false
  end.

(** [s.replace(old, new)] for a non-empty [old], from the front of [s]:
    the occurrences of [old] are taken from the left and do not overlap;
    [skip] counts the characters of an occurrence still to be passed over. *)
Fixpoint replace_from (old new s : str) (skip : nat) : str :=
  match s with
  | [] => []
  | c :: s' =>
      match skip with
      | S k => replace_from old new s' k
      | O =>
          if starts_with old s
          then new ++ replace_from old new s' (length old - 1)
          else c :: replace_from old new s' 0
      end
  end.

(** [s.replace(old, new)]; an empty [old] is found before every character
    and at the end. *)
Definition replace (old new s : str) : str :=
  match old with
  | [] => new ++ flat_map (fun c => c :: new) s
  | _ => replace_from old new s 0
  end.

(** [sub_macros(string)]; [items] is [_MACRO_DICT.items()], the keys and
    values in the order of their registration. *)
Definition sub_macros (items : list (str * str)) (string : str) : str :=
  fold_left (fun s kv => replace (fst kv) (snd kv) s) items string.

(** [old] occurs in [s]. *)
Definition occurs (old s : str) : Prop := exists a b, s = a ++ old ++ b.

(** [old in s]. *)
Fixpoint occursb (old s : str) : bool :=
  starts_with old s ||
  match s with
  | [] => false
  | _ :: s' => occursb old s'
  end.

End Macros.

(** ** The link resolver *)

Module Links.

(** An entity as [convert_link] sees it: [name], [get_url()], [anchor],
    [obj], the attribute [constructor] ([None]: no such attribute,
    [Some None]: the attribute is there and false, [Some (Some e)]: it holds
    [e]), and the other attributes that hold lists of entities. *)
Inductive Entity : Type := mkEntity {
  e_name : str;
  e_url : str;
  e_anchor : str;
  e_obj : str;
  e_constructor : option (option Entity);
  e_children : list (str * list Entity)
}.

Record Project : Type := mkProject {
  modules : list Entity;
  extModules : list Entity;
  types : list Entity;
  extTypes : list Entity;
  procedures : list Entity;
  extProcedures : list Entity;
  allfiles : list Entity;
  absinterfaces : list Entity;
  extInterfaces : list Entity;
  programs : list Entity;
  blockdata : list Entity
}.

(** [getattr(project, attr)]. *)
Definition getattr_project (project : Project) (attr : str)
    : result (list Entity) :=
  if str_eqb attr (lit "modules") then Ok (modules project)
  else if str_eqb attr (lit "extModules") then Ok (extModules project)
  else if str_eqb attr (lit "types") then Ok (types project)
  else if str_eqb attr (lit "extTypes") then Ok (extTypes project)
  else if str_eqb attr (lit "procedures") then Ok (procedures project)
  else if str_eqb attr (lit "extProcedures") then Ok (extProcedures project)
  else if str_eqb attr (lit "allfiles") then Ok (allfiles project)
  else if str_eqb attr (lit "absinterfaces") then Ok (absinterfaces project)
  else if str_eqb attr (lit "extInterfaces") then Ok (extInterfaces project)
  else if str_eqb attr (lit "programs") then Ok (programs project)
  else if str_eqb attr (lit "blockdata") then Ok (blockdata project)
  else Raise AttributeError.

Definition LINK_TYPES : list (str * str) :=
  [ (lit "module", lit "modules");
    (lit "extmodule", lit "extModules");
    (lit "type", lit "types");
    (lit "exttype", lit "extTypes");
    (lit "procedure", lit "procedures");
    (lit "extprocedure", lit "extProcedures");
    (lit "subroutine", lit "procedures");
    (lit "extsubroutine", lit "extProcedures");
    (lit "function", lit "procedures");
    (lit "extfunction", lit "extProcedures");
    (lit "proc", lit "procedures");
    (lit "extproc", lit "extProcedures");
    (lit "file", lit "allfiles");
    (lit "interface", lit "absinterfaces");
    (lit "extinterface", lit "extInterfaces");
    (lit "absinterface", lit "absinterfaces");
    (lit "extabsinterface", lit "extInterfaces");
    (lit "program", lit "programs");
    (lit "block", lit "blockdata") ].

Definition SUBLINK_TYPES : list (str * str) :=
  [ (lit "variable", lit "variables");
    (lit "type", lit "types");
    (lit "constructor", lit "constructor");
    (lit "interface", lit "interfaces");
    (lit "absinterface", lit "absinterfaces");
    (lit "subroutine", lit "subroutines");
    (lit "function", lit "functions");
    (lit "final", lit "finalprocs");
    (lit "bound", lit "boundprocs");
    (lit "modproc", lit "modprocs");
    (lit "common", lit "common") ].

(** What [LINK_RE] captured: [group()] and the groups 1 to 4, [None] for a
    group that took no part in the match. *)
Record LinkMatch : Type := mkMatch {
  group0 : str;
  group1 : str;
  group2 : option str;
  group3 : option str;
  group4 : option str
}.

(** The longest run of [\w] characters at the front, and the rest. *)
Fixpoint span_word (s : str) : str * str :=
  match s with
  | c :: s' =>
      if is_word c then let '(w, r) := span_word s' in (c :: w, r)
      else ([], s)
  | [] => ([], [])
  end.

(** [\w+]. *)
Definition word_plus (s : str) : option (str * str) :=
  match span_word s with
  | ([], _) => None
  | (w, r) => Some (w, r)
  end.

(** [(?:\((\w+)\))?]. *)
Definition opt_classifier (s : str) : option (option str * str) :=
  match s with
  | c :: s1 =>
      if chr_eqb c "(" then
        match word_plus s1 with
        | Some (w, c' :: s2) =>
            if chr_eqb c' ")" then Some (Some w, s2) else None
        | _ => None
        end
      else Some (None, s)
  | [] => Some (None, s)
  end.

(** [(\w+(?:\.\w+)?)]. *)
Definition primary_name (s : str) : option (str * str) :=
  match word_plus s with
  | Some (n1, c :: s2) =>
      if chr_eqb c "." then
        match word_plus s2 with
        | Some (n2, s3) => Some (n1 ++ c :: n2, s3)
        | None => Some (n1, c :: s2)
        end
      else Some (n1, c :: s2)
  | Some (n1, []) => Some (n1, [])
  | None => None
  end.

(** [(?::(\w+)(?:\((\w+)\))?)?]. *)
Definition opt_sub (s : str) : option (option str * option str * str) :=
  match s with
  | c :: s1 =>
      if chr_eqb c ":" then
        match word_plus s1 with
        | Some (w, s2) =>
            match opt_classifier s2 with
            | Some (cl, s3) => Some (Some w, cl, s3)
            | None => None
            end
        | None => None
        end
      else Some (None, None, s)
  | [] => Some (None, None, s)
  end.

(** [LINK_RE] matched at the front of [s]: the match and what follows it.
    Every repetition of the pattern is a run of [\w] that is followed by a
    character outside [\w], and every optional group starts with a character
    that nothing after the group accepts, so that the backtracking of [re]
    finds no match other than the one of this left-to-right reading. *)
Definition match_link (s : str) : option (LinkMatch * str) :=
  match s with
  | c1 :: c2 :: s1 =>
      if chr_eqb c1 "[" && chr_eqb c2 "[" then
        match primary_name s1 with
        | Some (g1, s2) =>
            match opt_classifier s2 with
            | Some (g2, s3) =>
                match opt_sub s3 with
                | Some (g3, g4, c3 :: c4 :: rest) =>
                    if chr_eqb c3 "]" && chr_eqb c4 "]" then
                      Some (mkMatch (take (length s - length rest) s)
                                    g1 g2 g3 g4, rest)
                    else None
                | _ => None
                end
            | None => None
            end
        | None => None
        end
      else None
  | _ => None
  end.

(** [ERR.format(markup, reason)]. *)
Definition ERR (markup reason : str) : str :=
  lit "Warning: Could not substitute link " ++ markup ++ lit ". " ++ reason.

(** How an f-string shows a group. *)
Definition show_group (g : option str) : str :=
  match g with
  | Some s => s
  | None => lit "None"
  end.

Definition quoted (s : str) : str := [DQ] ++ s ++ [DQ].

Definition unrecognized (m : LinkMatch) : str :=
  ERR (group0 m)
      (lit "Unrecognized classification " ++ quoted (show_group (group2 m))).

Definition unrecognized_sub (m : LinkMatch) : str :=
  ERR (group0 m)
      (lit "Unrecognized classification " ++ quoted (show_group (group2 m))
       ++ lit ".").

Definition not_contained (m : LinkMatch) (item : Entity) : str :=
  ERR (group0 m)
      (quoted (show_group (group4 m)) ++ lit " can not be contained in "
       ++ quoted (e_obj item)).

Definition not_found (m : LinkMatch) : str :=
  ERR (group0 m) (quoted (group1 m) ++ lit " not found.").

Definition sub_not_found (m : LinkMatch) (name : str) : str :=
  ERR (group0 m)
      (quoted (show_group (group3 m)) ++ lit " not found in " ++ quoted name
       ++ lit ", linking to page for " ++ quoted name ++ lit " instead.").

Definition a_href (url name : str) : str :=
  lit "<a href=" ++ [DQ] ++ url ++ [DQ] ++ lit ">" ++ name ++ lit "</a>".

Definition a_plain (name : str) : str := lit "<a>" ++ name ++ lit "</a>".

(** The first [obj] of [searchlist] with [wanted.lower() == obj.name.lower()]. *)
Definition find_named (wanted : str) (searchlist : list Entity)
    : option Entity :=
  List.find (fun obj => str_eqb (lower wanted) (lower (e_name obj))) searchlist.

(** [searchlist] after the loop over [LINK_TYPES.items()]. *)
Fixpoint extend_all (project : Project) (table : list (str * str))
    (searchlist : list Entity) : result (list Entity) :=
  match table with
  | [] => Ok searchlist
  | (_, val) :: table' =>
      match getattr_project project val with
      | Ok l => extend_all project table' (searchlist ++ l)
      | Raise e => Raise e
      | OutOfFuel => OutOfFuel
      end
  end.

(** The primary search list; [Ok None] stands for the unrecognized
    classifier. *)
Definition primary_searchlist (project : Project) (m : LinkMatch)
    : result (option (list Entity)) :=
  match group2 m with
  | None =>
      match extend_all project LINK_TYPES [] with
      | Ok l => Ok (Some l)
      | Raise e => Raise e
      | OutOfFuel => OutOfFuel
      end
  | Some cl =>
      match assoc (lower cl) LINK_TYPES with
      | Some val =>
          match getattr_project project val with
          | Ok l => Ok (Some l)
          | Raise e => Raise e
          | OutOfFuel => OutOfFuel
          end
      | None => Ok None
      end
  end.

Definition is_constructor (val : str) : bool := str_eqb val (lit "constructor").

(** [hasattr(item, attr)]. *)
Definition hasattr (item : Entity) (attr : str) : bool :=
  if is_constructor attr then bool_decide (is_Some (e_constructor item))
  else bool_decide (is_Some (assoc attr (e_children item))).

(** [getattr(item, attr, [])] for an attribute other than [constructor]. *)
Definition getattr_list (item : Entity) (attr : str) : list Entity :=
  default [] (assoc attr (e_children item)).

(** The entity [item.constructor] holds when it is true. *)
Definition constructor_of (item : Entity) : list Entity :=
  match e_constructor item with
  | Some (Some c) => [c]
  | _ => []
  end.

(** [searchlist] after the loop over [SUBLINK_TYPES.items()]. *)
Fixpoint sub_extend_all (item : Entity) (table : list (str * str))
    (searchlist : list Entity) : list Entity :=
  match table with
  | [] => searchlist
  | (_, val) :: table' =>
      if is_constructor val then
        sub_extend_all item table' (searchlist ++ constructor_of item)
      else sub_extend_all item table' (searchlist ++ getattr_list item val)
  end.

Inductive sub_search : Type :=
  | SubList (searchlist : list Entity)
  | SubNotContained
  | SubUnrecognized.

Definition sub_searchlist (item : Entity) (m : LinkMatch) : sub_search :=
  match group4 m with
  | None => SubList (sub_extend_all item SUBLINK_TYPES [])
  | Some cl =>
      match assoc (lower cl) SUBLINK_TYPES with
      | Some val =>
          if hasattr item val then
            if str_eqb (lower cl) (lit "constructor")
            then SubList (constructor_of item)
            else SubList (getattr_list item val)
          else SubNotContained
      | None => SubUnrecognized
      end
  end.

(** [convert_link(match)]: the replacement text and the lines printed. *)
Definition convert_link (project : Project) (m : LinkMatch)
    : result (str * list str) :=
  match primary_searchlist project m with
  | Raise e => Raise e
  | OutOfFuel => OutOfFuel
  | Ok None => Ok (group0 m, [unrecognized m])
  | Ok (Some searchlist) =>
      match find_named (group1 m) searchlist with
      | None => Ok (a_plain (group1 m), [not_found m])
      | Some item =>
          match group3 m with
          | None => Ok (a_href (e_url item) (e_name item), [])
          | Some sub =>
              match sub_searchlist item m with
              | SubUnrecognized => Ok (group0 m, [unrecognized_sub m])
              | SubNotContained => Ok (group0 m, [not_contained m item])
              | SubList sublist =>
                  match find_named sub sublist with
                  | Some obj =>
                      Ok (a_href (e_url item ++ lit "#" ++ e_anchor obj)
                                 (e_name obj), [])
                  | None =>
                      Ok (a_href (e_url item) (e_name item),
                          [sub_not_found m (e_name item)])
                  end
              end
          end
      end
  end.

(** [LINK_RE.sub(convert_link, string)] from the front of [s]; [skip] counts
    the characters of a match that are still to be passed over. *)
Fixpoint sub_from (project : Project) (s : str) (skip : nat)
    : result (str * list str) :=
  match s with
  | [] => Ok ([], [])
  | c :: s' =>
      match skip with
      | S k => sub_from project s' k
      | O =>
          match match_link s with
          | Some (m, _) =>
              match convert_link project m with
              | Ok (text, lines) =>
                  match sub_from project s' (length (group0 m) - 1) with
                  | Ok (text', lines') => Ok (text ++ text', lines ++ lines')
                  | Raise e => Raise e
                  | OutOfFuel => OutOfFuel
                  end
              | Raise e => Raise e
              | OutOfFuel => OutOfFuel
              end
          | None =>
              match sub_from project s' 0 with
              | Ok (text', lines') => Ok (c :: text', lines')
              | Raise e => Raise e
              | OutOfFuel => OutOfFuel
              end
          end
      end
  end.

Definition sub_links (string : str) (project : Project)
    : result (str * list str) :=
  sub_from project string 0.

(** The markup of a link with the given fields. *)
Definition classifier_markup (g : option str) : str :=
  match g with
  | Some cl => lit "(" ++ cl ++ lit ")"
  | None => []
  end.

(** The markup of a sub-name and its classifier. *)
Definition sub_markup (g3 g4 : option str) : str :=
  match g3 with
  | Some sub => lit ":" ++ sub ++ classifier_markup g4
  | None => []
  end.

Definition markup (g1 : str) (g2 g3 g4 : option str) : str :=
  lit "[[" ++ g1 ++ classifier_markup g2 ++ sub_markup g3 g4 ++ lit "]]".

(** A non-empty run of [\w] characters. *)
Definition is_ident (s : str) : bool :=
  negb (bool_decide (s = [])) && forallb is_word s.

(** A primary name: an identifier, or two of them around one dot. *)
Definition is_name (s : str) : bool :=
  match Macros.split_first "." s with
  | Some (a, b) => is_ident a && is_ident b
  | None => is_ident s
  end.

(** [r] does not go on with a [\w] character. *)
Definition word_ends (r : str) : Prop :=
  match r with
  | c :: _ => is_word c = false
  | [] => True
  end.

(** The sub-search space of [item] when the link gives no sub-classifier. *)
Definition children_of (item : Entity) : list Entity :=
  sub_extend_all item SUBLINK_TYPES [].

(** The search space of a link with no classifier. *)
Definition all_collections (project : Project) : list Entity :=
  modules project ++ extModules project ++ types project
  ++ extTypes project ++ procedures project ++ extProcedures project
  ++ procedures project ++ extProcedures project ++ procedures project
  ++ extProcedures project ++ procedures project ++ extProcedures project
  ++ allfiles project ++ absinterfaces project ++ extInterfaces project
  ++ absinterfaces project ++ extInterfaces project ++ programs project
  ++ blockdata project.

Definition empty_project : Project :=
  mkProject [] [] [] [] [] [] [] [] [] [] [].

(** A project with one type, [mytype], that owns one variable, [myvar]. *)
Definition myvar : Entity :=
  mkEntity (lit "myvar") (lit "type/mytype.html") (lit "variable-myvar")
           (lit "variable") None [].

Definition mytype : Entity :=
  mkEntity (lit "mytype") (lit "type/mytype.html") (lit "") (lit "type")
           (Some None) [(lit "variables", [myvar]); (lit "boundprocs", [])].

Definition one_type_project : Project :=
  mkProject [] [] [mytype] [] [] [] [] [] [] [] [].

(** The fields of a link are well formed. *)
Definition well_formed (g1 : str) (g2 g3 g4 : option str) : Prop :=
  is_name g1 = true /\
  (forall cl, g2 = Some cl -> is_ident cl = true) /\
  (forall sub, g3 = Some sub -> is_ident sub = true) /\
  (forall cl, g4 = Some cl -> is_ident cl = true) /\
  (g3 = None -> g4 = None).

(** [searchlist] is where a link with the classifier [g2] looks for its
    primary name: the collection of a recognized classifier, or every
    collection when there is no classifier. *)
Definition search_space (project : Project) (g2 : option str)
    (searchlist : list Entity) : Prop :=
  match g2 with
  | None => searchlist = all_collections project
  | Some cl =>
      exists val, assoc (lower cl) LINK_TYPES = Some val /\
                  getattr_project project val = Ok searchlist
  end.

(** One result after another: the texts and the printed lines in order. *)
Definition and_then (r1 r2 : result (str * list str))
    : result (str * list str) :=
  match r1, r2 with
  | Ok (t1, l1), Ok (t2, l2) => Ok (t1 ++ t2, l1 ++ l2)
  | Ok _, Raise e => Raise e
  | Ok _, OutOfFuel => OutOfFuel
  | Raise e, _ => Raise e
  | OutOfFuel, _ => OutOfFuel
  end.

(** [sublist] is where a link with the sub-classifier [g4] looks for its
    sub-name below [item]: the attribute of a recognized sub-classifier that
    [item] has, or the attributes of [SUBLINK_TYPES] one after the other when
    there is no sub-classifier. *)
Definition sub_space (item : Entity) (g4 : option str)
    (sublist : list Entity) : Prop :=
  match g4 with
  | None => sublist = children_of item
  | Some cl =>
      exists val, assoc (lower cl) SUBLINK_TYPES = Some val /\
                  hasattr item val = true /\
                  sublist = if str_eqb (lower cl) (lit "constructor")
                            then constructor_of item
                            else getattr_list item val
  end.

(** The groups of two matches are the same but for the case of the
    letters. *)
Definition same_but_case (g g' : option str) : Prop :=
  match g, g' with
  | Some a, Some b => lower a = lower b
  | None, None => True
  | _, _ => False
  end.

(** A project in which a module and a type have the same name but for the
    case of the letters. *)
Definition thing_module : Entity :=
  mkEntity (lit "thing") (lit "module/thing.html") (lit "") (lit "module")
           None [].

Definition thing_type : Entity :=
  mkEntity (lit "Thing") (lit "type/thing.html") (lit "") (lit "type") None [].

Definition two_things_project : Project :=
  mkProject [thing_module] [] [thing_type] [] [] [] [] [] [] [] [].

End Links.

(** ** The import of external projects *)

Module Interchange.

Import Macros.

(** A decoded JSON document; a [JDict] lists its (distinct) keys in the
    order of the document. *)
Inductive json : Type :=
  | JNull
  | JBool (b : bool)
  | JNum (n : Z)
  | JStr (s : str)
  | JList (l : list json)
  | JDict (d : list (str * json)).

(** The truth value of a decoded value. *)
Definition truthy (j : json) : bool :=
  match j with
  | JNull => false
  | JBool b => b
  | JNum n => negb (n =? 0)
  | JStr s => negb (bool_decide (s = []))
  | JList l => negb (bool_decide (l = []))
  | JDict d => negb (bool_decide (d = []))
  end.

(** The nesting height of a document, the bound on the recursion of
    [dict2obj]. *)
Fixpoint height (j : json) : nat :=
  match j with
  | JList l => S (fold_right (fun x n => Nat.max (height x) n) O l)
  | JDict d => S (fold_right (fun kv n => Nat.max (height (snd kv)) n) O d)
  | _ => O
  end.

Inductive EntityKind : Type :=
  | ExternalModule
  | ExternalInterface
  | ExternalType
  | ExternalVariable
  | ExternalFunction
  | ExternalSubroutine
  | ExternalBoundProcedure.

Definition ENTITIES : list (str * EntityKind) :=
  [ (lit "module", ExternalModule);
    (lit "interface", ExternalInterface);
    (lit "type", ExternalType);
    (lit "variable", ExternalVariable);
    (lit "function", ExternalFunction);
    (lit "subroutine", ExternalSubroutine);
    (lit "boundprocedure", ExternalBoundProcedure) ].

Definition ATTRIBUTES : list str :=
  [ lit "pub_procs"; lit "pub_absints"; lit "pub_types"; lit "pub_vars";
    lit "functions"; lit "subroutines"; lit "interfaces";
    lit "absinterfaces"; lit "types"; lit "variables"; lit "boundprocs";
    lit "vartype"; lit "permission"; lit "generic" ].

(** What [setattr] stores: a list of objects, a dictionary of objects, or a
    value of the document as it is. Objects are named by their index in the
    heap. *)
Inductive attr_value : Type :=
  | VObjs (l : list nat)
  | VObjMap (d : list (str * nat))
  | VRaw (j : json).

(** An [ExternalModule], [ExternalFunction], ... object. *)
Record ExtObj : Type := mkExtObj {
  eo_kind : EntityKind;
  eo_name : json;
  eo_url : json;
  eo_parent : option nat;
  eo_attrs : list (str * attr_value)
}.

(** What the import reads from outside this file. *)
Record World : Type := mkWorld {
  (** [urlopen(u).read().decode("utf8")] *)
  urlopen_read : str -> result str;
  (** [path.read_text(encoding="utf-8")] *)
  read_text : str -> result str;
  json_loads : str -> result json;
  urljoin : str -> str -> str;
  (** [base / rel] of [pathlib] *)
  path_join : str -> str -> str;
  (** [pathlib.Path(p).resolve()] *)
  path_resolve : str -> str;
  (** The class attribute [_project_list] of each entity class of
      [ford.sourceform]. *)
  project_list_of : EntityKind -> str
}.

(** The objects created so far, the lists of the project by attribute name,
    the lines printed, and [_MACRO_DICT]. *)
Record state : Type := mkState {
  heap : list ExtObj;
  project : gmap str (list nat);
  log : list str;
  macros : gmap str str
}.

Definition M (A : Type) : Type := state -> state * result A.

Definition ret {A : Type} (a : A) : M A := fun st => (st, Ok a).

Definition raise {A : Type} (e : exn) : M A := fun st => (st, Raise e).

Definition bind {A B : Type} (m : M A) (f : A -> M B) : M B :=
  fun st =>
    match m st with
    | (st', Ok a) => f a st'
    | (st', Raise e) => (st', Raise e)
    | (st', OutOfFuel) => (st', OutOfFuel)
    end.

Notation "x <- m ;; k" := (bind m (fun x => k))
  (at level 100, m at next level, right associativity).

Definition lift {A : Type} (r : result A) : M A := fun st => (st, r).

Fixpoint mapM {A B : Type} (f : A -> M B) (l : list A) : M (list B) :=
  match l with
  | [] => ret []
  | x :: l' => y <- f x ;; ys <- mapM f l' ;; ret (y :: ys)
  end.

Fixpoint forM {A : Type} (l : list A) (f : A -> M unit) : M unit :=
  match l with
  | [] => ret tt
  | x :: l' => _ <- f x ;; forM l' f
  end.

(** [extDict[key]]. *)
Definition getitem (extDict : json) (key : str) : result json :=
  match extDict with
  | JDict d =>
      match assoc key d with
      | Some v => Ok v
      | None => Raise (KeyError key)
      end
  | _ => Raise TypeError
  end.

(** [s.split("/", 1)[-1]]. *)
Definition after_slash (s : str) : str :=
  match split_first "/" s with
  | Some (_, t) => t
  | None => s
  end.

(** The [external_url] of the new object. *)
Definition resolve_url (w : World) (url : str) (remote : bool)
    (external_url : json) : result json :=
  if truthy external_url then
    match external_url with
    | JStr s =>
        let rel := after_slash s in
        Ok (JStr (if remote then urljoin w url rel else path_join w url rel))
    | _ => Raise AttributeError
    end
  else Ok external_url.

(** [extDict.get("proctype", extDict["obj"]).lower()]. *)
Definition entity_tag (extDict : json) : result str :=
  match getitem extDict (lit "obj") with
  | Ok o =>
      match extDict with
      | JDict d =>
          match default o (assoc (lit "proctype") d) with
          | JStr s => Ok (lower s)
          | _ => Raise AttributeError
          end
      | _ => Raise TypeError
      end
  | Raise e => Raise e
  | OutOfFuel => OutOfFuel
  end.

(** [ENTITIES[obj_type](name, external_url, parent)]: the new object is put
    on the heap, with no attribute set yet. *)
Definition construct (kind : EntityKind) (name external_url : json)
    (parent : option nat) : M nat :=
  fun st =>
    (mkState (heap st ++ [mkExtObj kind name external_url parent []])
             (project st) (log st) (macros st),
     Ok (length (heap st))).

(** [getattr(project, extObj._project_list).append(extObj)]. *)
Definition register (w : World) (kind : EntityKind) (id : nat) : M unit :=
  fun st =>
    match project st !! project_list_of w kind with
    | Some l =>
        (mkState (heap st)
                 (<[project_list_of w kind := l ++ [id]]> (project st))
                 (log st) (macros st),
         Ok tt)
    | None => (st, Raise AttributeError)
    end.

Definition set_attr (key : str) (v : attr_value) (o : ExtObj) : ExtObj :=
  mkExtObj (eo_kind o) (eo_name o) (eo_url o) (eo_parent o)
           ((key, v) :: filter (fun kv => kv.1 <> key) (eo_attrs o)).

(** [setattr(extObj, key, v)]. *)
Definition setattr (id : nat) (key : str) (v : attr_value) : M unit :=
  fun st =>
    (mkState (alter (set_attr key v) id (heap st)) (project st) (log st)
             (macros st),
     Ok tt).

Definition print (line : str) : M unit :=
  fun st => (mkState (heap st) (project st) (log st ++ [line]) (macros st),
             Ok tt).

(** The part of [dict2obj] that follows once the new object [extObj] is on
    its list: [proctype] or [extends], then the loop over [ATTRIBUTES];
    [rec item parent] is [dict2obj(item, url, parent, remote)]. *)
Definition fill (rec : json -> option nat -> M nat) (extDict : json)
    (obj_type : str) (extObj : nat) : M nat :=
  _ <- (if str_eqb obj_type (lit "interface") then
          proctype <- lift (getitem extDict (lit "proctype")) ;;
          setattr extObj (lit "proctype") (VRaw proctype)
        else if str_eqb obj_type (lit "type") then
          extends <- lift (getitem extDict (lit "extends")) ;;
          setattr extObj (lit "extends") (VRaw extends)
        else ret tt) ;;
  _ <- forM ATTRIBUTES (fun key =>
         match getitem extDict key with
         | Ok (JList items) =>
             tmpLs <- mapM (fun item => rec item (Some extObj))
                           (List.filter truthy items) ;;
             setattr extObj key (VObjs tmpLs)
         | Ok (JDict items) =>
             tmpDict <- mapM (fun kv =>
                                o <- rec (snd kv) (Some extObj) ;;
                                ret (fst kv, o))
                             (List.filter (fun kv => truthy (snd kv)) items) ;;
             setattr extObj key (VObjMap tmpDict)
         | Ok v => setattr extObj key (VRaw v)
         | _ => ret tt
         end) ;;
  ret extObj.

(** [dict2obj(extDict, url, parent, remote)], run on [fuel]. *)
Fixpoint dict2obj (w : World) (fuel : nat) (extDict : json) (url : str)
    (parent : option nat) (remote : bool) : M nat :=
  match fuel with
  | O => fun st => (st, OutOfFuel)
  | S fuel' =>
      name <- lift (getitem extDict (lit "name")) ;;
      raw_url <- lift (getitem extDict (lit "external_url")) ;;
      external_url <- lift (resolve_url w url remote raw_url) ;;
      obj_type <- lift (entity_tag extDict) ;;
      kind <- lift (match assoc obj_type ENTITIES with
                    | Some k => Ok k
                    | None => Raise (KeyError obj_type)
                    end) ;;
      extObj <- construct kind name external_url parent ;;
      _ <- register w kind extObj ;;
      fill (fun item parent' => dict2obj w fuel' item url parent' remote)
           extDict obj_type extObj
  end.

(** [re.match("https?://", url)]. *)
Definition is_remote (url : str) : bool :=
  bool_decide (take 7 url = lit "http://")
  || bool_decide (take 8 url = lit "https://").

(** What [for x in v] runs over. *)
Definition iterate (v : json) : result (list json) :=
  match v with
  | JList l => Ok l
  | JDict d => Ok (map (fun kv => JStr (fst kv)) d)
  | JStr s => Ok (map (fun c => JStr [c]) s)
  | _ => Raise TypeError
  end.

(** The body of [try]: the location as it is after the body and the decoded
    document, or the exception. The location is reassigned before anything
    can fail. *)
Definition fetch (w : World) (url : str) : str * result json :=
  if is_remote url then
    let url' := if bool_decide (last url = Some "/"%char) then url
                else url ++ lit "/" in
    (url', match urlopen_read w (urljoin w url' (lit "modules.json")) with
           | Ok text => json_loads w text
           | Raise e => Raise e
           | OutOfFuel => OutOfFuel
           end)
  else
    let url' := path_resolve w url in
    (url', match read_text w (path_join w url' (lit "modules.json")) with
           | Ok text => json_loads w text
           | Raise e => Raise e
           | OutOfFuel => OutOfFuel
           end).

(** [except (URLError, json.JSONDecodeError)]. *)
Definition caught (e : exn) : bool :=
  match e with
  | URLError _ | JSONDecodeError _ => true
  | _ => false
  end.

(** [str(error)]. *)
Definition exn_text (e : exn) : str :=
  match e with
  | RuntimeError m | ValueError m | JSONDecodeError m => m
  | KeyError k => [SQ] ++ k ++ [SQ]
  | URLError r => lit "<urlopen error " ++ r ++ lit ">"
  | FileNotFoundError p => lit "[Errno 2] No such file or directory: " ++ [SQ] ++ p ++ [SQ]
  | _ => []
  end.

Definition could_not_open (url : str) (e : exn) : str :=
  lit "Could not open external URL '" ++ url ++ lit "', reason: "
  ++ exn_text e.

Definition register_macroM (urldef : str) : M (str * str) :=
  fun st =>
    let '(d, r) := register_macro urldef (macros st) in
    (mkState (heap st) (project st) (log st) d, r).

(** The loop [for extModule in extModules]. *)
Definition import_records (w : World) (extModules : json) (url : str)
    (remote : bool) : M unit :=
  records <- lift (iterate extModules) ;;
  forM records (fun extModule =>
    _ <- dict2obj w (S (height extModule)) extModule url None remote ;;
    ret tt).

(** One turn of [for urldef in project.external]. *)
Definition import_source (w : World) (urldef : str) : M unit :=
  reg <- register_macroM urldef ;;
  let url := fst reg in
  let remote := is_remote url in
  match fetch w url with
  | (url', Ok extModules) => import_records w extModules url' remote
  | (url', Raise error) =>
      if caught error then
        _ <- print (could_not_open url' error) ;;
        import_records w (JList []) url' remote
      else raise error
  | (_, OutOfFuel) => fun st => (st, OutOfFuel)
  end.

(** [external(project, make=False)] with [project.external = sources]. *)
Definition external (w : World) (sources : list str) : M unit :=
  forM sources (import_source w).

(** *** What the import keeps true *)

(** The project has the list that each entity class names. *)
Definition has_lists (w : World) (st : state) : Prop :=
  forall kind, is_Some (project st !! project_list_of w kind).

(** No orphan: every object created is in the list of the project that its
    class names. *)
Definition all_registered (w : World) (st : state) : Prop :=
  forall id o, heap st !! id = Some o ->
    exists l, project st !! project_list_of w (eo_kind o) = Some l /\ id ∈ l.

(** A parent is created before its children. *)
Definition parents_first (st : state) : Prop :=
  forall id o p, heap st !! id = Some o -> eo_parent o = Some p ->
    (p < id)%nat.

(** Each list of the project holds objects that exist, in the order of
    their creation. *)
Definition lists_in_order (st : state) : Prop :=
  forall attr l, project st !! attr = Some l ->
    StronglySorted lt l /\ Forall (fun id => (id < length (heap st))%nat) l.

Definition good (w : World) (st : state) : Prop :=
  has_lists w st /\ all_registered w st /\ parents_first st /\
  lists_in_order st.

(** What [setattr] leaves as it is. *)
Definition same_entity (o o' : ExtObj) : Prop :=
  eo_kind o' = eo_kind o /\ eo_name o' = eo_name o /\ eo_url o' = eo_url o /\
  eo_parent o' = eo_parent o.

(** From [st] to [st'] objects are only added and only get attributes, and
    the lists of the project only get longer at the end. *)
Definition grows (st st' : state) : Prop :=
  (forall id o, heap st !! id = Some o ->
     exists o', heap st' !! id = Some o' /\ same_entity o o') /\
  (forall attr l, project st !! attr = Some l ->
     exists l', project st' !! attr = Some (l ++ l')).

(** [m], run in a good state with at least [n] objects, ends (with a value
    or with an exception) in a good state that has grown from the first. *)
Definition safe (w : World) (n : nat) {A : Type} (m : M A) : Prop :=
  forall st, good w st -> (n <= length (heap st))%nat ->
    good w (m st).1 /\ grows st (m st).1.

(** [m] does not run out of fuel. *)
Definition terminates {A : Type} (m : M A) : Prop :=
  forall st, (m st).2 <> OutOfFuel.

(** The oracles of [w] return or raise. *)
Definition world_total (w : World) : Prop :=
  (forall u, urlopen_read w u <> OutOfFuel) /\
  (forall p, read_text w p <> OutOfFuel) /\
  (forall t, json_loads w t <> OutOfFuel).

(** *** The order of creation *)

(** The names of the objects in the order of their creation. *)
Definition names (st : state) : list json := map eo_name (heap st).

(** The names below a record: attribute by attribute in the order of
    [ATTRIBUTES], what [rec] gives for the true items of the lists and of
    the dictionaries of the record. *)
Definition children_order (rec : json -> list json) (extDict : json)
    : list json :=
  flat_map (fun key =>
              match getitem extDict key with
              | Ok (JList items) => flat_map rec (List.filter truthy items)
              | Ok (JDict items) =>
                  flat_map (fun kv => rec (snd kv))
                    (List.filter (fun kv => truthy (snd kv)) items)
              | _ => []
              end)
           ATTRIBUTES.

(** The names of the records of a document in pre-order: the name of a
    record, then the names below it, each child in pre-order; [fuel] bounds
    the depth. *)
Fixpoint preorder (fuel : nat) (extDict : json) : list json :=
  match fuel with
  | O => []
  | S fuel' =>
      match getitem extDict (lit "name") with
      | Ok name => name :: children_order (preorder fuel') extDict
      | _ => []
      end
  end.

(** [m] creates objects with the names [out], in that order, when it
    returns, and with the first names of [out] when it raises. *)
Definition emits {A : Type} (m : M A) (out : list json) : Prop :=
  forall st, exists rest,
    names st ++ out = names (m st).1 ++ rest /\
    (forall a, (m st).2 = Ok a -> rest = []).

(** *** A world to run the import in *)

Definition record (name obj : string) (more : list (str * json)) : json :=
  JDict ([(lit "name", JStr (lit name));
          (lit "external_url", JStr (lit "./" ++ lit name ++ lit ".html"));
          (lit "obj", JStr (lit obj))] ++ more).

(** A document with a module [a] that holds a record of the unknown kind
    [gadget] before a function [f], and a module [b] after [a]. *)
Definition doc_gadget : json :=
  JList [ record "a" "module"
            [(lit "functions",
              JList [record "g" "gadget" []; record "f" "function" []])];
          record "b" "module" [] ].

(** A document with one module [n]. *)
Definition doc_plain : json := JList [record "n" "module" []].

(** Text is read from [/gadget/modules.json] and from every [http] address
    but those of the host [down]; no other file exists. *)
Definition demo_world : World :=
  mkWorld
    (fun u => if str_eqb u (lit "http://down/modules.json")
              then Raise (URLError (lit "Connection refused"))
              else Ok (lit "plain"))
    (fun p => if str_eqb p (lit "/gadget/modules.json")
              then Ok (lit "gadget")
              else Raise (FileNotFoundError p))
    (fun t => if str_eqb t (lit "gadget") then Ok doc_gadget
              else if str_eqb t (lit "plain") then Ok doc_plain
              else Raise (JSONDecodeError t))
    (fun base rel => base ++ rel)
    (fun base rel => base ++ lit "/" ++ rel)
    (fun p => p)
    (fun kind =>
       match kind with
       | ExternalModule => lit "extModules"
       | ExternalInterface => lit "extInterfaces"
       | ExternalType => lit "extTypes"
       | ExternalVariable => lit "extVariables"
       | ExternalFunction | ExternalSubroutine => lit "extProcedures"
       | ExternalBoundProcedure => lit "extBoundProcs"
       end).

Definition demo_state : state :=
  mkState []
    (list_to_map [(lit "extModules", []); (lit "extInterfaces", []);
                  (lit "extTypes", []); (lit "extVariables", []);
                  (lit "extProcedures", []); (lit "extBoundProcs", [])])
    [] ∅.

(** *** The export *)

(** The value of an attribute of [ATTRIBUTES] as [obj2dict] tells them
    apart: a list of objects, a dictionary of objects, or anything else,
    given by what [str] makes of it. *)
Inductive attr (T : Type) : Type :=
  | AList (l : list T)
  | ADict (d : list (str * T))
  | AOther (shown : str).
Arguments AList {T} l.
Arguments ADict {T} d.
Arguments AOther {T} shown.

(** An object of the project as [obj2dict] reads it: whether it has the
    attribute [external_url], its [name], [get_url()] and [obj], its
    [proctype] and [extends] when it has them ([extends] holds a
    [FortranType] or something else), and [getattr] on the names of
    [ATTRIBUTES], [None] where [hasattr] is false. *)
Inductive IntObj : Type := mkIntObj {
  io_is_external : bool;
  io_name : json;
  io_url : json;
  io_obj : json;
  io_proctype : option json;
  io_extends : option (IntObj + json);
  io_getattr : str -> option (attr IntObj)
}.

(** [obj2dict(intObj)]; [JNull] is [None]. *)
Fixpoint obj2dict (intObj : IntObj) : json :=
  match intObj with
  | mkIntObj is_external name url obj proctype extends getattr_ =>
      if is_external then JNull
      else
        JDict
          ([(lit "name", name); (lit "external_url", url); (lit "obj", obj)]
           ++ match proctype with
              | Some p => [(lit "proctype", p)]
              | None => []
              end
           ++ match extends with
              | Some (inl t) => [(lit "extends", obj2dict t)]
              | Some (inr v) => [(lit "extends", v)]
              | None => []
              end
           ++ flat_map
                (fun attrib =>
                   match getattr_ attrib with
                   | Some (AList l) => [(attrib, JList (map obj2dict l))]
                   | Some (ADict d) =>
                       [(attrib,
                         JDict (map (fun kv =>
                                       match kv with
                                       | (key, val) => (key, obj2dict val)
                                       end) d))]
                   | Some (AOther shown) => [(attrib, JStr shown)]
                   | None => []
                   end)
                ATTRIBUTES)
  end.

(** The names of the objects below [intObj] that are not external, in
    pre-order: the name of [intObj], then, attribute by attribute in the
    order of [ATTRIBUTES], the objects of its lists and dictionaries. *)
Fixpoint exported_names (intObj : IntObj) : list json :=
  match intObj with
  | mkIntObj is_external name url obj proctype extends getattr_ =>
      if is_external then []
      else
        name ::
        flat_map
          (fun attrib =>
             match getattr_ attrib with
             | Some (AList l) => flat_map exported_names l
             | Some (ADict d) =>
                 flat_map (fun kv =>
                             match kv with
                             | (_, val) => exported_names val
                             end) d
             | _ => []
             end)
          ATTRIBUTES
  end.

(** A module [m] with two functions, the second from another project, and
    a dictionary with one type. *)
Definition leaf (external : bool) (name obj : string)
    (proctype : option string) (extends : option (IntObj + json)) : IntObj :=
  mkIntObj external (JStr (lit name))
           (JStr (lit "./" ++ lit name ++ lit ".html")) (JStr (lit obj))
           (option_map (fun p => JStr (lit p)) proctype) extends
           (fun _ => None).

Definition demo_module : IntObj :=
  mkIntObj false (JStr (lit "m")) (JStr (lit "./m.html")) (JStr (lit "module"))
           None None
           (fun attrib =>
              if str_eqb attrib (lit "functions") then
                Some (AList [leaf false "f" "proc" (Some "Function") None;
                             leaf true "g" "proc" (Some "Function") None])
              else if str_eqb attrib (lit "pub_types") then
                Some (ADict [(lit "t",
                              leaf false "t" "type" None (Some (inr JNull)))])
              else if str_eqb attrib (lit "permission") then
                Some (AOther (lit "public"))
              else None).

(** What [obj2dict] writes for the name [attrib] of [ATTRIBUTES]. *)
Definition exported_attr (getattr_ : str -> option (attr IntObj))
    (attrib : str) : list (str * json) :=
  match getattr_ attrib with
  | Some (AList l) => [(attrib, JList (map obj2dict l))]
  | Some (ADict d) =>
      [(attrib,
        JDict (map (fun kv => match kv with
                              | (key, val) => (key, obj2dict val)
                              end) d))]
  | Some (AOther shown) => [(attrib, JStr shown)]
  | None => []
  end.

End Interchange.

(** ** Conversions *)

Module Conversions.

(** The argument of [str_to_bool]: a [bool] or a [str]. *)
Inductive bool_or_str : Type :=
  | IsBool (b : bool)
  | IsStr (text : str).

(** [str.upper] on one character. *)
Definition upper_chr (c : ascii) : ascii :=
  if is_lower c then ascii_of_nat (code c - 32) else c.

(** [str.capitalize]: the first character in upper case, the others in
    lower case. *)
Definition capitalize (s : str) : str :=
  match s with
  | [] => []
  | c :: s' => upper_chr c :: lower s'
  end.

Definition not_a_bool (text : str) : exn :=
  ValueError (lit "Could not convert string to bool: expected 'true'/'false', got '"
              ++ text ++ lit "'").

Definition str_to_bool (text : bool_or_str) : result bool :=
  match text with
  | IsBool b => Ok b
  | IsStr s =>
      if str_eqb (capitalize s) (lit "True") then Ok true
      else if str_eqb (capitalize s) (lit "False") then Ok false
      else Raise (not_a_bool s)
  end.

End Conversions.

(** ** Trees of objects *)

Module Trees.

(** An object as [traverse] reads it: what tells it from the others, and
    [getattr] on a name, [None] where the object has no such attribute. *)
Inductive Node : Type := mkNode {
  nd_id : nat;
  nd_getattr : str -> option (list Node)
}.

(** [traverse(root, attrs)]: the chain of [getattr(root, attr, [])] over
    [attrs], each object followed by what [traverse] finds below it. *)
Fixpoint traverse (root : Node) (attrs : list str) : list Node :=
  match root with
  | mkNode _ getattr_ =>
      flat_map (fun attr =>
                  match getattr_ attr with
                  | Some objs =>
                      flat_map (fun obj => obj :: traverse obj attrs) objs
                  | None => []
                  end)
               attrs
  end.

(** [obj] is in an attribute of [root] that [attrs] names. *)
Definition child (attrs : list str) (root obj : Node) : Prop :=
  exists attr objs,
    In attr attrs /\ nd_getattr root attr = Some objs /\ In obj objs.

(** [obj] is below [root] along the attributes that [attrs] names. *)
Inductive below (attrs : list str) (root : Node) : Node -> Prop :=
  | below_child obj : child attrs root obj -> below attrs root obj
  | below_deeper mid obj :
      child attrs root mid -> below attrs mid obj -> below attrs root obj.

(** A tree: [1] holds [2] and [3] in [kids], [2] holds [4] in [kids] and [5]
    in [notes]. *)
Definition node (id : nat) (kids notes : list Node) : Node :=
  mkNode id (fun attr =>
               if str_eqb attr (lit "kids") then Some kids
               else if str_eqb attr (lit "notes") then
                 match notes with [] => None | _ => Some notes end
               else None).

Definition demo_tree : Node :=
  node 1 [node 2 [node 4 [] []] [node 5 [] []]; node 3 [] []] [].

End Trees.

(** * Properties *)

(** ** The scanner *)

Section ScannerProperties.

Import Scanner.

Example paren_split_example :
  paren_split (lit ",") (lit "f(a,b),g(c)") = Ok [lit "f(a,b)"; lit "g(c)"].
Proof. reflexivity. Qed.

Example quote_split_example :
  quote_split (lit ",") (lit "a,'b,c',d")
  = Ok [lit "a"; lit "'b,c'"; lit "d"].
Proof. vm_compute. reflexivity. Qed.

Example get_parens_example :
  get_parens (lit "(a(b))c") 0 0 = Ok (lit "(a(b))").
Proof. reflexivity. Qed.

Lemma join_snoc2 (sep : str) (r : list str) (x y : str) :
  join sep (r ++ [x; y]) = join sep (r ++ [x ++ sep ++ y]).
Proof.
  induction r as [|a r IH]; [reflexivity|].
  destruct r as [|b r]; [reflexivity|].
  change (a ++ sep ++ join sep ((b :: r) ++ [x; y])
          = a ++ sep ++ join sep ((b :: r) ++ [x ++ sep ++ y])).
  by rewrite IH.
Qed.

(** Cutting [string] at a separator found at [i] loses nothing. *)
Lemma join_cut (c : ascii) (string : str) (r : list str) (left i : nat) :
  (left <= i)%nat -> string !! i = Some c ->
  join [c] (r ++ [slice left i string; drop (i + 1) string])
  = join [c] (r ++ [drop left string]).
Proof.
  intros Hle Hi. rewrite join_snoc2. do 3 f_equal.
  unfold slice.
  assert (Hlen : (i < length string)%nat) by (eapply lookup_lt_Some; eauto).
  rewrite <- (take_drop i string) at 3.
  rewrite drop_app_le by (rewrite length_take; lia).
  f_equal. replace (i + 1)%nat with (S i) by lia.
  symmetry. by apply drop_S.
Qed.

Lemma paren_split_step_inv (c : ascii) (string : str) (st : ps_state)
    (i : nat) :
  (i < length string)%nat -> (ps_left st <= i)%nat ->
  joins_back c string (ps_left st) (ps_retlist st) ->
  let st' := paren_split_step c string st i in
  (ps_left st' <= i + 1)%nat /\
  joins_back c string (ps_left st') (ps_retlist st').
Proof.
  intros Hi Hle Hinv. unfold paren_split_step.
  destruct (string !! i) as [x|] eqn:Hx; simpl; [|split; [lia|done]].
  repeat (match goal with
          | |- context [if ?b then _ else _] => destruct b eqn:?
          end; simpl; try (split; [lia|done])).
  split; [lia|]. unfold joins_back in *.
  rewrite <- app_assoc. simpl. etrans; [|exact Hinv].
  apply join_cut; [done|].
  repeat match goal with
         | H : _ && _ = true |- _ => apply andb_true_iff in H as [? ?]
         end.
  unfold chr_eqb in *.
  match goal with H : Ascii.eqb x c = true |- _ =>
    apply Ascii.eqb_eq in H; by subst end.
Qed.

Lemma paren_split_fold_inv (c : ascii) (string : str) (n a : nat)
    (st : ps_state) :
  (a + n <= length string)%nat -> (ps_left st <= a)%nat ->
  joins_back c string (ps_left st) (ps_retlist st) ->
  let st' := fold_left (paren_split_step c string) (seq a n) st in
  (ps_left st' <= a + n)%nat /\
  joins_back c string (ps_left st') (ps_retlist st').
Proof.
  revert a st. induction n as [|n IH]; intros a st Hn Hle Hinv; simpl.
  - split; [lia|done].
  - destruct (paren_split_step_inv c string st a) as [H1 H2]; [lia|done|done|].
    destruct (IH (S a) (paren_split_step c string st a)) as [H3 H4];
      [lia|lia|done|].
    split; [lia|done].
Qed.

Lemma paren_split_join (c : ascii) (string : str) :
  exists l, paren_split [c] string = Ok l /\ l <> [] /\ join [c] l = string.
Proof.
  unfold paren_split. eexists. split; [reflexivity|]. split.
  - intros H. by apply app_eq_nil in H as [_ H].
  - destruct (paren_split_fold_inv c string (length string) 0
                (PS 0 0 0%nat [])) as [_ H]; [simpl; lia|simpl; lia|done|].
    exact H.
Qed.

Lemma quote_split_body_inv (c : ascii) (string : str) (st : qs_state) :
  quote_split_cond string st = true -> qs_inv c string st ->
  let st' := quote_split_body c string st in
  qs_inv c string st' /\ (qs_i st < qs_i st')%nat.
Proof.
  unfold quote_split_cond, qs_inv. intros Hc (Hle & Hlen & Hinv).
  apply Nat.ltb_lt in Hc. unfold quote_split_body.
  repeat (match goal with
          | |- context [if ?b then _ else _] => destruct b eqn:?
          end; simpl;
          try (split; [split; [lia|split; [lia|done]]|lia])).
  - repeat match goal with
           | H : _ && _ = true |- _ => apply andb_true_iff in H as [? ?]
           end.
    match goal with H : Nat.ltb _ _ = true |- _ => apply Nat.ltb_lt in H end.
    split; [split; [lia|split; [lia|done]]|lia].
  - repeat match goal with
           | H : _ && _ = true |- _ => apply andb_true_iff in H as [? ?]
           end.
    match goal with H : Nat.ltb _ _ = true |- _ => apply Nat.ltb_lt in H end.
    split; [split; [lia|split; [lia|done]]|lia].
  - split; [split; [lia|split; [lia|]]|lia].
    unfold joins_back in *. rewrite <- app_assoc. simpl.
    etrans; [|exact Hinv]. apply join_cut; [done|].
    repeat match goal with
           | H : _ && _ = true |- _ => apply andb_true_iff in H as [? ?]
           end.
    unfold char_at, chr_eqb in *.
    destruct (string !! qs_i st) as [x|]; [|done].
    match goal with H : Ascii.eqb x c = true |- _ =>
      apply Ascii.eqb_eq in H; by subst end.
Qed.

(** The loop of [quote_split] ends within [len(string)] turns. *)
Lemma quote_split_loop_total (c : ascii) (string : str) (fuel : nat)
    (st : qs_state) :
  (length string - qs_i st <= fuel)%nat -> qs_inv c string st ->
  exists st', while_loop fuel (quote_split_cond string)
                (quote_split_body c string) st = Some st'
              /\ qs_inv c string st'.
Proof.
  revert st. induction fuel as [|fuel IH]; intros st Hf Hinv; simpl.
  - destruct (quote_split_cond string st) eqn:Hc; [|by eexists].
    unfold quote_split_cond in Hc. apply Nat.ltb_lt in Hc. lia.
  - destruct (quote_split_cond string st) eqn:Hc; [|by eexists].
    destruct (quote_split_body_inv c string st Hc Hinv) as [Hinv' Hlt].
    apply IH; [|done].
    unfold quote_split_cond in Hc. apply Nat.ltb_lt in Hc. lia.
Qed.

Lemma quote_split_join (c : ascii) (string : str) :
  exists l, quote_split [c] string = Ok l /\ l <> [] /\ join [c] l = string.
Proof.
  unfold quote_split.
  destruct (quote_split_loop_total c string (length string)
              (QS false false 0%nat 0%nat [])) as (st' & -> & Hinv).
  - simpl. lia.
  - split; [simpl; lia|]. split; [simpl; lia|done].
  - eexists. split; [reflexivity|]. split.
    + intros H. by apply app_eq_nil in H as [_ H].
    + by destruct Hinv as (_ & _ & H).
Qed.

(** C8. For every one-character separator and every string, the segments
    that [paren_split] returns, joined with the separator, are the string
    again, and so are those of [quote_split]. This holds for every string,
    hence for those in which the separator occurs only at top level. *)
Theorem split_join_inverse (c : ascii) (string : str) :
  (exists l, paren_split [c] string = Ok l /\ join [c] l = string) /\
  (exists l, quote_split [c] string = Ok l /\ join [c] l = string).
Proof.
  split.
  - destruct (paren_split_join c string) as (l & H1 & _ & H2). eauto.
  - destruct (quote_split_join c string) as (l & H1 & _ & H2). eauto.
Qed.

(** C10. For every one-character separator and every string, balanced or
    not, with closed quotes or not, [paren_split] and [quote_split] return
    (no exception, no endless loop) a list of at least one segment. *)
Theorem split_total_nonempty (c : ascii) (string : str) :
  (exists l, paren_split [c] string = Ok l /\ (1 <= length l)%nat) /\
  (exists l, quote_split [c] string = Ok l /\ (1 <= length l)%nat).
Proof.
  split.
  - destruct (paren_split_join c string) as (l & H1 & H2 & _).
    exists l. split; [done|]. destruct l; [done|simpl; lia].
  - destruct (quote_split_join c string) as (l & H1 & H2 & _).
    exists l. split; [done|]. destruct l; [done|simpl; lia].
Qed.

Lemma count_chr_snoc (x c : ascii) (s : str) :
  count_chr x (s ++ [c]) = count_chr x s + (if chr_eqb c x then 1 else 0).
Proof.
  unfold count_chr. rewrite filter_app, length_app, Nat2Z.inj_add. f_equal.
  unfold chr_eqb. destruct (Ascii.eqb c x) eqn:E.
  - apply Ascii.eqb_eq in E. subst. rewrite filter_cons_True by done. done.
  - apply Ascii.eqb_neq in E. rewrite filter_cons_False by done. done.
Qed.

Lemma chr_eqb_eq (a b : ascii) : chr_eqb a b = true -> a = b.
Proof. apply Ascii.eqb_eq. Qed.

Lemma paren_depth_snoc (s : str) (c : ascii) :
  paren_depth (s ++ [c])
  = paren_depth s + (if chr_eqb c "(" then 1 else 0)
    - (if chr_eqb c ")" then 1 else 0).
Proof. unfold paren_depth. rewrite !count_chr_snoc. lia. Qed.

Lemma bracket_depth_snoc (s : str) (c : ascii) :
  bracket_depth (s ++ [c])
  = bracket_depth s + (if chr_eqb c "[" then 1 else 0)
    - (if chr_eqb c "]" then 1 else 0).
Proof. unfold bracket_depth. rewrite !count_chr_snoc. lia. Qed.

(** What the loop of [get_parens] returns when it is entered with
    [parenstr] read and [rest] to read. *)
Lemma get_parens_loop_spec (line : str) (retlevel retblevel : Z) (rest : str) :
  forall parenstr : str,
  match get_parens_loop line rest parenstr (paren_depth parenstr)
          (bracket_depth parenstr) retlevel retblevel with
  | Ok r =>
      exists a b, rest = a ++ b /\ r = parenstr ++ a /\
        paren_depth r = retlevel /\ bracket_depth r = retblevel /\
        (b = [] \/ exists c b', b = c :: b' /\ is_stop c = true) /\
        (forall a1 c a2, a = a1 ++ c :: a2 ->
           ~ stops_at retlevel retblevel (parenstr ++ a1) c)
  | Raise e =>
      e = parse_error line /\
      (forall a1 c a2, rest = a1 ++ c :: a2 ->
         ~ stops_at retlevel retblevel (parenstr ++ a1) c) /\
      ~ (paren_depth (parenstr ++ rest) = retlevel /\
         bracket_depth (parenstr ++ rest) = retblevel)
  | OutOfFuel => False
  end.
Proof.
  induction rest as [|char rest IH]; intros parenstr.
  - simpl.
    destruct ((paren_depth parenstr =? retlevel)
              && (bracket_depth parenstr =? retblevel)) eqn:E.
    + apply andb_true_iff in E as [E1 E2].
      apply Z.eqb_eq in E1, E2.
      exists [], [].
      split_and!; rewrite ?app_nil_r; try done; [by left|].
      intros a1 c a2 H. by destruct a1.
    + split; [done|]. split.
      * intros a1 c a2 H. by destruct a1.
      * rewrite app_nil_r. intros [H1 H2].
        apply andb_false_iff in E as [E|E]; apply Z.eqb_neq in E; done.
  - assert (Hstep : forall lv bl,
      lv = paren_depth (parenstr ++ [char]) ->
      bl = bracket_depth (parenstr ++ [char]) ->
      ~ stops_at retlevel retblevel parenstr char ->
      match get_parens_loop line rest (parenstr ++ [char]) lv bl
              retlevel retblevel with
      | Ok r =>
          exists a b, char :: rest = a ++ b /\ r = parenstr ++ a /\
            paren_depth r = retlevel /\ bracket_depth r = retblevel /\
            (b = [] \/ exists c b', b = c :: b' /\ is_stop c = true) /\
            (forall a1 c a2, a = a1 ++ c :: a2 ->
               ~ stops_at retlevel retblevel (parenstr ++ a1) c)
      | Raise e =>
          e = parse_error line /\
          (forall a1 c a2, char :: rest = a1 ++ c :: a2 ->
             ~ stops_at retlevel retblevel (parenstr ++ a1) c) /\
          ~ (paren_depth (parenstr ++ char :: rest) = retlevel /\
             bracket_depth (parenstr ++ char :: rest) = retblevel)
      | OutOfFuel => False
      end).
    { intros lv bl -> -> Hno. specialize (IH (parenstr ++ [char])).
      destruct (get_parens_loop line rest (parenstr ++ [char]) _ _ _ _)
        as [r|e|]; [| |done].
      - destruct IH as (a & b & -> & -> & H1 & H2 & H3 & H4).
        exists (char :: a), b. rewrite <- !app_assoc in *. simpl in *.
        split_and!; try done.
        intros a1 c a2 Ha. destruct a1 as [|x a1]; simpl in Ha.
        + injection Ha as <- _. by rewrite app_nil_r.
        + injection Ha as <- ->.
          specialize (H4 a1 c a2 eq_refl).
          by rewrite <- app_assoc in H4.
      - destruct IH as (-> & H1 & H2). split; [done|]. split.
        + intros a1 c a2 Ha. destruct a1 as [|x a1]; simpl in Ha.
          * injection Ha as <- _. by rewrite app_nil_r.
          * injection Ha as <- ->.
            specialize (H1 a1 c a2 eq_refl).
            by rewrite <- app_assoc in H1.
        + by rewrite <- app_assoc in H2. }
    simpl.
    destruct (chr_eqb char "(") eqn:E1.
    { apply chr_eqb_eq in E1. subst char. apply Hstep.
      - rewrite paren_depth_snoc. simpl. lia.
      - rewrite bracket_depth_snoc. simpl. lia.
      - by intros [H _]. }
    destruct (chr_eqb char ")") eqn:E2.
    { apply chr_eqb_eq in E2. subst char. apply Hstep.
      - rewrite paren_depth_snoc. simpl. lia.
      - rewrite bracket_depth_snoc. simpl. lia.
      - by intros [H _]. }
    destruct (chr_eqb char "[") eqn:E3.
    { apply chr_eqb_eq in E3. subst char. apply Hstep.
      - rewrite paren_depth_snoc. simpl. lia.
      - rewrite bracket_depth_snoc. simpl. lia.
      - by intros [H _]. }
    destruct (chr_eqb char "]") eqn:E4.
    { apply chr_eqb_eq in E4. subst char. apply Hstep.
      - rewrite paren_depth_snoc. simpl. lia.
      - rewrite bracket_depth_snoc. simpl. lia.
      - by intros [H _]. }
    destruct (is_stop char && (paren_depth parenstr =? retlevel)
              && (bracket_depth parenstr =? retblevel)) eqn:E5.
    + apply andb_true_iff in E5 as [E5 E7].
      apply andb_true_iff in E5 as [E5 E6].
      apply Z.eqb_eq in E6, E7.
      exists [], (char :: rest).
      split_and!; rewrite ?app_nil_r; try done; [right; eauto|].
      intros a1 c a2 H. by destruct a1.
    + apply Hstep.
      * rewrite paren_depth_snoc, E1, E2. lia.
      * rewrite bracket_depth_snoc, E3, E4. lia.
      * intros (H1 & H2 & H3). rewrite H1 in E5.
        apply Z.eqb_eq in H2, H3. by rewrite H2, H3 in E5.
Qed.

(** C9, as the code has it: for every non-empty [line], when the scan reads
    all of [line] and the depths of [line] are not the requested ones,
    [get_parens] raises its parse error; and when it returns [r], the depths
    of [r] are the requested ones and [r] is the text before the first
    character at which the scan may stop ([r] is all of [line] when there is
    none): nothing from that character on is taken. *)
Theorem get_parens_nonempty (line : str) (retlevel retblevel : Z) :
  line <> [] ->
  (reads_all retlevel retblevel line ->
   ~ (paren_depth line = retlevel /\ bracket_depth line = retblevel) ->
   get_parens line retlevel retblevel = Raise (parse_error line)) /\
  (forall r, get_parens line retlevel retblevel = Ok r ->
     paren_depth r = retlevel /\ bracket_depth r = retblevel /\
     reads_all retlevel retblevel r /\
     exists rest, line = r ++ rest /\
       (rest = [] \/ exists c rest', rest = c :: rest' /\ is_stop c = true)).
Proof.
  intros Hne.
  assert (Hg : get_parens line retlevel retblevel
               = get_parens_loop line line [] (paren_depth [])
                   (bracket_depth []) retlevel retblevel)
    by (by destruct line).
  pose proof (get_parens_loop_spec line retlevel retblevel line []) as H.
  rewrite Hg. clear Hg.
  destruct (get_parens_loop line line [] _ _ _ _) as [r|e|]; [| |done].
  - destruct H as (a & b & Hl & Hr & H1 & H2 & H3 & H4). simpl in Hr.
    subst r. split.
    + intros Hall Hdepth. exfalso.
      destruct H3 as [->|(c & b' & -> & Hc)].
      * rewrite app_nil_r in Hl. subst a. by apply Hdepth.
      * by apply (Hall a c b' Hl).
    + intros r [= <-]. split_and!; try done. by exists b.
  - destruct H as (-> & H1 & H2). split; [done|]. intros r Hr. done.
Qed.

Lemma get_parens_nonempty_witness :
  get_parens (lit "(a") 0 0 = Raise (parse_error (lit "(a")) /\
  (paren_depth (lit "(x)") = 0 /\ bracket_depth (lit "(x)") = 0 /\
   reads_all 0 0 (lit "(x)") /\
   exists rest, lit "(x),y" = lit "(x)" ++ rest /\
     (rest = [] \/ exists c rest', rest = c :: rest' /\ is_stop c = true)).
Proof.
  split.
  - apply (get_parens_nonempty (lit "(a") 0 0).
    + by vm_compute.
    + intros a c b H (Hs & Hp & Hb). vm_compute in H.
      destruct a as [|x1 [|x2 [|x3 a]]]; simplify_eq; by vm_compute in *.
    + intros [H _]. by vm_compute in H.
  - apply (get_parens_nonempty (lit "(x),y") 0 0).
    + by vm_compute.
    + reflexivity.
Defined.

(** C9, as the claim has it, fails on the empty string: with a requested
    level of 1, the input is at its end with the counter at 0, and
    [get_parens] returns the empty string, whose depth is 0. *)
Lemma get_parens_empty_returns :
  get_parens [] 1 0 = Ok [] /\ reads_all 1 0 [] /\ paren_depth [] <> 1.
Proof.
  split; [reflexivity|]. split; [|done].
  intros a c b H. by destruct a.
Qed.

End ScannerProperties.

(** ** The macro registry *)

Section MacroProperties.

Import Macros.

Lemma split_first_app (c : ascii) (a b : str) :
  c ∉ a -> split_first c (a ++ c :: b) = Some (a, b).
Proof.
  induction a as [|x a IH]; intros Hc; simpl.
  - unfold chr_eqb. by rewrite Ascii.eqb_refl.
  - apply not_elem_of_cons in Hc as [Hx Ha].
    unfold chr_eqb. destruct (Ascii.eqb x c) eqn:E.
    + apply Ascii.eqb_eq in E. by subst.
    + by rewrite IH.
Qed.

Lemma split_first_None (c : ascii) (s : str) :
  c ∉ s -> split_first c s = None.
Proof.
  induction s as [|x s IH]; intros Hc; simpl; [done|].
  apply not_elem_of_cons in Hc as [Hx Hs].
  unfold chr_eqb. destruct (Ascii.eqb x c) eqn:E.
  - apply Ascii.eqb_eq in E. by subst.
  - by rewrite IH.
Qed.

Lemma split_first_Some (c : ascii) (s a b : str) :
  split_first c s = Some (a, b) -> s = a ++ c :: b /\ c ∉ a.
Proof.
  revert a. induction s as [|x s IH]; intros a; simpl; [done|].
  unfold chr_eqb. destruct (Ascii.eqb x c) eqn:E.
  - apply Ascii.eqb_eq in E. subst. intros [= <- <-]. split; [done|].
    apply not_elem_of_nil.
  - destruct (split_first c s) as [[a' b']|]; [|done].
    intros [= <- <-]. destruct (IH a' eq_refl) as [-> Hn].
    split; [done|]. apply not_elem_of_cons. split; [|done].
    apply Ascii.eqb_neq in E. congruence.
Qed.

Lemma str_eqb_true (a b : str) : str_eqb a b = true <-> a = b.
Proof. unfold str_eqb. apply bool_decide_eq_true. Qed.

Lemma str_eqb_false (a b : str) : str_eqb a b = false <-> a <> b.
Proof. unfold str_eqb. apply bool_decide_eq_false. Qed.

Lemma str_eqb_refl (a : str) : str_eqb a a = true.
Proof. by apply str_eqb_true. Qed.

(** C7. For a definition [k = v] ([k] without an equals sign),
    [register_macro] takes the key [|k|] and the value [v], both stripped of
    the white space around them. A key that is not registered is registered
    and the pair (value, key) returned; a key registered with the same value
    gives the same pair and leaves the dictionary as it is; a key registered
    with another value raises an error whose message holds the new and the
    registered value, and the dictionary is not changed. A string with no
    equals sign raises at once. *)
Theorem register_macro_spec (k v s : str) (d : gmap str str) :
  let key := lit "|" ++ strip k ++ lit "|" in
  let val := strip v in
  ("="%char ∉ k ->
   (d !! key = None ->
    register_macro (k ++ lit "=" ++ v) d = (<[key := val]> d, Ok (val, key)))
   /\
   (d !! key = Some val ->
    register_macro (k ++ lit "=" ++ v) d = (d, Ok (val, key)))
   /\
   (forall old, d !! key = Some old -> old <> val ->
    register_macro (k ++ lit "=" ++ v) d
    = (d, Raise (RuntimeError (conflict_msg key val old)))
    /\ exists pre mid post,
         conflict_msg key val old = pre ++ val ++ mid ++ old ++ post))
  /\
  ("="%char ∉ s ->
   register_macro s d = (d, Raise (RuntimeError (no_alias_msg s)))).
Proof.
  intros key val. split.
  - intros Hk.
    assert (Hreg : register_macro (k ++ lit "=" ++ v) d
                   = match d !! key with
                     | Some old =>
                         if negb (str_eqb val old)
                         then (d, Raise (RuntimeError (conflict_msg key val old)))
                         else (<[key := val]> d, Ok (val, key))
                     | None => (<[key := val]> d, Ok (val, key))
                     end).
    { unfold register_macro.
      change (k ++ lit "=" ++ v) with (k ++ "="%char :: v).
      by rewrite (split_first_app _ _ _ Hk). }
    rewrite Hreg. clear Hreg. split_and!.
    + by intros ->.
    + intros Hd. rewrite Hd, str_eqb_refl. simpl.
      by rewrite insert_id.
    + intros old Hd Hne. rewrite Hd.
      assert (str_eqb val old = false) as -> by (apply str_eqb_false; congruence).
      simpl. split; [reflexivity|]. eexists _, _, _.
      unfold conflict_msg.
      instantiate (1 := [DQ]).
      instantiate (1 := [DQ] ++ lit "because it is already defined as " ++ [DQ]).
      instantiate (1 := lit "Could not register macro " ++ [DQ] ++ key
                        ++ [DQ] ++ lit " as " ++ [DQ]).
      by rewrite <- !app_assoc.
  - intros Hs. unfold register_macro. by rewrite (split_first_None _ _ Hs).
Qed.

Lemma register_macro_spec_witness :
  let d0 : gmap str str := {[ lit "|lib|" := lit "/opt/lib" ]} in
  register_macro (lit "docroot = https://example.com/docs") d0
  = (<[lit "|docroot|" := lit "https://example.com/docs"]> d0,
     Ok (lit "https://example.com/docs", lit "|docroot|"))
  /\ register_macro (lit "lib=/opt/lib ") d0
     = (d0, Ok (lit "/opt/lib", lit "|lib|"))
  /\ (register_macro (lit "lib = /usr/lib") d0
      = (d0, Raise (RuntimeError (conflict_msg (lit "|lib|") (lit "/usr/lib")
                                               (lit "/opt/lib"))))
      /\ exists pre mid post,
           conflict_msg (lit "|lib|") (lit "/usr/lib") (lit "/opt/lib")
           = pre ++ lit "/usr/lib" ++ mid ++ lit "/opt/lib" ++ post)
  /\ register_macro (lit "docroot") d0
     = (d0, Raise (RuntimeError (no_alias_msg (lit "docroot")))).
Proof.
  intros d0. split; [|split; [|split]].
  - apply (register_macro_spec (lit "docroot ") (lit " https://example.com/docs")
             [] d0).
    + apply (bool_decide_unpack _). by vm_compute.
    + by vm_compute.
  - apply (register_macro_spec (lit "lib") (lit "/opt/lib ") [] d0).
    + apply (bool_decide_unpack _). by vm_compute.
    + by vm_compute.
  - apply (register_macro_spec (lit "lib ") (lit " /usr/lib") [] d0).
    + apply (bool_decide_unpack _). by vm_compute.
    + by vm_compute.
    + by vm_compute.
  - apply (register_macro_spec [] [] (lit "docroot") d0).
    apply (bool_decide_unpack _). by vm_compute.
Defined.

End MacroProperties.

(** ** The link resolver *)

Section LinkProperties.

Import Links.

(** *** The pattern *)

Lemma span_word_app (w r : str) :
  forallb is_word w = true -> word_ends r -> span_word (w ++ r) = (w, r).
Proof.
  intros Hw Hr. induction w as [|c w IH]; simpl in *.
  - destruct r as [|c r]; [done|]. simpl in *. by rewrite Hr.
  - apply andb_true_iff in Hw as [Hc Hw]. by rewrite Hc, IH.
Qed.

Lemma word_plus_app (w r : str) :
  is_ident w = true -> word_ends r -> word_plus (w ++ r) = Some (w, r).
Proof.
  unfold is_ident, word_plus. intros Hw Hr.
  apply andb_true_iff in Hw as [Hne Hw].
  rewrite span_word_app by done.
  destruct w; [done|done].
Qed.

Lemma span_word_split (s w r : str) : span_word s = (w, r) -> s = w ++ r.
Proof.
  revert w r. induction s as [|c s IH]; intros w r; simpl.
  - by intros [= <- <-].
  - destruct (is_word c); [|by intros [= <- <-]].
    destruct (span_word s) as [w' r']. intros [= <- <-].
    by rewrite (IH w' r' eq_refl).
Qed.

Lemma word_plus_split (s w r : str) :
  word_plus s = Some (w, r) -> s = w ++ r /\ w <> [].
Proof.
  unfold word_plus. destruct (span_word s) as [w' r'] eqn:E.
  apply span_word_split in E. destruct w'; [done|].
  intros [= <- <-]. done.
Qed.

Lemma opt_classifier_markup (g : option str) (r : str) :
  (forall cl, g = Some cl -> is_ident cl = true) ->
  match r with c :: _ => c <> "("%char | [] => True end ->
  opt_classifier (classifier_markup g ++ r) = Some (g, r).
Proof.
  intros Hg Hr. destruct g as [cl|]; simpl.
  - rewrite <- app_assoc. simpl.
    rewrite word_plus_app; [done|by apply Hg|done].
  - destruct r as [|c r]; [done|]. simpl. unfold chr_eqb.
    destruct (Ascii.eqb c "(") eqn:E; [|done].
    by apply Ascii.eqb_eq in E.
Qed.

Lemma opt_classifier_split (s : str) (g : option str) (r : str) :
  opt_classifier s = Some (g, r) -> s = classifier_markup g ++ r.
Proof.
  unfold opt_classifier. destruct s as [|c s]; [by intros [= <- <-]|].
  destruct (chr_eqb c "(") eqn:E; [|by intros [= <- <-]].
  apply chr_eqb_eq in E. subst c.
  destruct (word_plus s) as [[w [|c' s2]]|] eqn:Ew; try done.
  destruct (chr_eqb c' ")") eqn:E'; [|done].
  apply chr_eqb_eq in E'. subst c'. intros [= <- <-].
  apply word_plus_split in Ew as [-> _]. simpl.
  by rewrite <- app_assoc.
Qed.

Lemma primary_name_app (name r : str) :
  is_name name = true ->
  match r with
  | c :: _ => is_word c = false /\ c <> "."%char
  | [] => True
  end ->
  primary_name (name ++ r) = Some (name, r).
Proof.
  unfold is_name, primary_name. intros Hn Hr.
  assert (Hr' : word_ends r) by (destruct r; [done|apply Hr]).
  destruct (Macros.split_first "." name) as [[a b]|] eqn:E.
  - apply split_first_Some in E as [-> _].
    apply andb_true_iff in Hn as [Ha Hb].
    rewrite <- app_assoc. simpl.
    rewrite (word_plus_app a) by done. simpl.
    by rewrite word_plus_app.
  - rewrite word_plus_app by done.
    destruct r as [|c r]; [done|]. destruct Hr as [_ Hr].
    unfold chr_eqb. destruct (Ascii.eqb c ".") eqn:E'; [|done].
    by apply Ascii.eqb_eq in E'.
Qed.

Lemma primary_name_split (s n r : str) :
  primary_name s = Some (n, r) -> s = n ++ r.
Proof.
  unfold primary_name.
  destruct (word_plus s) as [[n1 [|c s2]]|] eqn:E; [| |done].
  - intros [= <- <-]. by apply word_plus_split in E as [-> _].
  - apply word_plus_split in E as [-> _].
    destruct (chr_eqb c ".") eqn:Ec; [|by intros [= <- <-]].
    destruct (word_plus s2) as [[n2 s3]|] eqn:E2; [|by intros [= <- <-]].
    apply word_plus_split in E2 as [-> _]. intros [= <- <-].
    by rewrite <- app_assoc.
Qed.

Lemma opt_sub_markup (g3 g4 : option str) (r : str) :
  (forall sub, g3 = Some sub -> is_ident sub = true) ->
  (forall cl, g4 = Some cl -> is_ident cl = true) ->
  (g3 = None -> g4 = None) ->
  match r with
  | c :: _ => is_word c = false /\ c <> "("%char /\ c <> ":"%char
  | [] => True
  end ->
  opt_sub (sub_markup g3 g4 ++ r) = Some (g3, g4, r).
Proof.
  intros H3 H4 H34 Hr. destruct g3 as [sub|]; simpl.
  - rewrite <- app_assoc.
    rewrite word_plus_app; [|by apply H3|].
    + rewrite opt_classifier_markup; [done|done|].
      destruct r; [done|]. apply Hr.
    + destruct g4 as [cl|]; simpl; [done|].
      destruct r; [done|]. apply Hr.
  - rewrite (H34 eq_refl). destruct r as [|c r]; [done|]. simpl.
    destruct Hr as (_ & _ & Hr). unfold chr_eqb.
    destruct (Ascii.eqb c ":") eqn:E; [|done].
    by apply Ascii.eqb_eq in E.
Qed.

Lemma opt_sub_split (s : str) (g3 g4 : option str) (r : str) :
  opt_sub s = Some (g3, g4, r) ->
  s = sub_markup g3 g4 ++ r /\ (g3 = None -> g4 = None).
Proof.
  unfold opt_sub. destruct s as [|c s]; [by intros [= <- <- <-]|].
  destruct (chr_eqb c ":") eqn:E; [|by intros [= <- <- <-]].
  apply chr_eqb_eq in E. subst c.
  destruct (word_plus s) as [[w s2]|] eqn:Ew; [|done].
  destruct (opt_classifier s2) as [[cl s3]|] eqn:Ec; [|done].
  intros [= <- <- <-]. split; [|done].
  apply word_plus_split in Ew as [-> _].
  apply opt_classifier_split in Ec as ->. simpl.
  by rewrite <- !app_assoc.
Qed.

Lemma markup_eq (g1 : str) (g2 g3 g4 : option str) :
  markup g1 g2 g3 g4
  = lit "[[" ++ g1 ++ classifier_markup g2 ++ sub_markup g3 g4 ++ lit "]]".
Proof. reflexivity. Qed.

Lemma take_app_suffix (a b : str) :
  take (length (a ++ b) - length b) (a ++ b) = a.
Proof.
  rewrite length_app. replace (length a + length b - length b)%nat
    with (length a) by lia.
  by rewrite take_app_length.
Qed.

(** The pattern matches the markup of well-formed fields and captures
    them. *)
Lemma match_link_markup (g1 : str) (g2 g3 g4 : option str) (rest : str) :
  well_formed g1 g2 g3 g4 ->
  match_link (markup g1 g2 g3 g4 ++ rest)
  = Some (mkMatch (markup g1 g2 g3 g4) g1 g2 g3 g4, rest).
Proof.
  intros (H1 & H2 & H3 & H4 & H34).
  unfold match_link. rewrite markup_eq.
  set (s := (lit "[[" ++ g1 ++ classifier_markup g2 ++ sub_markup g3 g4
             ++ lit "]]") ++ rest).
  assert (Hs : s = "["%char :: "["%char ::
                 (g1 ++ classifier_markup g2 ++ sub_markup g3 g4
                  ++ "]"%char :: "]"%char :: rest)).
  { unfold s. simpl. by rewrite <- !app_assoc. }
  rewrite Hs. simpl chr_eqb. cbv iota. simpl andb. cbv iota.
  rewrite primary_name_app; [|done|].
  2:{ destruct g2 as [cl|]; [done|]. destruct g3 as [sub|]; done. }
  rewrite opt_classifier_markup; [|done|].
  2:{ destruct g3 as [sub|]; done. }
  rewrite opt_sub_markup; [|done|done|done|done].
  change (chr_eqb "]" "]" && chr_eqb "]" "]") with true. cbv iota.
  rewrite <- Hs. unfold s. by rewrite take_app_suffix.
Qed.

(** A match is the markup of its groups, and the groups are as the pattern
    has them. *)
Lemma match_link_split (s : str) (m : LinkMatch) (rest : str) :
  match_link s = Some (m, rest) ->
  s = group0 m ++ rest /\
  group0 m = markup (group1 m) (group2 m) (group3 m) (group4 m) /\
  (group3 m = None -> group4 m = None).
Proof.
  unfold match_link. destruct s as [|c1 [|c2 s1]]; [done|done|].
  destruct (chr_eqb c1 "[" && chr_eqb c2 "[") eqn:E; [|done].
  apply andb_true_iff in E as [E1 E2].
  apply chr_eqb_eq in E1, E2. subst c1 c2.
  destruct (primary_name s1) as [[g1 s2]|] eqn:Ep; [|done].
  destruct (opt_classifier s2) as [[g2 s3]|] eqn:Ec; [|done].
  destruct (opt_sub s3) as [[[g3 g4] [|c3 [|c4 r]]]|] eqn:Es; try done.
  destruct (chr_eqb c3 "]" && chr_eqb c4 "]") eqn:E'; [|done].
  apply andb_true_iff in E' as [E3 E4].
  apply chr_eqb_eq in E3, E4. subst c3 c4.
  intros [= <- <-]. cbn [group0 group1 group2 group3 group4].
  apply primary_name_split in Ep as ->.
  apply opt_classifier_split in Ec as ->.
  apply opt_sub_split in Es as [-> H34].
  assert (Hs : "["%char :: "["%char ::
               g1 ++ classifier_markup g2 ++ sub_markup g3 g4
               ++ "]"%char :: "]"%char :: r
               = markup g1 g2 g3 g4 ++ r).
  { rewrite markup_eq. simpl. by rewrite <- !app_assoc. }
  match goal with
  | |- context [take ?n ?l] => change n with (length l - length r)%nat
  end.
  rewrite Hs, take_app_suffix. done.
Qed.

(** *** The substitution *)

Lemma sub_from_skip (project : Project) (a rest : str) :
  sub_from project (a ++ rest) (length a) = sub_from project rest 0.
Proof. induction a as [|c a IH]; [done|]. simpl. exact IH. Qed.

Lemma sub_from_cons (project : Project) (c : ascii) (s' : str) :
  sub_from project (c :: s') 0
  = match match_link (c :: s') with
    | Some (m, _) =>
        and_then (convert_link project m)
                 (sub_from project s' (length (group0 m) - 1))
    | None => and_then (Ok ([c], [])) (sub_from project s' 0)
    end.
Proof.
  change (sub_from project (c :: s') 0) with
    (match match_link (c :: s') with
     | Some (m, _) =>
         match convert_link project m with
         | Ok (text, lines) =>
             match sub_from project s' (length (group0 m) - 1) with
             | Ok (text', lines') => Ok (text ++ text', lines ++ lines')
             | Raise e => Raise e
             | OutOfFuel => OutOfFuel
             end
         | Raise e => Raise e
         | OutOfFuel => OutOfFuel
         end
     | None =>
         match sub_from project s' 0 with
         | Ok (text', lines') => Ok (c :: text', lines')
         | Raise e => Raise e
         | OutOfFuel => OutOfFuel
         end
     end).
  destruct (match_link (c :: s')) as [[m r]|]; unfold and_then.
  - destruct (convert_link project m) as [[text lines]|e|]; [|done|done].
    destruct (sub_from project s' _) as [[text' lines']|e'|]; done.
  - destruct (sub_from project s' 0) as [[text' lines']|e'|]; done.
Qed.

(** At a match, [sub_links] puts what [convert_link] returns and goes on
    after the match. *)
Lemma sub_links_match (project : Project) (s : str) (m : LinkMatch)
    (rest : str) :
  match_link s = Some (m, rest) ->
  sub_links s project
  = and_then (convert_link project m) (sub_links rest project).
Proof.
  intros Hm. destruct (match_link_split s m rest Hm) as (Hs & Hg & _).
  unfold sub_links. destruct s as [|c s'].
  { rewrite markup_eq in Hg. rewrite Hg in Hs. done. }
  rewrite sub_from_cons, Hm.
  destruct (group0 m) as [|c0 g0] eqn:Eg.
  { by rewrite markup_eq in Hg. }
  simpl in Hs. injection Hs as -> ->.
  simpl length. replace (S (length g0) - 1)%nat with (length g0) by lia.
  by rewrite sub_from_skip.
Qed.

Lemma extend_all_cons (project : Project) (k a : str) (l : list Entity)
    (table : list (str * str)) (acc : list Entity) :
  getattr_project project a = Ok l ->
  extend_all project ((k, a) :: table) acc
  = extend_all project table (acc ++ l).
Proof. intros H. cbn [extend_all]. by rewrite H. Qed.

(** Where nothing matches, [sub_links] keeps the character and goes on. *)
Lemma sub_links_no_match (project : Project) (c : ascii) (s' : str) :
  match_link (c :: s') = None ->
  sub_links (c :: s') project
  = and_then (Ok ([c], [])) (sub_links s' project).
Proof. intros Hm. unfold sub_links. by rewrite sub_from_cons, Hm. Qed.

Lemma all_collections_eq (project : Project) :
  extend_all project LINK_TYPES [] = Ok (all_collections project).
Proof.
  unfold LINK_TYPES.
  do 19 (erewrite extend_all_cons by reflexivity).
  cbn [extend_all]. unfold all_collections. f_equal.
  by rewrite <- !app_assoc.
Qed.

(** Every value of [LINK_TYPES] names a list of the project. *)
Lemma link_types_lists (project : Project) (k val : str) :
  assoc k LINK_TYPES = Some val ->
  exists l, getattr_project project val = Ok l.
Proof.
  unfold LINK_TYPES, assoc.
  repeat (destruct (str_eqb k _);
          [intros [= <-]; eexists; reflexivity|]).
  done.
Qed.

Lemma primary_searchlist_space (project : Project) (m : LinkMatch)
    (searchlist : list Entity) :
  search_space project (group2 m) searchlist ->
  primary_searchlist project m = Ok (Some searchlist).
Proof.
  unfold search_space, primary_searchlist.
  destruct (group2 m) as [cl|].
  - intros (val & -> & ->). done.
  - intros ->. by rewrite all_collections_eq.
Qed.

Lemma primary_searchlist_total (project : Project) (m : LinkMatch) :
  exists o, primary_searchlist project m = Ok o.
Proof.
  unfold primary_searchlist. destruct (group2 m) as [cl|].
  - destruct (assoc (lower cl) LINK_TYPES) as [val|] eqn:E; [|by eexists].
    destruct (link_types_lists project _ _ E) as [l ->]. by eexists.
  - rewrite all_collections_eq. by eexists.
Qed.

(** [convert_link] returns for every match. *)
Lemma convert_link_total (project : Project) (m : LinkMatch) :
  exists text lines, convert_link project m = Ok (text, lines).
Proof.
  unfold convert_link.
  destruct (primary_searchlist_total project m) as [[searchlist|] ->];
    [|by eexists _, _].
  destruct (find_named (group1 m) searchlist) as [item|]; [|by eexists _, _].
  destruct (group3 m) as [sub|]; [|by eexists _, _].
  destruct (sub_searchlist item m) as [sublist| |]; try by eexists _, _.
  destruct (find_named sub sublist); by eexists _, _.
Qed.

Lemma sub_from_total (project : Project) (s : str) :
  forall skip, exists text lines, sub_from project s skip = Ok (text, lines).
Proof.
  induction s as [|c s IH]; intros skip; [by eexists _, _|].
  destruct skip as [|k]; [|apply IH].
  rewrite sub_from_cons.
  destruct (match_link (c :: s)) as [[m r]|].
  - destruct (convert_link_total project m) as (text & lines & ->).
    destruct (IH (length (group0 m) - 1)%nat) as (t & l & ->).
    by eexists _, _.
  - destruct (IH 0%nat) as (t & l & ->). by eexists _, _.
Qed.

Lemma find_named_Some (wanted : str) (l : list Entity) (e : Entity) :
  find_named wanted l = Some e ->
  In e l /\ lower (e_name e) = lower wanted.
Proof.
  unfold find_named. intros H. apply find_some in H as [H1 H2].
  split; [done|]. symmetry. by apply str_eqb_true.
Qed.

Lemma find_named_exists (wanted : str) (l : list Entity) :
  (exists e, In e l /\ lower (e_name e) = lower wanted) ->
  exists e, find_named wanted l = Some e.
Proof.
  intros (e & Hin & Hn). unfold find_named.
  destruct (find _ l) as [e'|] eqn:E; [by eexists|].
  pose proof (find_none _ _ E e Hin) as H. simpl in H.
  apply str_eqb_false in H. congruence.
Qed.

Lemma children_of_eq (item : Entity) :
  children_of item
  = getattr_list item (lit "variables") ++ getattr_list item (lit "types")
    ++ constructor_of item ++ getattr_list item (lit "interfaces")
    ++ getattr_list item (lit "absinterfaces")
    ++ getattr_list item (lit "subroutines")
    ++ getattr_list item (lit "functions")
    ++ getattr_list item (lit "finalprocs")
    ++ getattr_list item (lit "boundprocs")
    ++ getattr_list item (lit "modprocs") ++ getattr_list item (lit "common").
Proof.
  unfold children_of, SUBLINK_TYPES. cbn [sub_extend_all].
  change (is_constructor (lit "constructor")) with true.
  repeat match goal with
         | |- context [is_constructor ?a] =>
             change (is_constructor a) with false
         end.
  cbv iota. by rewrite <- !app_assoc.
Qed.

Lemma convert_link_at (project : Project) (s : str) (m : LinkMatch)
    (rest text : str) (lines : list str) :
  match_link s = Some (m, rest) ->
  convert_link project m = Ok (text, lines) ->
  exists t lines', sub_links rest project = Ok (t, lines') /\
    sub_links s project = Ok (text ++ t, lines ++ lines').
Proof.
  intros Hm Hc. rewrite (sub_links_match project s m rest Hm), Hc.
  destruct (sub_from_total project rest 0) as (t & l & Ht).
  exists t, l. unfold sub_links. by rewrite Ht.
Qed.

(** C1. For a link [[name(cl):sub]] whose classifier [cl] is in the table,
    whose name is found in the collection of [cl] ([item] is the first entity
    of that name) and for which an entity named [sub], in any case of the
    letters, is among the child collections of [item]: [sub_links] puts in
    place of the markup the anchor tag whose [href] is the URL of [item],
    [#], and the anchor of such a child [obj], and whose label is the name of
    [obj]; nothing is printed for the link. *)
Theorem sub_links_sublink (project : Project) (name cl sub rest val : str)
    (searchlist : list Entity) (item : Entity) :
  is_name name = true -> is_ident cl = true -> is_ident sub = true ->
  assoc (lower cl) LINK_TYPES = Some val ->
  getattr_project project val = Ok searchlist ->
  find_named name searchlist = Some item ->
  (exists o, In o (children_of item) /\ lower (e_name o) = lower sub) ->
  exists obj t lines,
    In obj (children_of item) /\ lower (e_name obj) = lower sub /\
    sub_links rest project = Ok (t, lines) /\
    sub_links (markup name (Some cl) (Some sub) None ++ rest) project
    = Ok (a_href (e_url item ++ lit "#" ++ e_anchor obj) (e_name obj) ++ t,
          lines).
Proof.
  intros Hname Hcl Hsub Hval Hlist Hitem Hchild.
  destruct (find_named_exists sub (children_of item) Hchild) as [obj Hobj].
  destruct (find_named_Some _ _ _ Hobj) as [Hin Hlow].
  set (m := mkMatch (markup name (Some cl) (Some sub) None) name (Some cl)
                    (Some sub) None).
  assert (Hm : match_link (markup name (Some cl) (Some sub) None ++ rest)
               = Some (m, rest)).
  { apply match_link_markup. unfold well_formed.
    split_and!; try done; by intros ? [= <-]. }
  assert (Hc : convert_link project m
               = Ok (a_href (e_url item ++ lit "#" ++ e_anchor obj)
                            (e_name obj), [])).
  { unfold convert_link.
    rewrite (primary_searchlist_space project m searchlist)
      by (simpl; eauto).
    unfold sub_searchlist. subst m.
    cbn [group0 group1 group2 group3 group4]. rewrite Hitem.
    fold (children_of item). by rewrite Hobj. }
  destruct (convert_link_at project _ m rest _ _ Hm Hc) as (t & l & Ht & Hs).
  exists obj, t, l. by split_and!.
Qed.

Lemma sub_links_sublink_witness :
  exists obj t lines,
    In obj (children_of mytype) /\ lower (e_name obj) = lower (lit "MyVar") /\
    sub_links [] one_type_project = Ok (t, lines) /\
    sub_links (markup (lit "mytype") (Some (lit "type")) (Some (lit "MyVar"))
                 None ++ []) one_type_project
    = Ok (a_href (e_url mytype ++ lit "#" ++ e_anchor obj) (e_name obj) ++ t,
          lines).
Proof.
  apply (sub_links_sublink one_type_project (lit "mytype") (lit "type")
           (lit "MyVar") [] (lit "types") [mytype] mytype);
    try reflexivity.
  exists myvar. split; [|reflexivity]. vm_compute. by left.
Defined.

Example sublink_example :
  sub_links (lit "see [[mytype(type):myvar]].") one_type_project
  = Ok (lit "see " ++ a_href (lit "type/mytype.html#variable-myvar")
                             (lit "myvar") ++ lit ".", []).
Proof. vm_compute. reflexivity. Qed.

(** C2, as the code has it. [sub_links] returns for every text and every
    project: each match is replaced by some text. When the classifier of a
    link is absent or in the table, and no entity of the searched space
    (the collection of the classifier, every collection when there is none)
    has the requested name, the match becomes the anchor tag without [href]
    whose label is the requested name, and one line, the not-found line, is
    printed for the match. *)
Theorem sub_links_not_found (project : Project) :
  (forall string, exists text lines,
     sub_links string project = Ok (text, lines)) /\
  (forall s m rest searchlist,
     match_link s = Some (m, rest) ->
     search_space project (group2 m) searchlist ->
     find_named (group1 m) searchlist = None ->
     exists t lines,
       sub_links rest project = Ok (t, lines) /\
       sub_links s project
       = Ok (a_plain (group1 m) ++ t, [not_found m] ++ lines)).
Proof.
  split.
  - intros string. apply sub_from_total.
  - intros s m rest searchlist Hm Hsp Hnone.
    apply (convert_link_at project s m rest _ _ Hm).
    unfold convert_link.
    by rewrite (primary_searchlist_space project m searchlist Hsp), Hnone.
Qed.

Lemma sub_links_not_found_witness :
  let s := lit "[[ghost]]" in
  let m := mkMatch s (lit "ghost") None None None in
  exists t lines,
    sub_links [] one_type_project = Ok (t, lines) /\
    sub_links s one_type_project
    = Ok (a_plain (lit "ghost") ++ t, [not_found m] ++ lines).
Proof.
  intros s m.
  apply (proj2 (sub_links_not_found one_type_project) s m []
           (all_collections one_type_project));
    reflexivity.
Defined.

Example ghost_example :
  let s := lit "[[ghost]]" in
  sub_links s one_type_project
  = Ok (lit "<a>ghost</a>",
        [not_found (mkMatch s (lit "ghost") None None None)]).
Proof. vm_compute. reflexivity. Qed.

(** C2, as the claim has it, fails on a link whose classifier is not in the
    table: the name [ghost] is in no collection, and the markup stays as it
    is, with the line of the unrecognized classifier and no not-found
    line. *)
Lemma ghost_with_unrecognized_classifier :
  let s := lit "[[ghost(bogus)]]" in
  let m := mkMatch s (lit "ghost") (Some (lit "bogus")) None None in
  match_link s = Some (m, []) /\
  find_named (lit "ghost") (all_collections empty_project) = None /\
  sub_links s empty_project = Ok (s, [unrecognized m]) /\
  s <> a_plain (lit "ghost") /\ unrecognized m <> not_found m.
Proof. intros s m. split_and!; by vm_compute. Qed.

(** C3. At every match whose primary classifier is not in [LINK_TYPES], and
    at every match whose primary name is found and whose sub-classifier is
    not in [SUBLINK_TYPES] or names an attribute that the entity found does
    not have, [sub_links] prints one warning for the match and leaves the
    markup of the match as it is. *)
Theorem sub_links_unrecognized (project : Project) (s : str) (m : LinkMatch)
    (rest : str) :
  match_link s = Some (m, rest) ->
  ((exists cl, group2 m = Some cl /\ assoc (lower cl) LINK_TYPES = None) \/
   (exists searchlist item cl,
      search_space project (group2 m) searchlist /\
      find_named (group1 m) searchlist = Some item /\
      group4 m = Some cl /\
      (assoc (lower cl) SUBLINK_TYPES = None \/
       exists val, assoc (lower cl) SUBLINK_TYPES = Some val /\
                   hasattr item val = false))) ->
  exists reason t lines,
    sub_links rest project = Ok (t, lines) /\
    sub_links s project
    = Ok (group0 m ++ t, [ERR (group0 m) reason] ++ lines).
Proof.
  intros Hm Hcase.
  assert (Hc : exists reason,
             convert_link project m = Ok (group0 m, [ERR (group0 m) reason])).
  { unfold convert_link.
    destruct Hcase as [(cl & H2 & Hcl)|
                       (searchlist & item & cl & Hsp & Hitem & H4 & Hsub)].
    - unfold primary_searchlist. rewrite H2, Hcl. by eexists.
    - rewrite (primary_searchlist_space project m searchlist Hsp), Hitem.
      destruct (match_link_split s m rest Hm) as (_ & _ & H34).
      destruct (group3 m) as [sub|]; [|by rewrite H34 in H4].
      unfold sub_searchlist. rewrite H4.
      destruct Hsub as [->|(val & -> & ->)]; by eexists. }
  destruct Hc as [reason Hc].
  destruct (convert_link_at project s m rest _ _ Hm Hc) as (t & l & Ht & Hs).
  by exists reason, t, l.
Qed.

Lemma sub_links_unrecognized_witness :
  let s := lit "[[mytype(type):myvar(gadget)]]" in
  let m := mkMatch s (lit "mytype") (Some (lit "type")) (Some (lit "myvar"))
                   (Some (lit "gadget")) in
  exists reason t lines,
    sub_links [] one_type_project = Ok (t, lines) /\
    sub_links s one_type_project
    = Ok (group0 m ++ t, [ERR (group0 m) reason] ++ lines).
Proof.
  intros s m.
  apply (sub_links_unrecognized one_type_project s m []); [reflexivity|].
  right. exists [mytype], mytype, (lit "gadget").
  split_and!; try reflexivity.
  - exists (lit "types"). by split.
  - by left.
Defined.

Example unrecognized_examples :
  (let s := lit "[[mytype(gadget)]]" in
   sub_links s one_type_project
   = Ok (s, [unrecognized (mkMatch s (lit "mytype") (Some (lit "gadget"))
                                   None None)])) /\
  (let s := lit "[[mytype:myvar(gadget)]]" in
   sub_links s one_type_project
   = Ok (s, [unrecognized_sub (mkMatch s (lit "mytype") None
                                       (Some (lit "myvar"))
                                       (Some (lit "gadget")))])) /\
  (let s := lit "[[mytype:myvar(function)]]" in
   sub_links s one_type_project
   = Ok (s, [not_contained (mkMatch s (lit "mytype") None
                                    (Some (lit "myvar"))
                                    (Some (lit "function"))) mytype])).
Proof. split_and!; by vm_compute. Qed.

End LinkProperties.

(** ** The import of external projects *)

Section ImportProperties.

Import Macros Interchange.
Local Open Scope nat_scope.

Context (w : World).

Lemma same_entity_refl (o : ExtObj) : same_entity o o.
Proof. by unfold same_entity. Qed.

Lemma same_entity_trans (o1 o2 o3 : ExtObj) :
  same_entity o1 o2 -> same_entity o2 o3 -> same_entity o1 o3.
Proof. unfold same_entity. intros (?&?&?&?) (?&?&?&?). split_and!; congruence. Qed.

Lemma grows_refl (st : state) : grows st st.
Proof.
  split.
  - intros id o H. exists o. split; [done|apply same_entity_refl].
  - intros attr l H. exists []. by rewrite app_nil_r.
Qed.

Lemma grows_trans (st1 st2 st3 : state) :
  grows st1 st2 -> grows st2 st3 -> grows st1 st3.
Proof.
  intros [H1 H2] [H3 H4]. split.
  - intros id o Ho. destruct (H1 id o Ho) as (o' & Ho' & Hs).
    destruct (H3 id o' Ho') as (o'' & Ho'' & Hs').
    exists o''. split; [done|]. by eapply same_entity_trans.
  - intros attr l Hl. destruct (H2 attr l Hl) as (l' & Hl').
    destruct (H4 attr _ Hl') as (l'' & Hl'').
    exists (l' ++ l''). by rewrite app_assoc.
Qed.

Lemma grows_length (st st' : state) :
  grows st st' -> length (heap st) <= length (heap st').
Proof.
  intros [H _]. destruct (decide (length (heap st) = 0)) as [->|Hne]; [lia|].
  destruct (lookup_lt_is_Some_2 (heap st) (length (heap st) - 1)) as [o Ho];
    [lia|].
  destruct (H _ _ Ho) as (o' & Ho' & _). apply lookup_lt_Some in Ho'. lia.
Qed.

Lemma safe_mono {A : Type} (n n' : nat) (m : M A) :
  n <= n' -> safe w n m -> safe w n' m.
Proof. intros Hn Hm st Hg Hlen. apply Hm; [done|lia]. Qed.

Lemma safe_ret {A : Type} (n : nat) (a : A) : safe w n (ret a).
Proof. intros st Hg _. split; [done|apply grows_refl]. Qed.

Lemma safe_raise {A : Type} (n : nat) (e : exn) : safe w n (@raise A e).
Proof. intros st Hg _. split; [done|apply grows_refl]. Qed.

Lemma safe_lift {A : Type} (n : nat) (r : result A) : safe w n (lift r).
Proof. intros st Hg _. split; [done|apply grows_refl]. Qed.

Lemma safe_bind {A B : Type} (n : nat) (m : M A) (f : A -> M B) :
  safe w n m -> (forall a, safe w n (f a)) -> safe w n (bind m f).
Proof.
  intros Hm Hf st Hg Hn. unfold bind.
  destruct (Hm st Hg Hn) as [Hg' Hgr].
  destruct (m st) as [st' [a|e|]]; simpl in *; try done.
  destruct (Hf a st' Hg') as [Hg'' Hgr'].
  { apply grows_length in Hgr. lia. }
  split; [done|]. by eapply grows_trans.
Qed.

Lemma safe_mapM {A B : Type} (n : nat) (f : A -> M B) (l : list A) :
  (forall x, In x l -> safe w n (f x)) -> safe w n (mapM f l).
Proof.
  induction l as [|x l IH]; intros Hf; simpl.
  - apply safe_ret.
  - apply safe_bind; [apply Hf; by left|]. intros y.
    apply safe_bind; [apply IH; intros; apply Hf; by right|].
    intros ys. apply safe_ret.
Qed.

Lemma safe_forM {A : Type} (n : nat) (f : A -> M unit) (l : list A) :
  (forall x, In x l -> safe w n (f x)) -> safe w n (forM l f).
Proof.
  induction l as [|x l IH]; intros Hf; simpl.
  - apply safe_ret.
  - apply safe_bind; [apply Hf; by left|]. intros _.
    apply IH. intros; apply Hf; by right.
Qed.

Lemma set_attr_same (key : str) (v : attr_value) (o : ExtObj) :
  same_entity o (set_attr key v o).
Proof. by unfold same_entity. Qed.

Lemma lookup_alter_same (key : str) (v : attr_value) (id i : nat)
    (h : list ExtObj) (o' : ExtObj) :
  alter (set_attr key v) id h !! i = Some o' ->
  exists o, h !! i = Some o /\ same_entity o o'.
Proof.
  destruct (decide (id = i)) as [->|Hne].
  - rewrite list_lookup_alter_eq. destruct (h !! i) as [o|]; [|done].
    intros [= <-]. exists o. split; [done|apply set_attr_same].
  - rewrite list_lookup_alter_ne by done. intros H. exists o'.
    split; [done|apply same_entity_refl].
Qed.

Lemma safe_setattr (n id : nat) (key : str) (v : attr_value) :
  safe w n (setattr id key v).
Proof.
  intros st (Hl & Hr & Hp & Ho) _. unfold setattr. simpl. split.
  - split_and!.
    + done.
    + intros i o' Hi. simpl in *.
      apply lookup_alter_same in Hi as (o & Hi & (Hk & _)).
      rewrite Hk. by apply Hr.
    + intros i o' p Hi Hpar. simpl in *.
      apply lookup_alter_same in Hi as (o & Hi & (_ & _ & _ & Hk)).
      rewrite Hk in Hpar. by eapply Hp.
    + intros attr l Hattr. simpl in *. rewrite length_alter.
      exact (Ho attr l Hattr).
  - split; simpl.
    + intros i o Hi. destruct (decide (id = i)) as [->|Hne].
      * exists (set_attr key v o). rewrite list_lookup_alter_eq, Hi.
        split; [done|apply set_attr_same].
      * exists o. rewrite list_lookup_alter_ne by done.
        split; [done|apply same_entity_refl].
    + intros attr l Hattr. exists []. by rewrite app_nil_r.
Qed.

(** Printing and registering a macro touch neither objects nor lists. *)
Lemma same_heap_good (st : state) (lg : list str) (d : gmap str str) :
  good w st ->
  good w (mkState (heap st) (project st) lg d) /\
  grows st (mkState (heap st) (project st) lg d).
Proof.
  intros Hg. split; [exact Hg|]. split; simpl.
  - intros id o H. exists o. split; [done|apply same_entity_refl].
  - intros attr l H. exists []. by rewrite app_nil_r.
Qed.

Lemma safe_print (n : nat) (line : str) : safe w n (print line).
Proof. intros st Hg _. by apply same_heap_good. Qed.

Lemma safe_register_macroM (n : nat) (urldef : str) :
  safe w n (register_macroM urldef).
Proof.
  intros st Hg _. unfold register_macroM.
  destruct (register_macro urldef (macros st)) as [d r]. simpl.
  by apply same_heap_good.
Qed.

(** The state after an object is created and put on its list. *)
Lemma new_entity_good (st : state) (o : ExtObj) (l : list nat) :
  good w st ->
  (forall p, eo_parent o = Some p -> p < length (heap st)) ->
  project st !! project_list_of w (eo_kind o) = Some l ->
  let st' := mkState (heap st ++ [o])
               (<[project_list_of w (eo_kind o) := l ++ [length (heap st)]]>
                  (project st))
               (log st) (macros st) in
  good w st' /\ grows st st'.
Proof.
  intros (Hl & Hr & Hp & Ho) Hpar Hlist st'. split.
  - split_and!.
    + intros kind. unfold st'. simpl.
      destruct (decide (project_list_of w (eo_kind o) = project_list_of w kind))
        as [<-|Hne].
      * rewrite lookup_insert_eq. by eexists.
      * rewrite lookup_insert_ne by done. apply Hl.
    + intros i o' Hi. unfold st' in *. simpl in *.
      apply lookup_snoc_Some in Hi as [[Hlt Hi]|[-> <-]].
      * destruct (Hr i o' Hi) as (l0 & Hl0 & Hin).
        destruct (decide (project_list_of w (eo_kind o)
                          = project_list_of w (eo_kind o'))) as [E|Hne].
        -- rewrite <- E, lookup_insert_eq. eexists. split; [done|].
           rewrite <- E, Hlist in Hl0. injection Hl0 as <-.
           apply elem_of_app. by left.
        -- rewrite lookup_insert_ne by done. eauto.
      * rewrite lookup_insert_eq. eexists. split; [done|].
        apply elem_of_app. right. by apply list_elem_of_singleton.
    + intros i o' p Hi Hpo. unfold st' in *. simpl in *.
      apply lookup_snoc_Some in Hi as [[Hlt Hi]|[-> <-]].
      * by eapply Hp.
      * by apply Hpar.
    + intros attr l0 Hattr. unfold st' in *. simpl in *.
      rewrite length_app. simpl.
      destruct (decide (project_list_of w (eo_kind o) = attr)) as [<-|Hne].
      * rewrite lookup_insert_eq in Hattr. injection Hattr as <-.
        destruct (Ho _ _ Hlist) as [Hs Hb]. split.
        -- apply StronglySorted_app_2; [|done|repeat constructor].
           intros x1 x2 H1 H2. apply list_elem_of_singleton in H2 as ->.
           rewrite Forall_forall in Hb. by apply Hb.
        -- apply Forall_app. split.
           ++ eapply Forall_impl; [exact Hb|]. simpl. lia.
           ++ repeat constructor. lia.
      * rewrite lookup_insert_ne in Hattr by done.
        destruct (Ho _ _ Hattr) as [Hs Hb]. split; [done|].
        eapply Forall_impl; [exact Hb|]. simpl. lia.
  - split; unfold st'; simpl.
    + intros i o' Hi. exists o'. split; [|apply same_entity_refl].
      rewrite lookup_app_l; [done|]. by eapply lookup_lt_Some.
    + intros attr l0 Hattr.
      destruct (decide (project_list_of w (eo_kind o) = attr)) as [<-|Hne].
      * rewrite lookup_insert_eq. rewrite Hlist in Hattr.
        injection Hattr as <-. by eexists.
      * rewrite lookup_insert_ne by done. exists []. by rewrite app_nil_r.
Qed.

(** Creating an object and putting it on its list, then going on. *)
Lemma safe_new {A : Type} (n : nat) (kind : EntityKind) (name url : json)
    (parent : option nat) (k : nat -> M A) :
  (forall p, parent = Some p -> p < n) ->
  (forall id, n <= id -> safe w (S id) (k id)) ->
  safe w n (extObj <- construct kind name url parent ;;
            _ <- register w kind extObj ;;
            k extObj).
Proof.
  intros Hpar Hk st Hg Hn. unfold bind, construct, register. simpl.
  destruct Hg as (Hl & Hr & Hp & Ho).
  destruct (Hl kind) as [l Hlist]. rewrite Hlist.
  destruct (new_entity_good st (mkExtObj kind name url parent []) l)
    as [Hg' Hgr]; [done| |done|].
  { simpl. intros p Hp'. specialize (Hpar p Hp'). lia. }
  simpl in Hg', Hgr.
  destruct (Hk (length (heap st)) Hn _ Hg') as [Hg'' Hgr'].
  { simpl. rewrite length_app. simpl. lia. }
  split; [done|]. by eapply grows_trans.
Qed.

Lemma safe_fill (rec : json -> option nat -> M nat) (extDict : json)
    (obj_type : str) (extObj : nat) :
  (forall item, safe w (S extObj) (rec item (Some extObj))) ->
  safe w (S extObj) (fill rec extDict obj_type extObj).
Proof.
  intros Hrec. unfold fill.
  apply safe_bind.
  { destruct (str_eqb obj_type (lit "interface")).
    - apply safe_bind; [apply safe_lift|intros; apply safe_setattr].
    - destruct (str_eqb obj_type (lit "type")); [|apply safe_ret].
      apply safe_bind; [apply safe_lift|intros; apply safe_setattr]. }
  intros _. apply safe_bind; [|intros; apply safe_ret].
  apply safe_forM. intros key _.
  destruct (getitem extDict key) as [v|e|]; try apply safe_ret.
  destruct v as [|b|z|s|items|items]; try apply safe_setattr.
  - apply safe_bind; [|intros; apply safe_setattr].
    apply safe_mapM. intros item _. apply Hrec.
  - apply safe_bind; [|intros; apply safe_setattr].
    apply safe_mapM. intros kv _.
    apply safe_bind; [apply Hrec|intros; apply safe_ret].
Qed.

Lemma safe_dict2obj (fuel : nat) :
  forall (extDict : json) (url : str) (parent : option nat) (remote : bool)
         (n : nat),
  (forall p, parent = Some p -> p < n) ->
  safe w n (dict2obj w fuel extDict url parent remote).
Proof.
  induction fuel as [|fuel IH]; intros extDict url parent remote n Hpar.
  - intros st Hg _. split; [done|apply grows_refl].
  - cbn [dict2obj].
    apply safe_bind; [apply safe_lift|intros name].
    apply safe_bind; [apply safe_lift|intros raw_url].
    apply safe_bind; [apply safe_lift|intros external_url].
    apply safe_bind; [apply safe_lift|intros obj_type].
    apply safe_bind; [apply safe_lift|intros kind].
    apply safe_new; [done|]. intros extObj Hid.
    apply safe_fill. intros item. apply IH. intros p [= <-]. lia.
Qed.

Lemma safe_import_records (extModules : json) (url : str) (remote : bool) :
  safe w 0 (import_records w extModules url remote).
Proof.
  unfold import_records.
  apply safe_bind; [apply safe_lift|intros records].
  apply safe_forM. intros extModule _.
  apply safe_bind; [|intros; apply safe_ret].
  by apply safe_dict2obj.
Qed.

Lemma safe_import_source (urldef : str) : safe w 0 (import_source w urldef).
Proof.
  unfold import_source.
  apply safe_bind; [apply safe_register_macroM|intros reg].
  destruct (fetch w reg.1) as [url' [extModules|e|]].
  - apply safe_import_records.
  - destruct (caught e); [|apply safe_raise].
    apply safe_bind; [apply safe_print|intros; apply safe_import_records].
  - intros st Hg _. split; [done|apply grows_refl].
Qed.

Lemma safe_external (sources : list str) : safe w 0 (external w sources).
Proof.
  unfold external. apply safe_forM. intros; apply safe_import_source.
Qed.

Lemma bind_lift_ok {A B : Type} (r : result A) (a : A) (f : A -> M B)
    (st : state) :
  r = Ok a -> bind (lift r) f st = f a st.
Proof. by intros ->. Qed.

Lemma bind_lift_raise {A B : Type} (r : result A) (e : exn) (f : A -> M B)
    (st : state) :
  r = Raise e -> bind (lift r) f st = (st, Raise e).
Proof. by intros ->. Qed.

(** A loop ends at the first turn that raises. *)
Lemma forM_raise {A : Type} (f : A -> M unit) (pre : list A) (x : A)
    (post : list A) (e : exn) :
  forall st st1 st',
  forM pre f st = (st1, Ok tt) -> f x st1 = (st', Raise e) ->
  forM (pre ++ x :: post) f st = (st', Raise e).
Proof.
  induction pre as [|y pre IH]; intros st st1 st' Hpre Hx; simpl in *.
  - injection Hpre as <-. unfold bind. by rewrite Hx.
  - unfold bind in *. destruct (f y st) as [st2 [[]|e'|]]; try done.
    by eapply IH.
Qed.

(** A record with a tag that [ENTITIES] does not have raises [KeyError]
    and creates nothing. *)
Lemma dict2obj_unrecognized (fuel : nat) (extDict : json) (url : str)
    (parent : option nat) (remote : bool) (st : state)
    (name raw external_url : json) (obj_type : str) :
  getitem extDict (lit "name") = Ok name ->
  getitem extDict (lit "external_url") = Ok raw ->
  resolve_url w url remote raw = Ok external_url ->
  entity_tag extDict = Ok obj_type ->
  assoc obj_type ENTITIES = None ->
  dict2obj w (S fuel) extDict url parent remote st
  = (st, Raise (KeyError obj_type)).
Proof.
  intros Hn Hr Hu Ht Ha. cbn [dict2obj].
  rewrite (bind_lift_ok _ _ _ _ Hn), (bind_lift_ok _ _ _ _ Hr),
    (bind_lift_ok _ _ _ _ Hu), (bind_lift_ok _ _ _ _ Ht).
  apply bind_lift_raise. by rewrite Ha.
Qed.

(** A record with a tag of [ENTITIES] creates an object of the class of the
    tag, with the name, the address and the parent of the call, and it is on
    its list when the call ends, however it ends. *)
Lemma dict2obj_recognized (fuel : nat) (extDict : json) (url : str)
    (parent : option nat) (remote : bool) (st : state)
    (name raw external_url : json) (obj_type : str) (kind : EntityKind) :
  getitem extDict (lit "name") = Ok name ->
  getitem extDict (lit "external_url") = Ok raw ->
  resolve_url w url remote raw = Ok external_url ->
  entity_tag extDict = Ok obj_type ->
  assoc obj_type ENTITIES = Some kind ->
  good w st ->
  (forall p, parent = Some p -> p < length (heap st)) ->
  let st' := (dict2obj w (S fuel) extDict url parent remote st).1 in
  exists o l,
    heap st' !! length (heap st) = Some o /\
    same_entity (mkExtObj kind name external_url parent []) o /\
    project st' !! project_list_of w kind = Some l /\
    length (heap st) ∈ l.
Proof.
  intros Hn Hr Hu Ht Ha Hg Hpar st'.
  destruct (proj1 Hg kind) as [l0 Hl0].
  set (o0 := mkExtObj kind name external_url parent []).
  set (st1 := mkState (heap st ++ [o0])
                (<[project_list_of w kind := l0 ++ [length (heap st)]]>
                   (project st))
                (log st) (macros st)).
  assert (Hrun : dict2obj w (S fuel) extDict url parent remote st
                 = fill (fun item parent' =>
                           dict2obj w fuel item url parent' remote)
                        extDict obj_type (length (heap st)) st1).
  { cbn [dict2obj].
    rewrite (bind_lift_ok _ _ _ _ Hn), (bind_lift_ok _ _ _ _ Hr),
      (bind_lift_ok _ _ _ _ Hu), (bind_lift_ok _ _ _ _ Ht).
    rewrite (bind_lift_ok _ kind) by (by rewrite Ha).
    unfold bind at 1 2, construct, register. cbn [heap project log macros].
    by rewrite Hl0. }
  unfold st'. rewrite Hrun. clear st' Hrun.
  destruct (new_entity_good st o0 l0 Hg Hpar Hl0) as [Hg1 Hgr1].
  fold st1 in Hg1, Hgr1.
  destruct (safe_fill
              (fun item parent' => dict2obj w fuel item url parent' remote)
              extDict obj_type (length (heap st))) with (st := st1)
    as [Hg2 Hgr2]; [|done| |].
  { intros item. apply safe_dict2obj. intros p [= <-]. lia. }
  { unfold st1. simpl. rewrite length_app. simpl. lia. }
  destruct (proj1 Hgr2 (length (heap st)) o0) as (o & Ho & Hsame).
  { unfold st1. simpl. by apply list_lookup_middle. }
  destruct Hg2 as (_ & Hreg & _).
  destruct (Hreg _ _ Ho) as (l & Hl & Hin).
  exists o, l. split_and!; try done.
  destruct Hsame as (Hk & _). by rewrite Hk in Hl.
Qed.

(** One source: what [import_source] does once the macro is registered. *)
Lemma import_source_eq (urldef : str) (st : state) (d' : gmap str str)
    (url key : str) :
  register_macro urldef (macros st) = (d', Ok (url, key)) ->
  import_source w urldef st
  = match fetch w url with
    | (url', Ok extModules) =>
        import_records w extModules url' (is_remote url)
          (mkState (heap st) (project st) (log st) d')
    | (url', Raise error) =>
        if caught error then
          import_records w (JList []) url' (is_remote url)
            (mkState (heap st) (project st)
                     (log st ++ [could_not_open url' error]) d')
        else (mkState (heap st) (project st) (log st) d', Raise error)
    | (_, OutOfFuel) =>
        (mkState (heap st) (project st) (log st) d', OutOfFuel)
    end.
Proof.
  intros Hreg. unfold import_source, bind at 1, register_macroM.
  rewrite Hreg. cbn [fst].
  destruct (fetch w url) as [url' [extModules|e|]]; try done.
  destruct (caught e); done.
Qed.

Lemma import_no_records (url : str) (remote : bool) (st : state) :
  import_records w (JList []) url remote st = (st, Ok tt).
Proof. reflexivity. Qed.

Lemma external_cons (urldef : str) (rest : list str) (st : state) :
  external w (urldef :: rest) st
  = match import_source w urldef st with
    | (st', Ok _) => external w rest st'
    | (st', Raise e) => (st', Raise e)
    | (st', OutOfFuel) => (st', OutOfFuel)
    end.
Proof. reflexivity. Qed.

(** *** The order of creation *)

Lemma emits_nothing {A : Type} (m : M A) :
  (forall st, names (m st).1 = names st) -> emits m [].
Proof.
  intros H st. exists []. rewrite H. split; [done|]. done.
Qed.

Lemma emits_ret {A : Type} (a : A) : emits (ret a) [].
Proof. by apply emits_nothing. Qed.

Lemma emits_lift {A : Type} (r : result A) : emits (lift r) [].
Proof. by apply emits_nothing. Qed.

Lemma names_alter (key : str) (v : attr_value) (id : nat) (h : list ExtObj) :
  map eo_name (alter (set_attr key v) id h) = map eo_name h.
Proof.
  revert id. induction h as [|o h IH]; intros id; [done|].
  destruct id as [|id]; simpl; [done|]. f_equal. apply IH.
Qed.

Lemma emits_setattr (id : nat) (key : str) (v : attr_value) :
  emits (setattr id key v) [].
Proof. apply emits_nothing. intros st. apply names_alter. Qed.

Lemma emits_register (kind : EntityKind) (id : nat) :
  emits (register w kind id) [].
Proof.
  apply emits_nothing. intros st. unfold register.
  by destruct (project st !! project_list_of w kind).
Qed.

Lemma emits_construct (kind : EntityKind) (name url : json)
    (parent : option nat) :
  emits (construct kind name url parent) [name].
Proof.
  intros st. exists []. unfold construct, names. simpl.
  rewrite map_app. simpl. by rewrite app_nil_r.
Qed.

Lemma emits_bind {A B : Type} (m : M A) (f : A -> M B)
    (out1 out2 : list json) :
  emits m out1 -> (forall a, emits (f a) out2) ->
  emits (bind m f) (out1 ++ out2).
Proof.
  intros Hm Hf st. unfold bind. destruct (Hm st) as (rest & Hn & Hok).
  destruct (m st) as [st' [a|e|]]; simpl in *.
  - rewrite (Hok a eq_refl), app_nil_r in Hn.
    destruct (Hf a st') as (rest' & Hn' & Hok').
    exists rest'. split; [|done]. by rewrite app_assoc, Hn.
  - exists (rest ++ out2). split; [|done]. by rewrite !app_assoc, Hn.
  - exists (rest ++ out2). split; [|done]. by rewrite !app_assoc, Hn.
Qed.

Lemma emits_bind_lift {A B : Type} (r : result A) (f : A -> M B)
    (out : list json) :
  (forall a, r = Ok a -> emits (f a) out) -> emits (bind (lift r) f) out.
Proof.
  intros Hf st. unfold bind, lift. destruct r as [a|e|]; simpl.
  - by apply Hf.
  - by exists out.
  - by exists out.
Qed.

Lemma emits_mapM {A B : Type} (f : A -> M B) (g : A -> list json)
    (l : list A) :
  (forall x, emits (f x) (g x)) -> emits (mapM f l) (flat_map g l).
Proof.
  intros Hf. induction l as [|x l IH]; simpl; [apply emits_ret|].
  apply emits_bind; [apply Hf|]. intros y.
  rewrite <- (app_nil_r (flat_map g l)).
  apply emits_bind; [apply IH|]. intros ys. apply emits_ret.
Qed.

Lemma emits_forM {A : Type} (f : A -> M unit) (g : A -> list json)
    (l : list A) :
  (forall x, emits (f x) (g x)) -> emits (forM l f) (flat_map g l).
Proof.
  intros Hf. induction l as [|x l IH]; simpl; [apply emits_ret|].
  apply emits_bind; [apply Hf|]. intros _. apply IH.
Qed.

(** [dict2obj] creates the objects of a record in pre-order. *)
Lemma dict2obj_preorder (fuel : nat) :
  forall (extDict : json) (url : str) (parent : option nat) (remote : bool),
  emits (dict2obj w fuel extDict url parent remote) (preorder fuel extDict).
Proof.
  induction fuel as [|fuel IH]; intros extDict url parent remote.
  - intros st. exists []. by split.
  - cbn [dict2obj preorder].
    apply emits_bind_lift. intros name ->.
    apply emits_bind_lift. intros raw _.
    apply emits_bind_lift. intros external_url _.
    apply emits_bind_lift. intros obj_type _.
    apply emits_bind_lift. intros kind _.
    change (name :: children_order (preorder fuel) extDict)
      with ([name] ++ [] ++ [] ++ children_order (preorder fuel) extDict).
    apply emits_bind; [apply emits_construct|]. intros extObj.
    apply emits_bind; [apply emits_register|]. intros _.
    unfold fill. apply emits_bind.
    { destruct (str_eqb obj_type (lit "interface")).
      - apply emits_bind_lift. intros; apply emits_setattr.
      - destruct (str_eqb obj_type (lit "type")); [|apply emits_ret].
        apply emits_bind_lift. intros; apply emits_setattr. }
    intros _. rewrite <- (app_nil_r (children_order _ _)).
    apply emits_bind; [|intros; apply emits_ret].
    unfold children_order. apply emits_forM. intros key.
    destruct (getitem extDict key) as [v|e|]; try apply emits_ret.
    destruct v as [|b|z|s|items|items]; try apply emits_setattr.
    + rewrite <- (app_nil_r (flat_map _ _)).
      apply emits_bind; [|intros; apply emits_setattr].
      apply emits_mapM. intros item. apply IH.
    + rewrite <- (app_nil_r (flat_map _ _)).
      apply emits_bind; [|intros; apply emits_setattr].
      apply emits_mapM. intros kv.
      rewrite <- (app_nil_r (preorder _ _)).
      apply emits_bind; [apply IH|intros; apply emits_ret].
Qed.

(** *** The fuel is enough *)

Lemma terminates_lift {A : Type} (r : result A) :
  r <> OutOfFuel -> terminates (lift r).
Proof. intros H st. exact H. Qed.

Lemma terminates_ret {A : Type} (a : A) : terminates (ret a).
Proof. by intros st. Qed.

Lemma terminates_bind {A B : Type} (m : M A) (f : A -> M B) :
  terminates m -> (forall a, terminates (f a)) -> terminates (bind m f).
Proof.
  intros Hm Hf st. unfold bind. specialize (Hm st).
  destruct (m st) as [st' [a|e|]]; simpl in *; [apply Hf|done|done].
Qed.

Lemma terminates_mapM {A B : Type} (f : A -> M B) (l : list A) :
  (forall x, In x l -> terminates (f x)) -> terminates (mapM f l).
Proof.
  induction l as [|x l IH]; intros Hf; simpl; [apply terminates_ret|].
  apply terminates_bind; [apply Hf; by left|]. intros y.
  apply terminates_bind; [apply IH; intros; apply Hf; by right|].
  intros; apply terminates_ret.
Qed.

Lemma terminates_forM {A : Type} (f : A -> M unit) (l : list A) :
  (forall x, In x l -> terminates (f x)) -> terminates (forM l f).
Proof.
  induction l as [|x l IH]; intros Hf; simpl; [apply terminates_ret|].
  apply terminates_bind; [apply Hf; by left|]. intros _.
  apply IH. intros; apply Hf; by right.
Qed.

Lemma terminates_setattr (id : nat) (key : str) (v : attr_value) :
  terminates (setattr id key v).
Proof. by intros st. Qed.

Lemma getitem_returns (extDict : json) (key : str) :
  getitem extDict key <> OutOfFuel.
Proof.
  unfold getitem. destruct extDict; try done. by destruct (assoc key d).
Qed.

Lemma height_value (d : list (str * json)) (kv : str * json) :
  In kv d -> height kv.2 < height (JDict d).
Proof.
  simpl. induction d as [|x d IH]; [done|].
  intros [->|Hin]; simpl; [lia|]. specialize (IH Hin). lia.
Qed.

Lemma height_item (l : list json) (item : json) :
  In item l -> height item < height (JList l).
Proof.
  simpl. induction l as [|x l IH]; [done|].
  intros [->|Hin]; simpl; [lia|]. specialize (IH Hin). lia.
Qed.

Lemma assoc_In {A : Type} (k : str) (l : list (str * A)) (v : A) :
  assoc k l = Some v -> exists k', In (k', v) l.
Proof.
  induction l as [|[k' v'] l IH]; simpl; [done|].
  destruct (str_eqb k k').
  - intros [= <-]. exists k'. by left.
  - intros H. destruct (IH H) as [k'' Hin]. exists k''. by right.
Qed.

Lemma height_getitem (extDict : json) (key : str) (v : json) :
  getitem extDict key = Ok v -> height v < height extDict.
Proof.
  unfold getitem. destruct extDict; try done.
  destruct (assoc key d) as [v'|] eqn:E; [|done]. intros [= <-].
  apply assoc_In in E as [k' Hin].
  exact (height_value d (k', v') Hin).
Qed.

Lemma terminates_fill (rec : json -> option nat -> M nat) (extDict : json)
    (obj_type : str) (extObj : nat) :
  (forall item p, height item + 2 <= height extDict ->
     terminates (rec item p)) ->
  terminates (fill rec extDict obj_type extObj).
Proof.
  intros Hrec. unfold fill. apply terminates_bind.
  { destruct (str_eqb obj_type (lit "interface")).
    - apply terminates_bind; [apply terminates_lift, getitem_returns|].
      intros; apply terminates_setattr.
    - destruct (str_eqb obj_type (lit "type")); [|apply terminates_ret].
      apply terminates_bind; [apply terminates_lift, getitem_returns|].
      intros; apply terminates_setattr. }
  intros _. apply terminates_bind; [|intros; apply terminates_ret].
  apply terminates_forM. intros key _.
  destruct (getitem extDict key) as [v|e|] eqn:E; try apply terminates_ret.
  apply height_getitem in E.
  destruct v as [|b|z|s|items|items]; try apply terminates_setattr.
  - apply terminates_bind; [|intros; apply terminates_setattr].
    apply terminates_mapM. intros item Hin. apply Hrec.
    apply filter_In in Hin as [Hin _]. apply height_item in Hin. lia.
  - apply terminates_bind; [|intros; apply terminates_setattr].
    apply terminates_mapM. intros kv Hin.
    apply terminates_bind; [|intros; apply terminates_ret].
    apply Hrec. apply filter_In in Hin as [Hin _].
    apply height_value in Hin. lia.
Qed.

(** [dict2obj] returns or raises on fuel above the height of the record. *)
Lemma dict2obj_terminates (fuel : nat) :
  forall (extDict : json) (url : str) (parent : option nat) (remote : bool),
  height extDict < fuel ->
  terminates (dict2obj w fuel extDict url parent remote).
Proof.
  induction fuel as [|fuel IH]; intros extDict url parent remote Hh; [lia|].
  cbn [dict2obj].
  apply terminates_bind; [apply terminates_lift, getitem_returns|intros name].
  apply terminates_bind; [apply terminates_lift, getitem_returns|intros raw].
  apply terminates_bind; [apply terminates_lift|intros external_url].
  { unfold resolve_url. destruct (truthy raw); [|done]. by destruct raw. }
  apply terminates_bind; [apply terminates_lift|intros obj_type].
  { unfold entity_tag.
    destruct (getitem extDict (lit "obj")) as [o|e|] eqn:E; try done.
    - destruct extDict; try done.
      by destruct (default o (assoc (lit "proctype") d)).
    - by apply getitem_returns in E. }
  apply terminates_bind; [apply terminates_lift|intros kind].
  { by destruct (assoc obj_type ENTITIES). }
  apply terminates_bind; [by intros st|intros extObj].
  apply terminates_bind.
  { intros st. unfold register.
    by destruct (project st !! project_list_of w kind). }
  intros _. apply terminates_fill. intros item p Hitem. apply IH. lia.
Qed.

(** With oracles that return or raise, [external] returns or raises. *)
Lemma external_terminates (sources : list str) :
  world_total w -> terminates (external w sources).
Proof.
  intros (Hu & Hr & Hj). unfold external.
  apply terminates_forM. intros urldef _.
  assert (Hrec : forall extModules url remote,
            terminates (import_records w extModules url remote)).
  { intros extModules url remote. unfold import_records.
    apply terminates_bind; [apply terminates_lift; by destruct extModules|].
    intros records. apply terminates_forM. intros extModule _.
    apply terminates_bind; [|intros; apply terminates_ret].
    apply dict2obj_terminates. lia. }
  unfold import_source. apply terminates_bind.
  { intros st. unfold register_macroM, register_macro.
    destruct (split_first "=" urldef) as [[c0 c1]|]; [|done]. simpl.
    destruct (macros st !! _) as [old|]; [|done].
    by destruct (negb _). }
  intros reg.
  assert (Hf : (fetch w reg.1).2 <> OutOfFuel).
  { unfold fetch. destruct (is_remote reg.1); simpl.
    - destruct (urlopen_read w _) eqn:E; [apply Hj|done|by apply Hu in E].
    - destruct (read_text w _) eqn:E; [apply Hj|done|by apply Hr in E]. }
  destruct (fetch w reg.1) as [url' [extModules|e|]]; [apply Hrec| |done].
  destruct (caught e); [|by intros st].
  apply terminates_bind; [by intros st|intros; apply Hrec].
Qed.

End ImportProperties.

(** C6. [dict2obj] puts each object it creates on the list of the project
    that its class names before it goes on to the children, and it creates
    the objects of a record in pre-order. So, given a project that has those
    lists, wherever the import ends, with its last record read or with an
    exception at some record, every object created is on its list (no
    orphan), every child was created after its parent, and each list holds
    its objects in the order of their creation; what was created and listed
    before stays. This holds for a call of [dict2obj], whose objects are those
    of the pre-order of the record, all of them when it returns and the
    first of them when it raises, and for the whole of [external]. *)
Theorem import_registers_before_children (w : Interchange.World)
    (st : Interchange.state) :
  Interchange.good w st ->
  (forall fuel extDict url parent remote,
     (forall p, parent = Some p ->
        (p < length (Interchange.heap st))%nat) ->
     let run := Interchange.dict2obj w fuel extDict url parent remote st in
     Interchange.all_registered w run.1 /\ Interchange.parents_first run.1 /\
     Interchange.lists_in_order run.1 /\ Interchange.grows st run.1 /\
     exists rest,
       Interchange.names st ++ Interchange.preorder fuel extDict
       = Interchange.names run.1 ++ rest /\
       (forall id, run.2 = Ok id -> rest = [])) /\
  (forall sources,
     let st' := (Interchange.external w sources st).1 in
     Interchange.all_registered w st' /\ Interchange.parents_first st' /\
     Interchange.lists_in_order st' /\ Interchange.grows st st').
Proof.
  intros Hg. split.
  - intros fuel extDict url parent remote Hpar run.
    destruct (safe_dict2obj w fuel extDict url parent remote
                (length (Interchange.heap st)) Hpar st Hg)
      as [(_ & H1 & H2 & H3) H4]; [done|].
    split_and!; try done.
    apply (dict2obj_preorder w fuel extDict url parent remote st).
  - intros sources st'.
    destruct (safe_external w sources st Hg)
      as [(_ & H1 & H2 & H3) H4]; [lia|].
    by split_and!.
Qed.

(** C4, as the code has it. When the macro of a source is registered and
    its fetch (the body of [try]: the request and the decoding for a remote
    source, the read and the decoding for a local one) raises [URLError] or
    [JSONDecodeError], [external] prints one line, adds no object and no
    entry of a list for the source, and goes on with the sources that are
    left. Every other exception of the fetch, the one of a local file that
    cannot be read among them, is not caught: [external] ends with it and
    the sources that are left are not read. *)
Theorem fetch_failure (w : Interchange.World) (urldef : str)
    (rest : list str) (st : Interchange.state) (d' : gmap str str)
    (url key url' : str) (e : exn) :
  Macros.register_macro urldef (Interchange.macros st) = (d', Ok (url, key)) ->
  Interchange.fetch w url = (url', Raise e) ->
  match e with
  | URLError _ | JSONDecodeError _ =>
      Interchange.external w (urldef :: rest) st
      = Interchange.external w rest
          (Interchange.mkState (Interchange.heap st) (Interchange.project st)
             (Interchange.log st ++ [Interchange.could_not_open url' e]) d')
  | _ =>
      Interchange.external w (urldef :: rest) st
      = (Interchange.mkState (Interchange.heap st) (Interchange.project st)
           (Interchange.log st) d', Raise e)
  end.
Proof.
  intros Hreg Hfetch.
  rewrite external_cons, (import_source_eq w _ _ _ _ _ Hreg), Hfetch.
  destruct e; simpl; by rewrite ?import_no_records.
Qed.

Lemma fetch_failure_witness :
  Interchange.external Interchange.demo_world
    [lit "d = http://down"; lit "p = http://host"] Interchange.demo_state
  = Interchange.external Interchange.demo_world [lit "p = http://host"]
      (Interchange.mkState [] (Interchange.project Interchange.demo_state)
         [Interchange.could_not_open (lit "http://down/")
            (URLError (lit "Connection refused"))]
         {[ lit "|d|" := lit "http://down" ]}).
Proof.
  apply (fetch_failure Interchange.demo_world (lit "d = http://down")
           [lit "p = http://host"] Interchange.demo_state
           {[ lit "|d|" := lit "http://down" ]}
           (lit "http://down") (lit "|d|") (lit "http://down/")
           (URLError (lit "Connection refused"))).
  - by vm_compute.
  - by vm_compute.
Defined.

(** C4, as the claim has it, fails on a local source whose file cannot be
    read: the read raises [FileNotFoundError], [external] ends with it,
    prints nothing, and the remote source after it is never read, though
    that source on its own imports one module. *)
Lemma local_read_failure_not_caught :
  let sources := [lit "m = /missing"; lit "p = http://host"] in
  let run := Interchange.external Interchange.demo_world sources
               Interchange.demo_state in
  let alone := Interchange.external Interchange.demo_world
                 [lit "p = http://host"] Interchange.demo_state in
  Interchange.fetch Interchange.demo_world (lit "/missing")
  = (lit "/missing",
     Raise (FileNotFoundError (lit "/missing/modules.json"))) /\
  run.2 = Raise (FileNotFoundError (lit "/missing/modules.json")) /\
  Interchange.log run.1 = [] /\
  Interchange.heap run.1 = [] /\
  alone.2 = Ok tt /\
  length (Interchange.heap alone.1) = 1%nat.
Proof. intros sources run alone. split_and!; by vm_compute. Qed.

(** C5, as the code has it. The tag of a record, its [proctype] or else its
    [obj] in lower case, is looked up in [ENTITIES]. A tag of the table
    creates an object of the class of the tag and puts it on its list. A tag
    that is not in the table raises [KeyError] before anything is created
    for the record. Nothing catches an exception of [dict2obj]: it ends the
    loop over the records of the source at that record, and it ends
    [external] at that source; the records and the sources that are left
    are not read. *)
Theorem unrecognized_tag_ends_import (w : Interchange.World) :
  (forall fuel extDict url parent remote st name raw external_url obj_type,
     Interchange.getitem extDict (lit "name") = Ok name ->
     Interchange.getitem extDict (lit "external_url") = Ok raw ->
     Interchange.resolve_url w url remote raw = Ok external_url ->
     Interchange.entity_tag extDict = Ok obj_type ->
     match assoc obj_type Interchange.ENTITIES with
     | None =>
         Interchange.dict2obj w (S fuel) extDict url parent remote st
         = (st, Raise (KeyError obj_type))
     | Some kind =>
         Interchange.good w st ->
         (forall p, parent = Some p ->
            (p < length (Interchange.heap st))%nat) ->
         let st' :=
           (Interchange.dict2obj w (S fuel) extDict url parent remote st).1 in
         exists o l,
           Interchange.heap st' !! length (Interchange.heap st) = Some o /\
           Interchange.same_entity
             (Interchange.mkExtObj kind name external_url parent []) o /\
           Interchange.project st' !! Interchange.project_list_of w kind
           = Some l /\
           length (Interchange.heap st) ∈ l
     end) /\
  (forall pre extModule post url remote st st1 st' e,
     Interchange.import_records w (Interchange.JList pre) url remote st
     = (st1, Ok tt) ->
     Interchange.dict2obj w (S (Interchange.height extModule)) extModule url
       None remote st1 = (st', Raise e) ->
     Interchange.import_records w
       (Interchange.JList (pre ++ extModule :: post)) url remote st
     = (st', Raise e)) /\
  (forall pre urldef post st st1 d' url key url' extModules st' e,
     Interchange.external w pre st = (st1, Ok tt) ->
     Macros.register_macro urldef (Interchange.macros st1)
     = (d', Ok (url, key)) ->
     Interchange.fetch w url = (url', Ok extModules) ->
     Interchange.import_records w extModules url' (Interchange.is_remote url)
       (Interchange.mkState (Interchange.heap st1) (Interchange.project st1)
          (Interchange.log st1) d')
     = (st', Raise e) ->
     Interchange.external w (pre ++ urldef :: post) st = (st', Raise e)).
Proof.
  split_and!.
  - intros fuel extDict url parent remote st name raw external_url obj_type
      Hn Hr Hu Ht.
    destruct (assoc obj_type Interchange.ENTITIES) as [kind|] eqn:Ha.
    + intros Hg Hpar. by eapply dict2obj_recognized.
    + by eapply dict2obj_unrecognized.
  - intros pre extModule post url remote st st1 st' e Hpre Hx.
    unfold Interchange.import_records in *.
    rewrite bind_lift_ok with (a := pre ++ extModule :: post) by done.
    rewrite bind_lift_ok with (a := pre) in Hpre by done.
    eapply forM_raise; [exact Hpre|].
    unfold Interchange.bind. by rewrite Hx.
  - intros pre urldef post st st1 d' url key url' extModules st' e
      Hpre Hreg Hfetch Hrec.
    unfold Interchange.external in *.
    eapply forM_raise; [exact Hpre|].
    by rewrite (import_source_eq w _ _ _ _ _ Hreg), Hfetch.
Qed.

Lemma unrecognized_tag_ends_import_witness :
  Interchange.external Interchange.demo_world
    ([lit "p = http://host"] ++ lit "g = /gadget" :: [lit "q = http://host"])
    Interchange.demo_state
  = ((Interchange.external Interchange.demo_world
        [lit "p = http://host"; lit "g = /gadget"]
        Interchange.demo_state).1,
     Raise (KeyError (lit "gadget"))).
Proof.
  eapply (proj2 (proj2 (unrecognized_tag_ends_import Interchange.demo_world))
            [lit "p = http://host"] (lit "g = /gadget") [lit "q = http://host"]
            Interchange.demo_state _ _ (lit "/gadget") (lit "|g|")
            (lit "/gadget") Interchange.doc_gadget).
  - by vm_compute.
  - by vm_compute.
  - by vm_compute.
  - by vm_compute.
Defined.

(** C5, as the claim has it, fails on the document [doc_gadget]: the record
    of the unknown kind [gadget] is a child of the module [a]; its
    [KeyError] ends [external], with [a] created and listed, and neither the
    function [f] after it, nor the module [b] after [a], nor the source
    after this one is read, though that source on its own imports one
    module. *)
Lemma unrecognized_tag_not_isolated :
  let sources := [lit "g = /gadget"; lit "p = http://host"] in
  let run := Interchange.external Interchange.demo_world sources
               Interchange.demo_state in
  let alone := Interchange.external Interchange.demo_world
                 [lit "p = http://host"] Interchange.demo_state in
  run.2 = Raise (KeyError (lit "gadget")) /\
  map Interchange.eo_name (Interchange.heap run.1)
  = [Interchange.JStr (lit "a")] /\
  Interchange.project run.1 !! lit "extModules" = Some [0%nat] /\
  Interchange.project run.1 !! lit "extProcedures" = Some [] /\
  alone.2 = Ok tt /\
  map Interchange.eo_name (Interchange.heap alone.1)
  = [Interchange.JStr (lit "n")].
Proof. intros sources run alone. split_and!; by vm_compute. Qed.

Lemma demo_state_good :
  Interchange.good Interchange.demo_world Interchange.demo_state.
Proof.
  split_and!.
  - intros kind. destruct kind; vm_compute; by eexists.
  - intros id o H. by destruct id.
  - intros id o p H. by destruct id.
  - intros attr l H.
    assert (Hall : map_Forall (fun _ l => l = @nil nat)
                     (Interchange.project Interchange.demo_state)).
    { apply map_Forall_to_list. vm_compute. repeat constructor. }
    rewrite (Hall attr l H). split; constructor.
Qed.

Lemma import_registers_before_children_witness :
  let st' := (Interchange.external Interchange.demo_world
                [lit "p = http://host"; lit "g = /gadget"]
                Interchange.demo_state).1 in
  Interchange.all_registered Interchange.demo_world st' /\
  Interchange.parents_first st' /\ Interchange.lists_in_order st' /\
  Interchange.grows Interchange.demo_state st'.
Proof.
  apply (proj2 (import_registers_before_children Interchange.demo_world
                  Interchange.demo_state demo_state_good)).
Defined.

Example preorder_example :
  let a := Interchange.record "a" "module"
             [(lit "functions",
               Interchange.JList [Interchange.record "f" "function" [];
                                  Interchange.record "h" "function" []]);
              (lit "pub_types",
               Interchange.JDict [(lit "t", Interchange.record "t" "type"
                                              [(lit "extends",
                                                Interchange.JNull)])])] in
  let run := Interchange.dict2obj Interchange.demo_world 3 a (lit "/x") None
               false Interchange.demo_state in
  run.2 = Ok 0%nat /\
  Interchange.names run.1
  = [Interchange.JStr (lit "a"); Interchange.JStr (lit "t");
     Interchange.JStr (lit "f"); Interchange.JStr (lit "h")] /\
  Interchange.preorder 3 a = Interchange.names run.1 /\
  map Interchange.eo_parent (Interchange.heap run.1)
  = [None; Some 0%nat; Some 0%nat; Some 0%nat].
Proof. intros a run. split_and!; by vm_compute. Qed.

Example import_example :
  let run := Interchange.external Interchange.demo_world
               [lit "p = http://host"; lit "g = /gadget"]
               Interchange.demo_state in
  run.2 = Raise (KeyError (lit "gadget")) /\
  map (fun o => (Interchange.eo_name o, Interchange.eo_url o,
                 Interchange.eo_parent o)) (Interchange.heap run.1)
  = [(Interchange.JStr (lit "n"), Interchange.JStr (lit "http://host/n.html"),
      None);
     (Interchange.JStr (lit "a"), Interchange.JStr (lit "/gadget/a.html"),
      None)] /\
  Interchange.project run.1 !! lit "extModules" = Some [0%nat; 1%nat].
Proof. intros run. split_and!; by vm_compute. Qed.

(** * Further properties *)

(** ** The scanner *)

Section ScannerMore.

Import Scanner.

Example strip_paren_example :
  strip_paren (lit "foo(bar(quz) + faz) + baz(buz(cas))") 1
  = [lit "(bar() + faz)"; lit "(buz())"].
Proof. by vm_compute. Qed.

Lemma sublist_snoc_both (a b : str) (c : ascii) :
  sublist a b -> sublist (a ++ [c]) (b ++ [c]).
Proof. intros H. by apply sublist_app. Qed.

Lemma sublist_snoc_r (a b : str) (c : ascii) :
  sublist a b -> sublist a (b ++ [c]).
Proof.
  intros H. rewrite <- (app_nil_r a). apply sublist_app; [done|].
  apply sublist_nil_l.
Qed.

Lemma strip_paren_step_inv (retlevel : Z) (pre : str) (st : sp_state)
    (char : ascii) :
  sp_inv pre st -> sp_inv (pre ++ [char]) (strip_paren_step retlevel st char).
Proof.
  intros [Hne Hsub].
  assert (Hkeep : sublist (concat (sp_retstrs st) ++ sp_curstr st)
                    (pre ++ [char])) by (by apply sublist_snoc_r).
  assert (Hadd : sublist (concat (sp_retstrs st) ++ sp_curstr st ++ [char])
                   (pre ++ [char])).
  { rewrite app_assoc. by apply sublist_snoc_both. }
  assert (Hcut : forall cur,
            concat (sp_retstrs st ++ [cur]) ++ []
            = concat (sp_retstrs st) ++ cur).
  { intros cur. by rewrite concat_app, app_nil_r; simpl; rewrite app_nil_r. }
  unfold strip_paren_step, sp_inv.
  destruct (chr_eqb char "("); [|destruct (chr_eqb char ")")].
  - destruct ((sp_level st =? retlevel) || (sp_level st + 1 =? retlevel));
      by split.
  - destruct (sp_level st =? retlevel); simpl.
    + split; [|by rewrite Hcut].
      apply Forall_app. split; [done|]. constructor; [|done].
      by destruct (sp_curstr st).
    + destruct (sp_level st - 1 =? retlevel); by split.
  - destruct (sp_level st =? retlevel); by split.
Qed.

Lemma strip_paren_fold_inv (retlevel : Z) (rest : str) :
  forall (pre : str) (st : sp_state),
  sp_inv pre st ->
  sp_inv (pre ++ rest) (fold_left (strip_paren_step retlevel) rest st).
Proof.
  induction rest as [|char rest IH]; intros pre st Hinv; simpl.
  - by rewrite app_nil_r.
  - replace (pre ++ char :: rest) with ((pre ++ [char]) ++ rest)
      by (by rewrite <- app_assoc).
    apply IH. by apply strip_paren_step_inv.
Qed.

Lemma strip_paren_inv (line : str) (retlevel : Z) :
  sp_inv line (fold_left (strip_paren_step retlevel) line (SP [] [] 0)).
Proof.
  apply (strip_paren_fold_inv retlevel line [] (SP [] [] 0)).
  split; [constructor|apply sublist_nil_l].
Qed.

(** X1. [strip_paren] returns no empty string, whatever the line and the
    level. *)
Theorem strip_paren_no_empty (line : str) (retlevel : Z) :
  Forall (fun seg => seg <> []) (strip_paren line retlevel).
Proof.
  unfold strip_paren. destruct (strip_paren_inv line retlevel) as [Hne _].
  case_bool_decide; [|done].
  apply Forall_app. split; [done|]. by constructor.
Qed.

(** X2. The strings that [strip_paren] returns, one after the other, are
    characters of the line in the order of the line: it drops characters,
    and neither adds nor moves any. *)
Theorem strip_paren_sublist (line : str) (retlevel : Z) :
  sublist (concat (strip_paren line retlevel)) line.
Proof.
  unfold strip_paren. destruct (strip_paren_inv line retlevel) as [_ Hsub].
  case_bool_decide as Hc.
  - rewrite concat_app. simpl. by rewrite app_nil_r.
  - by rewrite Hc, app_nil_r in Hsub.
Qed.

Lemma split_plain_no_sep (c : ascii) (t : str) :
  c ∉ t -> split_plain c t = [t].
Proof.
  induction t as [|x t IH]; intros Hc; simpl; [done|].
  apply not_elem_of_cons in Hc as [Hx Ht].
  unfold chr_eqb. destruct (Ascii.eqb x c) eqn:E.
  - apply Ascii.eqb_eq in E. by subst.
  - by rewrite IH.
Qed.

Lemma split_plain_cut (c : ascii) (a b : str) :
  c ∉ a -> split_plain c (a ++ c :: b) = a :: split_plain c b.
Proof.
  induction a as [|x a IH]; intros Hc; simpl.
  - unfold chr_eqb. by rewrite Ascii.eqb_refl.
  - apply not_elem_of_cons in Hc as [Hx Ha].
    unfold chr_eqb. destruct (Ascii.eqb x c) eqn:E.
    + apply Ascii.eqb_eq in E. by subst.
    + by rewrite IH.
Qed.

Lemma split_plain_free (c : ascii) (s : str) :
  Forall (fun seg => c ∉ seg) (split_plain c s).
Proof.
  induction s as [|x s IH]; simpl.
  - constructor; [apply not_elem_of_nil|constructor].
  - unfold chr_eqb. destruct (Ascii.eqb x c) eqn:E.
    + constructor; [apply not_elem_of_nil|done].
    + apply Ascii.eqb_neq in E.
      destruct (split_plain c s) as [|h t]; inversion IH; subst.
      * constructor; [|constructor]. apply not_elem_of_cons. split; [congruence|apply not_elem_of_nil].
      * constructor; [|done]. apply not_elem_of_cons. split; [congruence|done].
Qed.

Lemma slice_cut (string : str) (left i : nat) (x : ascii) :
  (left <= i)%nat -> string !! i = Some x ->
  drop left string = slice left i string ++ x :: drop (i + 1) string.
Proof.
  intros Hle Hi. unfold slice.
  assert (Hlen : (i < length string)%nat) by (eapply lookup_lt_Some; eauto).
  rewrite <- (take_drop i string) at 1.
  rewrite drop_app_le by (rewrite length_take; lia).
  f_equal. replace (i + 1)%nat with (S i) by lia. by apply drop_S.
Qed.

Lemma slice_snoc (string : str) (left i : nat) (x : ascii) :
  (left <= i)%nat -> string !! i = Some x ->
  slice left (i + 1) string = slice left i string ++ [x].
Proof.
  intros Hle Hi. unfold slice.
  assert (Hlen : (i < length string)%nat) by (eapply lookup_lt_Some; eauto).
  replace (i + 1)%nat with (S i) by lia.
  rewrite (take_S_r _ _ _ Hi).
  by rewrite drop_app_le by (rewrite length_take; lia).
Qed.

Lemma slice_empty (string : str) (i : nat) : slice i i string = [].
Proof. unfold slice. apply drop_ge. rewrite length_take. lia. Qed.

Lemma plain_inv_step (c : ascii) (string : str) (i left : nat)
    (retlist : list str) (x : ascii) :
  string !! i = Some x -> plain_inv c string i left retlist ->
  if chr_eqb x c
  then plain_inv c string (i + 1) (i + 1)
         (retlist ++ [slice left i string])
  else plain_inv c string (i + 1) left retlist.
Proof.
  intros Hi (Hle & Hfree & Heq). unfold chr_eqb.
  destruct (Ascii.eqb x c) eqn:E.
  - apply Ascii.eqb_eq in E. subst x. split_and!; [lia| |].
    + rewrite slice_empty. apply not_elem_of_nil.
    + rewrite <- Heq, <- app_assoc. f_equal. simpl.
      rewrite (slice_cut string left i c Hle Hi).
      by rewrite split_plain_cut.
  - apply Ascii.eqb_neq in E. split_and!; [lia| |done].
    rewrite (slice_snoc _ _ _ _ Hle Hi). apply not_elem_of_app.
    split; [done|]. apply not_elem_of_cons. split; [congruence|apply not_elem_of_nil].
Qed.

Lemma plain_inv_end (c : ascii) (string : str) (left : nat)
    (retlist : list str) :
  plain_inv c string (length string) left retlist ->
  retlist ++ [drop left string] = split_plain c string.
Proof.
  intros (Hle & Hfree & Heq). rewrite <- Heq. f_equal.
  symmetry. apply split_plain_no_sep.
  unfold slice in Hfree. by rewrite firstn_all in Hfree.
Qed.

Lemma not_bracket (x : ascii) :
  is_bracket x = false ->
  chr_eqb x "(" = false /\ chr_eqb x ")" = false /\
  chr_eqb x "[" = false /\ chr_eqb x "]" = false.
Proof.
  unfold is_bracket. intros H.
  repeat (apply orb_false_iff in H as [H ?]). by split_and!.
Qed.

Lemma paren_split_plain_fold (c : ascii) (string : str) :
  Forall (fun x => is_bracket x = false) string ->
  forall (n a : nat) (st : ps_state),
  (a + n <= length string)%nat ->
  ps_level st = 0 -> ps_blevel st = 0 ->
  plain_inv c string a (ps_left st) (ps_retlist st) ->
  let st' := fold_left (paren_split_step c string) (seq a n) st in
  plain_inv c string (a + n) (ps_left st') (ps_retlist st').
Proof.
  intros Hnb. induction n as [|n IH]; intros a st Hn Hl Hb Hinv; simpl.
  - by rewrite Nat.add_0_r.
  - destruct (lookup_lt_is_Some_2 string a) as [x Hx]; [lia|].
    assert (Hxb : is_bracket x = false).
    { rewrite Forall_forall in Hnb. apply Hnb.
      by eapply list_elem_of_lookup_2. }
    destruct (not_bracket x Hxb) as (E1 & E2 & E3 & E4).
    pose proof (plain_inv_step c string a _ _ x Hx Hinv) as Hstep.
    replace (a + S n)%nat with (S a + n)%nat by lia.
    replace (a + 1)%nat with (S a) in Hstep by lia.
    apply IH; [lia| | |]; unfold paren_split_step; rewrite Hx, E1, E2, E3, E4,
      Hl, Hb; simpl; rewrite andb_true_r; destruct (chr_eqb x c); simpl;
      try done.
    all: by replace (a + 1)%nat with (S a) by lia.
Qed.

(** X3. On a text without parentheses and brackets, [paren_split] cuts at
    every separator: it returns what [split] returns, and no segment holds
    the separator. *)
Theorem paren_split_plain (c : ascii) (string : str) :
  Forall (fun x => is_bracket x = false) string ->
  paren_split [c] string = Ok (split_plain c string) /\
  Forall (fun seg => c ∉ seg) (split_plain c string).
Proof.
  intros Hnb. split; [|apply split_plain_free].
  unfold paren_split. f_equal.
  apply plain_inv_end.
  apply (paren_split_plain_fold c string Hnb (length string) 0%nat
           (PS 0 0 0%nat [])); try done.
  split_and!; [done| |done].
  rewrite slice_empty. apply not_elem_of_nil.
Qed.

Lemma paren_split_plain_witness :
  paren_split [","%char] (lit "a,b,,c")
  = Ok (split_plain "," (lit "a,b,,c")) /\
  Forall (fun seg => ","%char ∉ seg) (split_plain "," (lit "a,b,,c")).
Proof.
  apply (paren_split_plain "," (lit "a,b,,c")).
  apply (bool_decide_unpack _). by vm_compute.
Defined.

Lemma quote_split_plain_loop (c : ascii) (string : str) :
  Forall (fun x => is_quote x = false) string ->
  forall (fuel : nat) (st : qs_state),
  (length string - qs_i st <= fuel)%nat ->
  (qs_i st <= length string)%nat ->
  qs_squote st = false -> qs_dquote st = false ->
  plain_inv c string (qs_i st) (qs_left st) (qs_retlist st) ->
  exists st',
    while_loop fuel (quote_split_cond string) (quote_split_body c string) st
    = Some st' /\
    plain_inv c string (length string) (qs_left st') (qs_retlist st').
Proof.
  intros Hnq. induction fuel as [|fuel IH]; intros st Hf Hi Hs Hd Hinv;
    simpl; unfold quote_split_cond at 1;
    destruct (Nat.ltb (qs_i st) (length string)) eqn:Hc.
  - apply Nat.ltb_lt in Hc. lia.
  - apply Nat.ltb_ge in Hc. exists st. split; [done|].
    by replace (length string) with (qs_i st) by lia.
  - apply Nat.ltb_lt in Hc.
    destruct (lookup_lt_is_Some_2 string (qs_i st)) as [x Hx]; [lia|].
    assert (Hxq : is_quote x = false).
    { rewrite Forall_forall in Hnq. apply Hnq.
      by eapply list_elem_of_lookup_2. }
    unfold is_quote in Hxq. apply orb_false_iff in Hxq as [E1 E2].
    pose proof (plain_inv_step c string _ _ _ x Hx Hinv) as Hstep.
    assert (Hbody : quote_split_body c string st
                    = if chr_eqb x c
                      then QS false false (qs_i st + 1)%nat (qs_i st + 1)%nat
                             (qs_retlist st ++ [slice (qs_left st) (qs_i st) string])
                      else QS false false (qs_left st) (qs_i st + 1)%nat
                             (qs_retlist st)).
    { unfold quote_split_body, char_at. rewrite Hx, E1, E2, Hs, Hd. simpl.
      rewrite !andb_true_r. by destruct (chr_eqb x c). }
    rewrite Hbody. destruct (chr_eqb x c); apply IH; simpl; try done; lia.
  - apply Nat.ltb_ge in Hc. exists st. split; [done|].
    by replace (length string) with (qs_i st) by lia.
Qed.

(** X4. On a text without quote characters, [quote_split] cuts at every
    separator: it returns what [split] returns, and no segment holds the
    separator. *)
Theorem quote_split_plain (c : ascii) (string : str) :
  Forall (fun x => is_quote x = false) string ->
  quote_split [c] string = Ok (split_plain c string) /\
  Forall (fun seg => c ∉ seg) (split_plain c string).
Proof.
  intros Hnq. split; [|apply split_plain_free].
  unfold quote_split.
  destruct (quote_split_plain_loop c string Hnq (length string)
              (QS false false 0%nat 0%nat [])) as (st' & -> & Hinv);
    simpl; try done; try lia.
  - split_and!; [done| |done]. rewrite slice_empty. apply not_elem_of_nil.
  - f_equal. by apply plain_inv_end.
Qed.

Lemma quote_split_plain_witness :
  quote_split [","%char] (lit "f(a,b),c")
  = Ok (split_plain "," (lit "f(a,b),c")) /\
  Forall (fun seg => ","%char ∉ seg) (split_plain "," (lit "f(a,b),c")).
Proof.
  apply (quote_split_plain "," (lit "f(a,b),c")).
  apply (bool_decide_unpack _). by vm_compute.
Defined.

Example split_plain_example :
  split_plain "," (lit "a,b,,c") = [lit "a"; lit "b"; []; lit "c"].
Proof. reflexivity. Qed.

(** X5. [get_parens] returns the text before the first character at which
    the scan may stop: when [line] is [r] followed by nothing or by a
    character that stops the scan, the depths of [r] are the requested ones
    and the scan stops nowhere inside [r], the result is [r]. *)
Theorem get_parens_first_stop (line r rest : str) (retlevel retblevel : Z) :
  line <> [] -> line = r ++ rest ->
  paren_depth r = retlevel -> bracket_depth r = retblevel ->
  reads_all retlevel retblevel r ->
  (rest = [] \/ exists c rest', rest = c :: rest' /\ is_stop c = true) ->
  get_parens line retlevel retblevel = Ok r.
Proof.
  intros Hne Hline Hp Hb Hall Hrest.
  assert (Hg : get_parens line retlevel retblevel
               = get_parens_loop line line [] (paren_depth [])
                   (bracket_depth []) retlevel retblevel)
    by (by destruct line).
  pose proof (get_parens_loop_spec line retlevel retblevel line []) as H.
  rewrite Hg. clear Hg.
  destruct (get_parens_loop line line [] _ _ _ _) as [r'|e|]; [| |done].
  - destruct H as (a & b & Hl & Hr & H1 & H2 & H3 & H4). simpl in Hr.
    subst r'. f_equal.
    rewrite Hline in Hl. apply app_eq_inv in Hl as [(k & -> & ->)|(k & -> & ->)].
    + destruct k as [|c k]; [by rewrite app_nil_r|]. exfalso.
      destruct H3 as [?|(c' & rest' & [= <- <-] & Hc)]; [done|].
      by apply (Hall a c k eq_refl).
    + destruct k as [|c k]; [by rewrite app_nil_r|]. exfalso.
      destruct Hrest as [?|(c' & rest' & [= <- <-] & Hc)]; [done|].
      by apply (H4 r c k eq_refl).
  - exfalso. destruct H as (_ & H1 & H2). simpl in H1, H2.
    destruct Hrest as [->|(c & rest' & -> & Hc)].
    + rewrite app_nil_r in Hline. subst. by apply H2.
    + by apply (H1 r c rest' Hline).
Qed.

Lemma get_parens_first_stop_witness :
  get_parens (lit "(a,b) :: x") 0 0 = Ok (lit "(a,b)").
Proof.
  apply (get_parens_first_stop (lit "(a,b) :: x") (lit "(a,b)") (lit " :: x")).
  - by vm_compute.
  - reflexivity.
  - reflexivity.
  - reflexivity.
  - intros a c b H (Hs & Hp & Hb). vm_compute in H.
    destruct a as [|x1 [|x2 [|x3 [|x4 [|x5 a]]]]]; simplify_eq.
    all: try (by vm_compute in Hs). all: try (by vm_compute in Hp).
    all: try by destruct a.
  - right. by eexists _, _.
Defined.

End ScannerMore.

(** ** The macro registry *)

Section MacroMore.

Import Macros.

Lemma starts_with_app (p b : str) : starts_with p (p ++ b) = true.
Proof.
  induction p as [|x p IH]; simpl; [done|].
  unfold chr_eqb. by rewrite Ascii.eqb_refl.
Qed.

Lemma starts_with_true (p s : str) :
  starts_with p s = true -> exists b, s = p ++ b.
Proof.
  revert s. induction p as [|x p IH]; intros s; simpl; [by exists s|].
  destruct s as [|y s]; [done|]. intros H.
  apply andb_true_iff in H as [H1 H2]. apply chr_eqb_eq in H1. subst y.
  destruct (IH s H2) as [b ->]. by exists b.
Qed.

Lemma replace_from_skip (old new a rest : str) :
  replace_from old new (a ++ rest) (length a) = replace_from old new rest 0.
Proof. induction a as [|c a IH]; [done|]. simpl. exact IH. Qed.

Lemma replace_from_absent (old new s : str) :
  ~ occurs old s -> replace_from old new s 0 = s.
Proof.
  induction s as [|c s IH]; intros Hno; [done|].
  cbn [replace_from].
  destruct (starts_with old (c :: s)) eqn:E.
  - exfalso. apply starts_with_true in E as [b E]. apply Hno.
    exists [], b. by rewrite E.
  - f_equal. apply IH. intros (a & b & ->). apply Hno.
    by exists (c :: a), b.
Qed.

Lemma replace_absent (old new s : str) :
  old <> [] -> ~ occurs old s -> replace old new s = s.
Proof.
  intros Hne Hno. unfold replace. destruct old; [done|].
  by apply replace_from_absent.
Qed.

(** X7. [sub_macros] leaves a text as it is when no key of the dictionary
    occurs in it; so substituting again in a text that holds no key any more
    changes nothing. *)
Theorem sub_macros_absent (items : list (str * str)) (string : str) :
  (forall key val, In (key, val) items -> key <> [] /\ ~ occurs key string) ->
  sub_macros items string = string.
Proof.
  unfold sub_macros. induction items as [|[key val] items IH]; intros H;
    simpl; [done|].
  destruct (H key val) as [Hne Hno]; [by left|].
  rewrite replace_absent by done.
  apply IH. intros k v Hin. apply (H k v). by right.
Qed.

Lemma replace_from_leftmost (old new a b : str) :
  old <> [] ->
  ~ occurs old (a ++ removelast old) ->
  replace_from old new (a ++ old ++ b) 0
  = a ++ new ++ replace_from old new b 0.
Proof.
  intros Hne. induction a as [|c a IH]; intros Hno.
  - simpl app. destruct old as [|x old]; [done|].
    change ((x :: old) ++ b) with (x :: (old ++ b)).
    cbn [replace_from].
    change (x :: (old ++ b)) with ((x :: old) ++ b).
    rewrite starts_with_app.
    replace (length (x :: old) - 1)%nat with (length old) by (simpl; lia).
    by rewrite replace_from_skip.
  - change ((c :: a) ++ old ++ b) with (c :: (a ++ old ++ b)).
    cbn [replace_from].
    destruct (starts_with old (c :: a ++ old ++ b)) eqn:E.
    + exfalso. apply starts_with_true in E as [q E]. apply Hno.
      (* old is a prefix of (c :: a) ++ old ++ b, and not longer than
         (c :: a) ++ removelast old *)
      assert (Hlen : (length old <= length ((c :: a) ++ removelast old))%nat).
      { rewrite length_app. simpl.
        assert (length (removelast old) = length old - 1)%nat.
        { clear -Hne. induction old as [|x [|y old] IH]; [done|done|].
          simpl in *. rewrite IH by done. lia. }
        destruct old; [done|]. simpl in *. lia. }
      exists [], (drop (length old) ((c :: a) ++ removelast old)).
      assert (Hsplit : c :: a ++ old ++ b
                       = ((c :: a) ++ removelast old) ++ [List.last old c] ++ b).
      { rewrite (app_removelast_last c Hne) at 1.
        simpl. by rewrite <- !app_assoc. }
      assert (Hold : old = take (length old) ((c :: a) ++ removelast old)).
      { transitivity (take (length old) (old ++ q));
          [by rewrite take_app_length|].
        rewrite <- E, Hsplit. by rewrite take_app_le. }
      change ((c :: a) ++ removelast old
              = old ++ drop (length old) ((c :: a) ++ removelast old)).
      etrans; [symmetry; apply (take_drop (length old))|].
      f_equal. by rewrite <- Hold.
    + simpl app. f_equal. apply IH. intros (p & q & Hpq). apply Hno.
      exists (c :: p), q. simpl. by rewrite Hpq.
Qed.

Lemma replace_leftmost (old new a b : str) :
  old <> [] ->
  ~ occurs old (a ++ removelast old) ->
  replace old new (a ++ old ++ b) = a ++ new ++ replace old new b.
Proof.
  intros Hne Hno. unfold replace. destruct old as [|x old]; [done|].
  by apply replace_from_leftmost.
Qed.

(** X6. The table is written once: whatever the definition and however
    [register_macro] ends, every key that was registered keeps its value;
    when it returns (value, key), the key holds the value afterwards; when
    it raises, the dictionary is as it was. *)
Theorem register_macro_write_once (string : str) (d : gmap str str) :
  (forall key val, d !! key = Some val ->
     (register_macro string d).1 !! key = Some val) /\
  (forall val key, (register_macro string d).2 = Ok (val, key) ->
     (register_macro string d).1 !! key = Some val) /\
  (forall e, (register_macro string d).2 = Raise e ->
     (register_macro string d).1 = d).
Proof.
  unfold register_macro.
  destruct (split_first "=" string) as [[chunk0 chunk1]|]; [|by split_and!].
  set (key := lit "|" ++ strip chunk0 ++ lit "|").
  set (val := strip chunk1).
  destruct (d !! key) as [old|] eqn:Hd.
  - destruct (str_eqb val old) eqn:E; simpl.
    + apply str_eqb_true in E. subst old. rewrite insert_id by done.
      split_and!; try done. by intros v k [= <- <-].
    + by split_and!.
  - simpl. split_and!; try done.
    + intros k v Hk. rewrite lookup_insert_ne; [done|]. congruence.
    + intros v k [= <- <-]. by rewrite lookup_insert_eq.
Qed.

Lemma occurs_occursb (old s : str) : occurs old s -> occursb old s = true.
Proof.
  assert (Hunfold : forall t, occursb old t
                     = starts_with old t
                       || match t with [] => false | _ :: t' => occursb old t' end)
    by (by intros []).
  intros (a & b & ->). induction a as [|c a IH].
  - simpl app. by rewrite Hunfold, starts_with_app.
  - change ((c :: a) ++ old ++ b) with (c :: (a ++ old ++ b)).
    rewrite Hunfold. cbv iota beta. rewrite IH. apply orb_true_r.
Qed.

Lemma register_macro_write_once_witness :
  let d := ({[ lit "|lib|" := lit "/opt/lib" ]} : gmap str str) in
  (register_macro (lit "lib = /usr/lib") d).1 !! lit "|lib|"
  = Some (lit "/opt/lib") /\
  (register_macro (lit "doc = /usr/doc") d).1 !! lit "|doc|"
  = Some (lit "/usr/doc") /\
  (register_macro (lit "lib = /usr/lib") d).1 = d.
Proof.
  intros d. split_and!.
  - by apply (proj1 (register_macro_write_once (lit "lib = /usr/lib") d)).
  - by apply (proj1 (proj2 (register_macro_write_once (lit "doc = /usr/doc")
                              d))).
  - by eapply (proj2 (proj2 (register_macro_write_once (lit "lib = /usr/lib")
                               d))).
Defined.

Lemma sub_macros_absent_witness :
  sub_macros [(lit "|lib|", lit "/opt/lib"); (lit "|doc|", lit "/usr/doc")]
    (lit "see |docs| and lib")
  = lit "see |docs| and lib".
Proof.
  apply (sub_macros_absent
           [(lit "|lib|", lit "/opt/lib"); (lit "|doc|", lit "/usr/doc")]
           (lit "see |docs| and lib")).
  intros key val [[= <- <-]|[[= <- <-]|[]]]; (split; [done|]);
    intros H; apply occurs_occursb in H; by vm_compute in H.
Defined.

(** X8. Where a key occurs in a text for the first time, [sub_macros] with
    that one macro puts the value in its place, keeps the text before it,
    and goes on after the occurrence: the value put in is not read again. *)
Theorem sub_macros_leftmost (key val a b : str) :
  key <> [] ->
  ~ occurs key (a ++ removelast key) ->
  sub_macros [(key, val)] (a ++ key ++ b)
  = a ++ val ++ sub_macros [(key, val)] b.
Proof. intros Hne Hno. by apply replace_leftmost. Qed.

Lemma sub_macros_leftmost_witness :
  sub_macros [(lit "|x|", lit "a|x|b")] (lit "1|x|2|x|")
  = lit "1" ++ lit "a|x|b" ++ sub_macros [(lit "|x|", lit "a|x|b")] (lit "2|x|").
Proof.
  apply (sub_macros_leftmost (lit "|x|") (lit "a|x|b") (lit "1") (lit "2|x|")).
  - done.
  - intros H. apply occurs_occursb in H. by vm_compute in H.
Defined.

Example sub_macros_example :
  let d := (register_macro (lit "docroot = https://example.com/docs") ∅).1 in
  sub_macros (map_to_list d) (lit "|docroot|/page.html")
  = lit "https://example.com/docs/page.html".
Proof. by vm_compute. Qed.

Example replace_empty_example :
  replace [] (lit "-") (lit "abc") = lit "-a-b-c-".
Proof. reflexivity. Qed.

End MacroMore.

(** ** Conversions *)

Section ConversionProperties.

Import Conversions.

Lemma lower_upper_chr (c : ascii) : lower_chr (upper_chr c) = lower_chr c.
Proof. destruct c as [[] [] [] [] [] [] [] []]; reflexivity. Qed.

Lemma upper_lower_chr (c : ascii) : upper_chr (lower_chr c) = upper_chr c.
Proof. destruct c as [[] [] [] [] [] [] [] []]; reflexivity. Qed.

Lemma lower_lower_chr (c : ascii) : lower_chr (lower_chr c) = lower_chr c.
Proof. destruct c as [[] [] [] [] [] [] [] []]; reflexivity. Qed.

Lemma lower_lower (s : str) : lower (lower s) = lower s.
Proof.
  unfold lower. rewrite map_map. apply map_ext. apply lower_lower_chr.
Qed.

Lemma lower_capitalize (s : str) : lower (capitalize s) = lower s.
Proof.
  destruct s as [|c s]; [done|]. simpl.
  rewrite lower_upper_chr. f_equal. apply lower_lower.
Qed.

Lemma capitalize_lower (s : str) : capitalize (lower s) = capitalize s.
Proof.
  destruct s as [|c s]; [done|]. simpl.
  rewrite upper_lower_chr. f_equal. apply lower_lower.
Qed.

Lemma capitalize_eq (s word : str) :
  lower s = lower word -> capitalize s = capitalize word.
Proof. intros H. by rewrite <- (capitalize_lower s), H, capitalize_lower. Qed.

Lemma capitalize_eq_inv (s word : str) :
  capitalize s = capitalize word -> lower s = lower word.
Proof. intros H. by rewrite <- (lower_capitalize s), H, lower_capitalize. Qed.

(** X9. [str_to_bool] reads a string without regard to the case of its
    letters: it returns [True] for the strings that are [true] in lower
    case, [False] for those that are [false] in lower case, and raises
    [ValueError] for every other string. *)
Theorem str_to_bool_ignores_case (s : str) :
  (lower s = lit "true" -> str_to_bool (IsStr s) = Ok true) /\
  (lower s = lit "false" -> str_to_bool (IsStr s) = Ok false) /\
  (lower s <> lit "true" -> lower s <> lit "false" ->
   str_to_bool (IsStr s) = Raise (not_a_bool s)).
Proof.
  unfold str_to_bool. split_and!.
  - intros H. rewrite (capitalize_eq s (lit "true")) by done. done.
  - intros H. rewrite (capitalize_eq s (lit "false")) by done. done.
  - intros H1 H2.
    destruct (str_eqb (capitalize s) (lit "True")) eqn:E1.
    { apply str_eqb_true in E1. exfalso. apply H1.
      by apply (capitalize_eq_inv s (lit "true")). }
    destruct (str_eqb (capitalize s) (lit "False")) eqn:E2; [|done].
    apply str_eqb_true in E2. exfalso. apply H2.
    by apply (capitalize_eq_inv s (lit "false")).
Qed.

Lemma str_to_bool_ignores_case_witness :
  str_to_bool (IsStr (lit "TRUE")) = Ok true /\
  str_to_bool (IsStr (lit "fAlSe")) = Ok false /\
  str_to_bool (IsStr (lit "yes")) = Raise (not_a_bool (lit "yes")).
Proof.
  split_and!.
  - by apply (str_to_bool_ignores_case (lit "TRUE")).
  - by apply (str_to_bool_ignores_case (lit "fAlSe")).
  - by apply (str_to_bool_ignores_case (lit "yes")).
Defined.

End ConversionProperties.

(** ** The link resolver *)

Section LinkMore.

Import Links.

Lemma sub_searchlist_space (item : Entity) (m : LinkMatch)
    (sublist : list Entity) :
  sub_space item (group4 m) sublist -> sub_searchlist item m = SubList sublist.
Proof.
  unfold sub_space, sub_searchlist. destruct (group4 m) as [cl|].
  - intros (val & -> & -> & ->). by destruct (str_eqb _ _).
  - by intros ->.
Qed.

(** X10. At a match with no sub-name whose primary name is found in the
    searched space, [sub_links] puts the anchor tag whose [href] is the URL
    of the first entity of that name and whose label is the name of that
    entity, as the entity spells it; nothing is printed. *)
Theorem sub_links_primary (project : Project) (s : str) (m : LinkMatch)
    (rest : str) (searchlist : list Entity) (item : Entity) :
  match_link s = Some (m, rest) ->
  search_space project (group2 m) searchlist ->
  find_named (group1 m) searchlist = Some item ->
  group3 m = None ->
  exists t lines,
    sub_links rest project = Ok (t, lines) /\
    sub_links s project
    = Ok (a_href (e_url item) (e_name item) ++ t, lines).
Proof.
  intros Hm Hsp Hitem H3.
  apply (convert_link_at project s m rest _ [] Hm).
  unfold convert_link.
  by rewrite (primary_searchlist_space project m searchlist Hsp), Hitem, H3.
Qed.

Lemma sub_links_primary_witness :
  exists t lines,
    sub_links [] one_type_project = Ok (t, lines) /\
    sub_links (lit "[[MYTYPE]]") one_type_project
    = Ok (a_href (e_url mytype) (e_name mytype) ++ t, lines).
Proof.
  apply (sub_links_primary one_type_project (lit "[[MYTYPE]]")
           (mkMatch (lit "[[MYTYPE]]") (lit "MYTYPE") None None None) []
           (all_collections one_type_project) mytype); reflexivity.
Defined.

(** X11. At a match with a sub-name whose primary name is found, and whose
    sub-classifier is absent or names an attribute that the entity found
    has: when an entity of the sub-search space has the sub-name, the match
    becomes the anchor tag of the first such entity ([href]: the URL of the
    primary entity, [#], the anchor of the sub-entity; label: its name) and
    nothing is printed; when none has, the match becomes the anchor tag of
    the primary entity alone and one line is printed. *)
Theorem sub_links_sub_step (project : Project) (s : str) (m : LinkMatch)
    (rest : str) (searchlist sublist : list Entity) (item : Entity)
    (sub : str) :
  match_link s = Some (m, rest) ->
  search_space project (group2 m) searchlist ->
  find_named (group1 m) searchlist = Some item ->
  group3 m = Some sub ->
  sub_space item (group4 m) sublist ->
  exists t lines,
    sub_links rest project = Ok (t, lines) /\
    sub_links s project
    = match find_named sub sublist with
      | Some obj =>
          Ok (a_href (e_url item ++ lit "#" ++ e_anchor obj) (e_name obj) ++ t,
              lines)
      | None =>
          Ok (a_href (e_url item) (e_name item) ++ t,
              [sub_not_found m (e_name item)] ++ lines)
      end.
Proof.
  intros Hm Hsp Hitem H3 Hsub.
  assert (Hc : convert_link project m
               = match find_named sub sublist with
                 | Some obj =>
                     Ok (a_href (e_url item ++ lit "#" ++ e_anchor obj)
                                (e_name obj), [])
                 | None =>
                     Ok (a_href (e_url item) (e_name item),
                         [sub_not_found m (e_name item)])
                 end).
  { unfold convert_link.
    by rewrite (primary_searchlist_space project m searchlist Hsp), Hitem, H3,
      (sub_searchlist_space item m sublist Hsub). }
  destruct (find_named sub sublist) as [obj|].
  - by apply (convert_link_at project s m rest _ [] Hm).
  - by apply (convert_link_at project s m rest _ _ Hm).
Qed.

Lemma sub_links_sub_step_witness :
  let s := lit "[[mytype:nothing(bound)]]" in
  let m := mkMatch s (lit "mytype") None (Some (lit "nothing"))
                   (Some (lit "bound")) in
  exists t lines,
    sub_links [] one_type_project = Ok (t, lines) /\
    sub_links s one_type_project
    = match find_named (lit "nothing") [] with
      | Some obj =>
          Ok (a_href (e_url mytype ++ lit "#" ++ e_anchor obj) (e_name obj)
              ++ t, lines)
      | None =>
          Ok (a_href (e_url mytype) (e_name mytype) ++ t,
              [sub_not_found m (e_name mytype)] ++ lines)
      end.
Proof.
  intros s m.
  apply (sub_links_sub_step one_type_project s m []
           (all_collections one_type_project) [] mytype (lit "nothing"));
    try reflexivity.
  exists (lit "boundprocs"). by split_and!.
Defined.

Lemma match_link_starts (s : str) (m : LinkMatch) (rest : str) :
  match_link s = Some (m, rest) -> exists s', s = lit "[[" ++ s'.
Proof.
  intros Hm. destruct (match_link_split s m rest Hm) as (-> & -> & _).
  rewrite markup_eq. rewrite <- app_assoc. by eexists.
Qed.

(** X12. A text in which two opening brackets never follow each other is
    returned as it is, and nothing is printed. *)
Theorem sub_links_no_link (project : Project) (s : str) :
  ~ Macros.occurs (lit "[[") s -> sub_links s project = Ok (s, []).
Proof.
  induction s as [|c s IH]; intros Hno; [done|].
  destruct (match_link (c :: s)) as [[m rest]|] eqn:Hm.
  - exfalso. apply match_link_starts in Hm as [s' Hs]. apply Hno.
    exists [], s'. by rewrite Hs.
  - rewrite (sub_links_no_match project c s Hm), IH; [done|].
    intros (a & b & ->). apply Hno. by exists (c :: a), b.
Qed.

Lemma sub_links_no_link_witness :
  sub_links (lit "a(1) = [b] + c[2]") one_type_project
  = Ok (lit "a(1) = [b] + c[2]", []).
Proof.
  apply (sub_links_no_link one_type_project (lit "a(1) = [b] + c[2]")).
  intros H. apply occurs_occursb in H. by vm_compute in H.
Defined.

(** X13. For every match, [convert_link] returns, prints at most one line,
    and prints nothing only when it puts an anchor tag with an [href]. *)
Theorem convert_link_one_line (project : Project) (m : LinkMatch) :
  exists text lines,
    convert_link project m = Ok (text, lines) /\
    (length lines <= 1)%nat /\
    (lines = [] -> exists url name, text = a_href url name).
Proof.
  unfold convert_link.
  destruct (primary_searchlist_total project m) as [[searchlist|] ->].
  2:{ eexists _, _. split; [done|]. split; [simpl; lia|done]. }
  destruct (find_named (group1 m) searchlist) as [item|].
  2:{ eexists _, _. split; [done|]. split; [simpl; lia|done]. }
  destruct (group3 m) as [sub|].
  2:{ eexists _, _. split; [done|]. split; [simpl; lia|]. by eexists _, _. }
  destruct (sub_searchlist item m) as [sublist| |].
  - destruct (find_named sub sublist) as [obj|];
      eexists _, _; (split; [done|]); (split; [simpl; lia|]);
      [by eexists _, _|done].
  - eexists _, _. split; [done|]. split; [simpl; lia|done].
  - eexists _, _. split; [done|]. split; [simpl; lia|done].
Qed.

Lemma find_named_app (wanted : str) (l1 l2 : list Entity) :
  find_named wanted (l1 ++ l2)
  = match find_named wanted l1 with
    | Some e => Some e
    | None => find_named wanted l2
    end.
Proof.
  unfold find_named. induction l1 as [|e l1 IH]; simpl; [done|].
  by destruct (str_eqb _ _).
Qed.

(** X14. A link without classifier looks among the modules first: when a
    module has the name, the link goes to that module, whatever the other
    collections hold. *)
Theorem sub_links_module_first (project : Project) (name rest : str)
    (item : Entity) :
  is_name name = true ->
  find_named name (modules project) = Some item ->
  exists t lines,
    sub_links rest project = Ok (t, lines) /\
    sub_links (markup name None None None ++ rest) project
    = Ok (a_href (e_url item) (e_name item) ++ t, lines).
Proof.
  intros Hname Hitem.
  set (m := mkMatch (markup name None None None) name None None None).
  assert (Hm : match_link (markup name None None None ++ rest) = Some (m, rest)).
  { apply match_link_markup. unfold well_formed. by split_and!. }
  apply (convert_link_at project _ m rest _ [] Hm).
  unfold convert_link.
  rewrite (primary_searchlist_space project m (all_collections project))
    by done.
  unfold all_collections. cbn [group1 group3 m].
  by rewrite find_named_app, Hitem.
Qed.

Lemma sub_links_module_first_witness :
  exists t lines,
    sub_links [] two_things_project = Ok (t, lines) /\
    sub_links (markup (lit "Thing") None None None ++ []) two_things_project
    = Ok (a_href (e_url thing_module) (e_name thing_module) ++ t, lines).
Proof.
  apply (sub_links_module_first two_things_project (lit "Thing") []
           thing_module); reflexivity.
Defined.

Lemma span_word_word (s w r : str) :
  span_word s = (w, r) -> forallb is_word w = true.
Proof.
  revert w r. induction s as [|c s IH]; intros w r; simpl.
  - by intros [= <- <-].
  - destruct (is_word c) eqn:E; [|by intros [= <- <-]].
    destruct (span_word s) as [w' r']. intros [= <- <-]. simpl.
    by rewrite E, (IH w' r' eq_refl).
Qed.

Lemma word_plus_ident (s w r : str) :
  word_plus s = Some (w, r) -> is_ident w = true.
Proof.
  unfold word_plus, is_ident. destruct (span_word s) as [w' r'] eqn:E.
  apply span_word_word in E. destruct w' as [|c w']; [done|].
  intros [= <- <-]. by rewrite E.
Qed.

Lemma ident_no_dot (w : str) : is_ident w = true -> "."%char ∉ w.
Proof.
  unfold is_ident. intros H. apply andb_true_iff in H as [_ H].
  rewrite forallb_forall in H. intros Hin.
  apply list_elem_of_In in Hin. by apply H in Hin.
Qed.

Lemma ident_is_name (w : str) : is_ident w = true -> is_name w = true.
Proof.
  intros H. unfold is_name.
  by rewrite (split_first_None _ _ (ident_no_dot w H)).
Qed.

Lemma primary_name_is_name (s n r : str) :
  primary_name s = Some (n, r) -> is_name n = true.
Proof.
  unfold primary_name.
  destruct (word_plus s) as [[n1 [|c s2]]|] eqn:E; [| |done].
  - intros [= <- <-]. apply ident_is_name. by eapply word_plus_ident.
  - apply word_plus_ident in E.
    destruct (chr_eqb c ".") eqn:Ec;
      [|intros [= <- <-]; by apply ident_is_name].
    apply chr_eqb_eq in Ec. subst c.
    destruct (word_plus s2) as [[n2 s3]|] eqn:E2;
      [|intros [= <- <-]; by apply ident_is_name].
    apply word_plus_ident in E2. intros [= <- <-].
    unfold is_name. rewrite split_first_app by (by apply ident_no_dot).
    by rewrite E, E2.
Qed.

Lemma opt_classifier_ident (s : str) (g : option str) (r : str) :
  opt_classifier s = Some (g, r) ->
  forall cl, g = Some cl -> is_ident cl = true.
Proof.
  unfold opt_classifier. destruct s as [|c s]; [by intros [= <- <-]|].
  destruct (chr_eqb c "("); [|by intros [= <- <-]].
  destruct (word_plus s) as [[w [|c' s2]]|] eqn:Ew; try done.
  destruct (chr_eqb c' ")"); [|done].
  intros [= <- <-] cl [= <-]. by eapply word_plus_ident.
Qed.

Lemma opt_sub_ident (s : str) (g3 g4 : option str) (r : str) :
  opt_sub s = Some (g3, g4, r) ->
  (forall sub, g3 = Some sub -> is_ident sub = true) /\
  (forall cl, g4 = Some cl -> is_ident cl = true).
Proof.
  unfold opt_sub. destruct s as [|c s]; [by intros [= <- <- <-]|].
  destruct (chr_eqb c ":"); [|by intros [= <- <- <-]].
  destruct (word_plus s) as [[w s2]|] eqn:Ew; [|done].
  destruct (opt_classifier s2) as [[cl s3]|] eqn:Ec; [|done].
  intros [= <- <- <-]. split.
  - intros sub [= <-]. by eapply word_plus_ident.
  - by eapply opt_classifier_ident.
Qed.

Lemma match_link_well_formed (s : str) (m : LinkMatch) (rest : str) :
  match_link s = Some (m, rest) ->
  well_formed (group1 m) (group2 m) (group3 m) (group4 m).
Proof.
  intros Hm. pose proof (match_link_split s m rest Hm) as (_ & _ & H34).
  revert Hm. unfold match_link.
  destruct s as [|c1 [|c2 s1]]; [done|done|].
  destruct (chr_eqb c1 "[" && chr_eqb c2 "["); [|done].
  destruct (primary_name s1) as [[g1 s2]|] eqn:Ep; [|done].
  destruct (opt_classifier s2) as [[g2 s3]|] eqn:Ec; [|done].
  destruct (opt_sub s3) as [[[g3 g4] [|c3 [|c4 r]]]|] eqn:Es; try done.
  destruct (chr_eqb c3 "]" && chr_eqb c4 "]"); [|done].
  intros [= <- <-]. cbn [group1 group2 group3 group4] in *.
  destruct (opt_sub_ident _ _ _ _ Es) as [H3 H4].
  split_and!; try done.
  - by eapply primary_name_is_name.
  - by eapply opt_classifier_ident.
Qed.

(** X15. What [LINK_RE] matches at the front of a text: exactly the markup
    of well-formed fields (a primary name of one or two identifiers around a
    dot, identifiers for the classifiers and the sub-name, no sub-classifier
    without a sub-name), and it captures those fields. *)
Theorem match_link_iff (s : str) (m : LinkMatch) (rest : str) :
  match_link s = Some (m, rest) <->
  well_formed (group1 m) (group2 m) (group3 m) (group4 m) /\
  group0 m = markup (group1 m) (group2 m) (group3 m) (group4 m) /\
  s = group0 m ++ rest.
Proof.
  split.
  - intros Hm. destruct (match_link_split s m rest Hm) as (H1 & H2 & _).
    split_and!; try done. by eapply match_link_well_formed.
  - intros (Hwf & Hg & ->). destruct m as [g0 g1 g2 g3 g4]. simpl in *.
    subst g0. by apply match_link_markup.
Qed.

Lemma same_but_case_None (g g' : option str) :
  same_but_case g g' -> g = None <-> g' = None.
Proof. by destruct g, g'. Qed.

Lemma convert_link_case (project : Project) (m m' : LinkMatch) (text : str) :
  lower (group1 m) = lower (group1 m') ->
  same_but_case (group2 m) (group2 m') ->
  same_but_case (group3 m) (group3 m') ->
  same_but_case (group4 m) (group4 m') ->
  convert_link project m = Ok (text, []) ->
  convert_link project m' = Ok (text, []).
Proof.
  intros H1 H2 H3 H4. unfold convert_link.
  assert (Hp : primary_searchlist project m' = primary_searchlist project m).
  { unfold primary_searchlist.
    destruct (group2 m) as [cl|], (group2 m') as [cl'|]; try done.
    simpl in H2. by rewrite H2. }
  rewrite Hp.
  destruct (primary_searchlist project m) as [[searchlist|]|e|]; try done.
  assert (Hf : find_named (group1 m') searchlist
               = find_named (group1 m) searchlist).
  { unfold find_named. by rewrite H1. }
  rewrite Hf. destruct (find_named (group1 m) searchlist) as [item|]; [|done].
  destruct (group3 m) as [sub|], (group3 m') as [sub'|]; try done.
  simpl in H3.
  assert (Hs : sub_searchlist item m' = sub_searchlist item m).
  { unfold sub_searchlist.
    destruct (group4 m) as [cl|], (group4 m') as [cl'|]; try done.
    simpl in H4. by rewrite H4. }
  rewrite Hs. destruct (sub_searchlist item m) as [sublist| |]; try done.
  assert (Hf' : find_named sub' sublist = find_named sub sublist).
  { unfold find_named. by rewrite H3. }
  rewrite Hf'. by destruct (find_named sub sublist).
Qed.

(** X16. A link that resolves with nothing printed resolves to the same
    text however the letters of its names and classifiers are cased. *)
Theorem sub_links_ignores_case (project : Project) (g1 g1' : str)
    (g2 g2' g3 g3' g4 g4' : option str) (text rest : str) :
  well_formed g1 g2 g3 g4 -> well_formed g1' g2' g3' g4' ->
  lower g1 = lower g1' ->
  same_but_case g2 g2' -> same_but_case g3 g3' -> same_but_case g4 g4' ->
  sub_links (markup g1 g2 g3 g4) project = Ok (text, []) ->
  sub_links (markup g1' g2' g3' g4' ++ rest) project
  = and_then (Ok (text, [])) (sub_links rest project).
Proof.
  intros Hwf Hwf' H1 H2 H3 H4 Hs.
  pose proof (match_link_markup g1 g2 g3 g4 [] Hwf) as Hm.
  pose proof (match_link_markup g1' g2' g3' g4' rest Hwf') as Hm'.
  rewrite app_nil_r in Hm.
  rewrite (sub_links_match project _ _ _ Hm) in Hs.
  rewrite (sub_links_match project _ _ _ Hm'). f_equal.
  apply (convert_link_case project
           (mkMatch (markup g1 g2 g3 g4) g1 g2 g3 g4)); try done.
  destruct (convert_link project _) as [[t l]|e|]; try done.
  simpl in Hs. injection Hs as <- Hl.
  rewrite !app_nil_r in *. by subst.
Qed.

Lemma sub_links_ignores_case_witness :
  sub_links (markup (lit "MyType") (Some (lit "TYPE")) (Some (lit "MYVAR"))
               None ++ lit "!") one_type_project
  = and_then (Ok (a_href (lit "type/mytype.html#variable-myvar")
                         (lit "myvar"), []))
             (sub_links (lit "!") one_type_project).
Proof.
  apply (sub_links_ignores_case one_type_project (lit "mytype") (lit "MyType")
           (Some (lit "type")) (Some (lit "TYPE"))
           (Some (lit "myvar")) (Some (lit "MYVAR")) None None);
    try reflexivity; try done.
  - unfold well_formed. split_and!; try done; by intros ? [= <-].
  - unfold well_formed. split_and!; try done; by intros ? [= <-].
Defined.

End LinkMore.

(** ** The import of external projects *)

Section ImportMore.
Import Macros Interchange.
Local Open Scope nat_scope.

(** *** Records that cannot be read *)

Lemma getitem_dict (d : list (str * json)) (key : str) :
  getitem (JDict d) key
  = match assoc key d with Some v => Ok v | None => Raise (KeyError key) end.
Proof. reflexivity. Qed.

(** X17. A record that [dict2obj] cannot read creates nothing. When the
    record is not a dictionary the call raises [TypeError]; when a key is
    missing it raises [KeyError] for the first one missing of [name],
    [external_url] and [obj], in this order; when [external_url] is true but
    not a string it raises [AttributeError]. In each case the state is the
    one before the call. *)
Theorem dict2obj_malformed (w : World) (fuel : nat) (extDict : json) (url : str)
    (parent : option nat) (remote : bool) (st : state) :
  let run := dict2obj w (S fuel) extDict url parent remote st in
  ((forall d, extDict <> JDict d) -> run = (st, Raise TypeError)) /\
  (forall d, extDict = JDict d ->
     (assoc (lit "name") d = None ->
      run = (st, Raise (KeyError (lit "name")))) /\
     (forall name, assoc (lit "name") d = Some name ->
        (assoc (lit "external_url") d = None ->
         run = (st, Raise (KeyError (lit "external_url")))) /\
        (forall raw, assoc (lit "external_url") d = Some raw ->
           (truthy raw = true -> (forall s, raw <> JStr s) ->
            run = (st, Raise AttributeError)) /\
           (forall external_url,
              resolve_url w url remote raw = Ok external_url ->
              assoc (lit "obj") d = None ->
              run = (st, Raise (KeyError (lit "obj"))))))).
Proof.
  intros run. subst run. split.
  - intros Hd. cbn [dict2obj]. apply bind_lift_raise.
    destruct extDict; try done. by destruct (Hd d).
  - intros d ->. cbn [dict2obj]. split.
    + intros Hn. apply bind_lift_raise. by rewrite getitem_dict, Hn.
    + intros name Hn.
      rewrite (bind_lift_ok _ name) by (by rewrite getitem_dict, Hn). split.
      * intros Hu. apply bind_lift_raise. by rewrite getitem_dict, Hu.
      * intros raw Hu.
        rewrite (bind_lift_ok _ raw) by (by rewrite getitem_dict, Hu). split.
        -- intros Ht Hs. apply bind_lift_raise. unfold resolve_url.
           rewrite Ht. destruct raw; try done. by destruct (Hs s).
        -- intros external_url Hr Ho.
           rewrite (bind_lift_ok _ _ _ _ Hr). apply bind_lift_raise.
           unfold entity_tag. by rewrite getitem_dict, Ho.
Qed.

(** X18. A record of kind [interface] without the key [proctype], or of
    kind [type] without the key [extends], leaves a half-made object: the
    object is created and added to the list of the project, with no
    attribute set, and only then [KeyError] is raised for the missing
    key. *)
Theorem dict2obj_half_made (w : World) (fuel : nat) (d : list (str * json)) (url : str)
    (parent : option nat) (remote : bool) (st : state)
    (name raw external_url : json) (obj_type missing : str)
    (kind : EntityKind) (l : list nat) :
  assoc (lit "name") d = Some name ->
  assoc (lit "external_url") d = Some raw ->
  resolve_url w url remote raw = Ok external_url ->
  entity_tag (JDict d) = Ok obj_type ->
  (obj_type = lit "interface" /\ kind = ExternalInterface /\
   missing = lit "proctype"
   \/ obj_type = lit "type" /\ kind = ExternalType /\
      missing = lit "extends") ->
  assoc missing d = None ->
  project st !! project_list_of w kind = Some l ->
  dict2obj w (S fuel) (JDict d) url parent remote st
  = (mkState (heap st ++ [mkExtObj kind name external_url parent []])
             (<[project_list_of w kind := l ++ [length (heap st)]]>
                (project st))
             (log st) (macros st),
     Raise (KeyError missing)).
Proof.
  intros Hn Hu Hr Ht Hcase Hm Hl. cbn [dict2obj].
  rewrite (bind_lift_ok _ name) by (by rewrite getitem_dict, Hn).
  rewrite (bind_lift_ok _ raw) by (by rewrite getitem_dict, Hu).
  rewrite (bind_lift_ok _ _ _ _ Hr), (bind_lift_ok _ _ _ _ Ht).
  rewrite (bind_lift_ok _ kind)
    by (by destruct Hcase as [(-> & -> & _)|(-> & -> & _)]).
  unfold bind at 1 2, construct, register. cbn [heap project log macros].
  rewrite Hl. unfold fill.
  destruct Hcase as [(-> & -> & ->)|(-> & -> & ->)].
  - change (str_eqb (lit "interface") (lit "interface")) with true.
    cbv iota. unfold bind at 1.
    rewrite bind_lift_raise with (e := KeyError (lit "proctype"));
      [done|by rewrite getitem_dict, Hm].
  - change (str_eqb (lit "type") (lit "interface")) with false.
    change (str_eqb (lit "type") (lit "type")) with true.
    cbv iota. unfold bind at 1.
    rewrite bind_lift_raise with (e := KeyError (lit "extends"));
      [done|by rewrite getitem_dict, Hm].
Qed.

Lemma dict2obj_half_made_witness :
  let d := [(lit "name", JStr (lit "i")); (lit "external_url", JNull);
            (lit "obj", JStr (lit "Interface"))] in
  dict2obj demo_world 1 (JDict d) (lit "/x") None false demo_state
  = (mkState [mkExtObj ExternalInterface (JStr (lit "i")) JNull None []]
             (<[lit "extInterfaces" := [0]]> (project demo_state)) [] ∅,
     Raise (KeyError (lit "proctype"))).
Proof.
  intros d.
  apply (dict2obj_half_made demo_world 0 d (lit "/x") None false demo_state
           (JStr (lit "i")) JNull JNull (lit "interface") (lit "proctype")
           ExternalInterface []); try reflexivity.
  left. by split_and!.
Defined.

Lemma is_remote_slash (url : str) :
  is_remote url = true -> is_remote (url ++ lit "/") = true.
Proof.
  unfold is_remote. intros H. apply orb_true_iff in H as [H|H];
    apply bool_decide_eq_true in H; apply orb_true_iff; [left|right];
    apply bool_decide_eq_true; pose proof (f_equal length H) as Hlen;
    rewrite length_take in Hlen.
  - change (length (lit "http://")) with 7 in Hlen.
    by rewrite take_app_le by lia.
  - change (length (lit "https://")) with 8 in Hlen.
    by rewrite take_app_le by lia.
Qed.

(** X19. A remote source is read as if its address ended in a slash: the
    address without the slash and the address with it give the same
    location and the same document. *)
Theorem fetch_trailing_slash (w : World) (url : str) :
  is_remote url = true -> last url <> Some "/"%char ->
  fetch w url = fetch w (url ++ lit "/").
Proof.
  intros Hr Hl. unfold fetch.
  rewrite Hr, (is_remote_slash url Hr).
  rewrite (bool_decide_eq_false_2 _ Hl).
  rewrite bool_decide_eq_true_2; [done|].
  change (lit "/") with ["/"%char]. by rewrite last_snoc.
Qed.

Lemma fetch_trailing_slash_witness :
  fetch demo_world (lit "http://host")
  = fetch demo_world (lit "http://host" ++ lit "/").
Proof.
  apply (fetch_trailing_slash demo_world (lit "http://host")); [reflexivity|].
  by vm_compute.
Defined.

(** X20. A source without [=] ends the import with [RuntimeError] before
    anything is read or registered: the state is unchanged and the sources
    after it are not looked at. *)
Theorem external_bad_definition (w : World) (urldef : str) (rest : list str)
    (st : state) :
  "="%char ∉ urldef ->
  external w (urldef :: rest) st
  = (st, Raise (RuntimeError (no_alias_msg urldef))).
Proof.
  intros H. rewrite external_cons. unfold import_source, bind,
    register_macroM, register_macro.
  rewrite (split_first_None _ _ H). by destruct st.
Qed.

Lemma external_bad_definition_witness :
  external demo_world [lit "http://host"; lit "g = /gadget"] demo_state
  = (demo_state, Raise (RuntimeError (no_alias_msg (lit "http://host")))).
Proof.
  apply (external_bad_definition demo_world (lit "http://host")
           [lit "g = /gadget"] demo_state).
  apply (bool_decide_unpack _). by vm_compute.
Defined.

(** *** Export and import *)

Lemma assoc_app {A : Type} (k : str) (l1 l2 : list (str * A)) :
  assoc k (l1 ++ l2)
  = match assoc k l1 with Some v => Some v | None => assoc k l2 end.
Proof.
  induction l1 as [|[k' v] l1 IH]; simpl; [done|].
  by destruct (str_eqb k k').
Qed.

Lemma assoc_flat_map_empty {A : Type} (F : str -> list (str * A)) (k : str)
    (L : list str) :
  (forall a, F a = [] \/ exists v, F a = [(a, v)]) ->
  F k = [] -> assoc k (flat_map F L) = None.
Proof.
  intros HF Hk. induction L as [|b L IH]; [done|].
  simpl. rewrite assoc_app, IH.
  destruct (decide (b = k)) as [->|Hb]; [by rewrite Hk|].
  destruct (HF b) as [->|[vb ->]]; [done|]. simpl.
  assert (str_eqb k b = false) as -> by (apply str_eqb_false; congruence).
  done.
Qed.

Lemma assoc_flat_map {A : Type} (F : str -> list (str * A)) (k : str)
    (L : list str) :
  (forall a, F a = [] \/ exists v, F a = [(a, v)]) ->
  In k L -> assoc k (flat_map F L) = assoc k (F k).
Proof.
  intros HF. induction L as [|a L IH]; intros Hin; [done|]. simpl.
  rewrite assoc_app.
  destruct (decide (a = k)) as [->|Hne].
  - destruct (HF k) as [HFk|[v HFk]].
    + rewrite HFk. simpl. by apply assoc_flat_map_empty.
    + rewrite HFk. simpl. by rewrite str_eqb_refl.
  - destruct Hin as [?|Hin]; [done|].
    destruct (HF a) as [->|[va ->]]; simpl.
    + by apply IH.
    + assert (str_eqb k a = false) as -> by (apply str_eqb_false; congruence).
      by apply IH.
Qed.

Lemma obj2dict_getitem (name url obj : json) (proctype : option json)
    (extends : option (IntObj + json))
    (getattr_ : str -> option (attr IntObj)) (key : str) :
  In key ATTRIBUTES ->
  getitem (obj2dict (mkIntObj false name url obj proctype extends getattr_))
    key
  = match assoc key (exported_attr getattr_ key) with
    | Some v => Ok v
    | None => Raise (KeyError key)
    end.
Proof.
  intros Hin. cbn [obj2dict getitem].
  fold (exported_attr getattr_).
  assert (Hne : forall k', In k' [lit "name"; lit "external_url"; lit "obj";
                                  lit "proctype"; lit "extends"] ->
                           str_eqb key k' = false).
  { assert (Hd : Forall (fun x => x ∉ [lit "name"; lit "external_url";
                                       lit "obj"; lit "proctype";
                                       lit "extends"]) ATTRIBUTES).
    { apply (bool_decide_unpack _). by vm_compute. }
    rewrite Forall_forall in Hd.
    intros k' Hk'. apply str_eqb_false. intros ->.
    apply (Hd k'); by apply list_elem_of_In. }
  rewrite !assoc_app. cbn [assoc].
  rewrite !Hne by (simpl; tauto).
  assert (assoc key match proctype with
                    | Some p => [(lit "proctype", p)]
                    | None => []
                    end = None) as ->.
  { destruct proctype; [|done]. simpl. by rewrite Hne by (simpl; tauto). }
  assert (assoc key match extends with
                    | Some (inl t) => [(lit "extends", obj2dict t)]
                    | Some (inr v) => [(lit "extends", v)]
                    | None => []
                    end = None) as ->.
  { destruct extends as [[t|v]|]; [| |done]; simpl;
      by rewrite Hne by (simpl; tauto). }
  rewrite (assoc_flat_map (exported_attr getattr_) key ATTRIBUTES); [done| |done].
  intros a. unfold exported_attr.
  destruct (getattr_ a) as [[l|d|s]|]; eauto.
Qed.

Lemma flat_map_ext_In {A B : Type} (f g : A -> list B) (l : list A) :
  (forall a, In a l -> f a = g a) -> flat_map f l = flat_map g l.
Proof.
  induction l as [|a l IH]; intros H; simpl; [done|].
  rewrite (H a) by (by left). f_equal. apply IH. intros; apply H. by right.
Qed.

Lemma obj2dict_truthy (o : IntObj) :
  truthy (obj2dict o) = negb (io_is_external o).
Proof. destruct o as [[] name url obj proctype extends getattr_]; done. Qed.

Lemma exported_names_external (o : IntObj) :
  io_is_external o = true -> exported_names o = [].
Proof. destruct o as [[] name url obj proctype extends getattr_]; done. Qed.

Lemma preorder_obj2dict (fuel : nat) :
  forall o : IntObj,
  height (obj2dict o) < fuel -> preorder fuel (obj2dict o) = exported_names o.
Proof.
  induction fuel as [|fuel IH]; intros o Hh; [lia|].
  destruct o as [[] name url obj proctype extends getattr_]; [done|].
  set (o := mkIntObj false name url obj proctype extends getattr_) in *.
  cbn [preorder].
  change (getitem (obj2dict o) (lit "name")) with (@Ok json name).
  cbn [exported_names o]. f_equal.
  unfold children_order. apply flat_map_ext_In. intros key Hkey.
  pose proof (height_getitem (obj2dict o) key) as Hget.
  unfold o in Hget, Hh |- *. clear o.
  rewrite (obj2dict_getitem _ _ _ _ _ _ _ Hkey) in Hget |- *.
  unfold exported_attr in Hget |- *.
  destruct (getattr_ key) as [[l|d|shown]|]; cbn [assoc] in Hget |- *;
    rewrite ?str_eqb_refl in Hget |- *; try done.
  - specialize (Hget _ eq_refl).
    assert (Hl : forall c, In c l -> height (obj2dict c) < fuel).
    { intros c Hc.
      pose proof (height_item (map obj2dict l) (obj2dict c)
                    (in_map obj2dict l c Hc)) as H1.
      lia. }
    clear Hget Hh. induction l as [|c l IHl]; [done|]. simpl.
    rewrite obj2dict_truthy.
    destruct (io_is_external c) eqn:Ec; simpl.
    + rewrite (exported_names_external c Ec). simpl.
      apply IHl. intros; apply Hl. by right.
    + rewrite IH by (apply Hl; by left). f_equal.
      apply IHl. intros; apply Hl. by right.
  - specialize (Hget _ eq_refl).
    set (export := fun kv : str * IntObj =>
                     match kv with (key, val) => (key, obj2dict val) end)
      in *.
    assert (Hd : forall kv, In kv d -> height (obj2dict kv.2) < fuel).
    { intros kv Hkv.
      pose proof (height_value (map export d) (export kv)
                    (in_map export d kv Hkv)) as H1.
      assert (Hs : (export kv).2 = obj2dict kv.2) by (by destruct kv).
      rewrite Hs in H1. lia. }
    clear Hget Hh. induction d as [|[k c] d IHd]; [done|]. simpl.
    rewrite obj2dict_truthy.
    destruct (io_is_external c) eqn:Ec; simpl.
    + rewrite (exported_names_external c Ec). simpl.
      apply IHd. intros; apply Hd. by right.
    + rewrite (IH c) by (apply (Hd (k, c)); by left). f_equal.
      apply IHd. intros; apply Hd. by right.
Qed.

(** X21. What [obj2dict] writes, [dict2obj] reads back: the import of the
    exported record of an object creates objects with the names of the
    object and of the objects below it that are not external, in pre-order,
    and no other; when the import raises, it has created the first of
    them. *)
Theorem export_import_names (w : World) (o : IntObj) (url : str)
    (parent : option nat) (remote : bool) (st : state) (fuel : nat) :
  height (obj2dict o) < fuel ->
  let run := dict2obj w fuel (obj2dict o) url parent remote st in
  exists rest,
    names st ++ exported_names o = names run.1 ++ rest /\
    (forall id, run.2 = Ok id -> rest = []).
Proof.
  intros Hh run. rewrite <- (preorder_obj2dict fuel o Hh).
  apply (dict2obj_preorder w fuel (obj2dict o) url parent remote st).
Qed.

Lemma export_import_names_witness :
  let run := dict2obj demo_world 5 (obj2dict demo_module) (lit "/x") None
               false demo_state in
  exists rest,
    names demo_state ++ exported_names demo_module = names run.1 ++ rest /\
    (forall id, run.2 = Ok id -> rest = []).
Proof.
  apply (export_import_names demo_world demo_module (lit "/x") None false
           demo_state 5).
  vm_compute. lia.
Defined.

Example export_import_example :
  let run := dict2obj demo_world 5 (obj2dict demo_module) (lit "/x") None
               false demo_state in
  run.2 = Ok 0 /\
  names run.1 = [JStr (lit "m"); JStr (lit "t"); JStr (lit "f")].
Proof. by vm_compute. Qed.

End ImportMore.

(** ** Trees of objects *)

Section TraverseProperties.
Import Trees.
Local Open Scope nat_scope.

Lemma Node_induction (P : Node -> Prop) :
  (forall id getattr_,
     (forall attr objs, getattr_ attr = Some objs -> Forall P objs) ->
     P (mkNode id getattr_)) ->
  forall root, P root.
Proof.
  intros H. fix IH 1. intros [id getattr_]. apply H.
  intros attr objs Hget.
  destruct (getattr_ attr) as [l|] eqn:E; [|done].
  injection Hget as <-. clear E.
  induction l as [|x l IHl]; constructor; [apply IH|apply IHl].
Qed.

Lemma traverse_unfold (root : Node) (attrs : list str) :
  traverse root attrs
  = flat_map (fun attr =>
                match nd_getattr root attr with
                | Some objs =>
                    flat_map (fun obj => obj :: traverse obj attrs) objs
                | None => []
                end) attrs.
Proof. by destruct root. Qed.

Lemma traverse_In (attrs : list str) (root obj : Node) :
  In obj (traverse root attrs) <->
  exists mid, child attrs root mid /\
              (obj = mid \/ In obj (traverse mid attrs)).
Proof.
  rewrite traverse_unfold, in_flat_map. split.
  - intros (attr & Hattr & Hin).
    destruct (nd_getattr root attr) as [objs|] eqn:E; [|done].
    apply in_flat_map in Hin as (mid & Hmid & [->|Hin]).
    + exists obj. split; [by exists attr, objs|by left].
    + exists mid. split; [by exists attr, objs|by right].
  - intros (mid & (attr & objs & Hattr & Hget & Hmid) & Hobj).
    exists attr. split; [done|]. rewrite Hget. apply in_flat_map.
    exists mid. split; [done|]. destruct Hobj as [->|Hobj]; [by left|by right].
Qed.

(** X22. [traverse] returns the objects below the root and no other: an
    object is in the result exactly when a chain of attributes named in
    [attrs] leads from the root to it; an attribute that an object does not
    have counts as empty. *)
Theorem traverse_below (attrs : list str) (root obj : Node) :
  In obj (traverse root attrs) <-> below attrs root obj.
Proof.
  split.
  - revert obj. induction root as [id getattr_ IH] using Node_induction.
    intros obj Hin. apply traverse_In in Hin as (mid & Hc & Hobj).
    destruct Hobj as [->|Hobj]; [by apply below_child|].
    apply below_deeper with mid; [done|].
    destruct Hc as (attr & objs & _ & Hget & Hmid).
    specialize (IH attr objs Hget). rewrite Forall_forall in IH.
    apply IH; [by apply list_elem_of_In|done].
  - induction 1 as [root obj Hc|root mid obj Hc _ IH]; apply traverse_In.
    + exists obj. by split; [|left].
    + exists mid. by split; [|right].
Qed.

Example traverse_example :
  map nd_id (traverse demo_tree [lit "kids"; lit "notes"]) = [2; 4; 5; 3] /\
  map nd_id (traverse demo_tree [lit "kids"]) = [2; 4; 3] /\
  traverse demo_tree [] = [].
Proof. by vm_compute. Qed.
End TraverseProperties.
